(** * Miao2023sim: gene-wise genotype simulation and case/control realisation

    A shallow embedding of [python_scripts/1.hapsim_and_realize_dichotomous.py].

    Conventions of the embedding.
    - A 2-D numpy array is a list of rows; a 3-D array is a list of 2-D arrays.
    - Python [int]s are [Z]; lengths and positions of arrays are [nat].
    - A [dict] keyed by [(prvl, pqtl)] is a [gmap (string * string) _].
    - Random draws are inputs of the model: a batch of sampled individuals
      comes with the outcome of its liability comparison [y_norm > th].
    - A raised exception is [None]. *)

From Stdlib Require Import ZArith QArith Reals Lia Lra.
From stdpp Require Import base option list gmap strings pretty.

Close Scope Q_scope.
Close Scope R_scope.
Open Scope Z_scope.
Open Scope nat_scope.

(** A parameter combination [(prvl, pqtl)], as the strings of the command line. *)
Abbreviation combo := (string * string)%type.

(* ================================================================== *)
(** * Part I: the model                                                 *)
(* ================================================================== *)

(** ** Array primitives *)

Section Arrays.
Context {A : Type}.

(** [np.where(y)[0]]: the positions of the true entries, ascending. *)
Fixpoint where_from (i : nat) (y : list bool) : list nat :=
  match y with
  | [] => []
  | b :: y' => if b then i :: where_from (S i) y' else where_from (S i) y'
  end.

Definition np_where (y : list bool) : list nat := where_from 0 y.

(** [X[idx]] for an index array. Every index array of the program comes
    from [np.where] on a vector with one entry per row of [X], so the
    [IndexError] of numpy cannot arise (lemma [take_rows_where]). *)
Definition take_rows (X : list A) (idx : list nat) : list A :=
  omap (λ i, X !! i) idx.

(** [np.delete(X, idx, axis=0)]. *)
Fixpoint delete_from (i : nat) (idx : list nat) (X : list A) : list A :=
  match X with
  | [] => []
  | x :: X' =>
      if bool_decide (i ∈ idx) then delete_from (S i) idx X'
      else x :: delete_from (S i) idx X'
  end.

Definition np_delete (X : list A) (idx : list nat) : list A :=
  delete_from 0 idx X.

(** Normalisation of a slice bound against a length, as Python does it. *)
Definition py_bound (len : nat) (i : Z) : nat :=
  if (i <? 0)%Z then Z.to_nat (Z.max 0 (i + Z.of_nat len))
  else Nat.min (Z.to_nat i) len.

(** [l[start:stop]] *)
Definition py_slice (start stop : Z) (l : list A) : list A :=
  let s := py_bound (length l) start in
  let e := py_bound (length l) stop in
  take (e - s) (drop s l).

(** [l[:stop]] *)
Definition py_prefix (stop : Z) (l : list A) : list A :=
  take (py_bound (length l) stop) l.

(** The [r] consecutive blocks of [c] rows. *)
Fixpoint chunks (r c : nat) (l : list A) : list (list A) :=
  match r with
  | O => []
  | S r' => take c l :: chunks r' c (drop c l)
  end.

(** [X.reshape(r, c, m)] for an array [X] of rows of width [m > 0]:
    a [ValueError] unless the sizes agree. Negative dimensions (numpy's
    [-1] wildcard among them) are outside the model and rejected. *)
Definition np_reshape (r c : Z) (l : list A) : option (list (list A)) :=
  if bool_decide (0 ≤ r ∧ 0 ≤ c ∧ Z.of_nat (length l) = r * c)%Z
  then Some (chunks (Z.to_nat r) (Z.to_nat c) l)
  else None.

(** [M[:, j]] *)
Definition column (j : nat) (M : list (list A)) : list A :=
  omap (λ row : list A, row !! j) M.
End Arrays.

(** [np.unique] on an array of positions: ascending, without repetition. *)
Definition np_unique (l : list nat) : list nat :=
  filter (λ i, i ∈ l) (seq 0 (S (max_list l))).

(** ** Case/control accumulator (lines 134-217) *)

Section Accumulator.
Context {A : Type}.

(** One call of the sampler, seen from the accumulator: the sampled rows
    and, for a parameter combination and a row position, whether the
    liability of that individual exceeded the threshold. *)
Record draw := Draw {
  rows : list A;
  is_case : combo → nat → bool
}.

(** [y = y_norm > th] *)
Definition labels (d : draw) (k : combo) : list bool :=
  is_case d k <$> seq 0 (length (rows d)).

Record state := State {
  n_collected : gmap combo Z;
  X_case_dict : gmap combo (list (list A));
  X_ctrl_dict : gmap combo (list (list A))
}.

Definition empty_state : state := State ∅ ∅ ∅.

Variables (n_rep n_case : Z).
Variables (prevalence_lst pqtl_lst : list string).

Definition tot_n_case : Z := (n_case * n_rep)%Z.

(** [product(zip(thresholds, prevalence_lst), pqtl_lst)] *)
Definition combos : list combo :=
  prvl ← prevalence_lst; pqtl ← pqtl_lst; [(prvl, pqtl)].

Definition i_case_of (d : draw) (k : combo) : list nat :=
  np_where (labels d k).

(** [np.where(~y)[0][:i_case.shape[0]]] *)
Definition i_ctrl_of (d : draw) (k : combo) : list nat :=
  take (length (i_case_of d k)) (np_where (negb <$> labels d k)).

(** Body of the realisation loop, lines 151-161, on the initial pool. *)
Definition collect_pop0 (pop0 : draw) (acc : state * list (list nat))
    (k : combo) : state * list (list nat) :=
  let i_case := i_case_of pop0 k in
  let i_ctrl := i_ctrl_of pop0 k in
  (State (<[k := Z.of_nat (length i_case)]> (n_collected acc.1))
         (<[k := [take_rows (rows pop0) i_case]]> (X_case_dict acc.1))
         (<[k := [take_rows (rows pop0) i_ctrl]]> (X_ctrl_dict acc.1)),
   acc.2 ++ [i_case; i_ctrl]).

Definition realize (pop0 : draw) : state * list (list nat) :=
  foldl (collect_pop0 pop0) (empty_state, []) combos.

(** [n_collected.loc[prvl, pqtl] < tot_n_case] *)
Definition short (st : state) (k : combo) : bool :=
  match n_collected st !! k with
  | Some c => bool_decide (c < tot_n_case)%Z
  | None => false
  end.

(** [np.any(n_collected < tot_n_case)] *)
Definition any_short (st : state) : bool :=
  existsb (short st) combos.

(** Body of the inner [for] of the oversampling loop, lines 202-210. *)
Definition extend (d : draw) (st : state) (k : combo) : state :=
  if short st k then
    let i_case := i_case_of d k in
    let i_ctrl := i_ctrl_of d k in
    State (alter (λ c, c + Z.of_nat (length i_case))%Z k (n_collected st))
          (alter (λ l, l ++ [take_rows (rows d) i_case]) k (X_case_dict st))
          (alter (λ l, l ++ [take_rows (rows d) i_ctrl]) k (X_ctrl_dict st))
  else st.

(** The rows a batch contributes to a combination, and the number of
    cases a list of batches holds for it. *)
Definition case_batch (k : combo) (d : draw) : list A :=
  take_rows (rows d) (i_case_of d k).

Definition ctrl_batch (k : combo) (d : draw) : list A :=
  take_rows (rows d) (i_ctrl_of d k).

Definition cases_in (k : combo) (ds : list draw) : Z :=
  foldr (λ d s, Z.of_nat (length (i_case_of d k)) + s)%Z 0%Z ds.

(** What the three tables hold for one combination. *)
Definition track (st : state) (k : combo)
    : option Z * option (list (list A)) * option (list (list A)) :=
  (n_collected st !! k, X_case_dict st !! k, X_ctrl_dict st !! k).

(** The track of a combination fed by the batches [ds], in this order. *)
Definition collected_from (k : combo) (ds : list draw)
    : option Z * option (list (list A)) * option (list (list A)) :=
  (Some (cases_in k ds), Some (case_batch k <$> ds),
   Some (ctrl_batch k <$> ds)).

(** One round of the [while], lines 198-210. *)
Definition sampling_round (d : draw) (st : state) : state :=
  foldl (extend d) st combos.

(** The [while] of line 197, run on the batches the sampler delivers.
    [None]: the loop is still running when the batches are used up. *)
Fixpoint accumulate (draws : list draw) (st : state) : option state :=
  if any_short st then
    match draws with
    | [] => None
    | d :: ds => accumulate ds (sampling_round d st)
    end
  else Some st.

(** Lines 215-217 for one combination: the per-replicate cases, the
    per-replicate controls and the per-replicate GWAS sample. *)
Definition partition_combo (st : state) (k : combo)
    : option (list (list A) * list (list A) * list (list A)) :=
  cases ← X_case_dict st !! k;
  ctrls ← X_ctrl_dict st !! k;
  case_parts ← np_reshape n_rep n_case (py_prefix tot_n_case (concat cases));
  ctrl_parts ← np_reshape n_rep n_case (py_prefix tot_n_case (concat ctrls));
  Some (case_parts, ctrl_parts, zip_with app case_parts ctrl_parts).

(** ** LD reference pool (lines 166-181) *)

Variable n_ld_int : list Z.

Definition n_ld_total : Z := (foldr Z.add 0 n_ld_int * n_rep)%Z.

Definition X_idx_used (used : list (list nat)) : list nat :=
  np_unique (concat used).

Definition ld_pool (pop0 : draw) (used : list (list nat)) : list A :=
  py_prefix n_ld_total (np_delete (rows pop0) (X_idx_used used)).

Fixpoint ld_panels (sizes : list Z) (start : Z) (pool : list A)
    : option (list (list (list A))) :=
  match sizes with
  | [] => Some []
  | n_ld :: rest =>
      let stop := (start + n_rep * n_ld)%Z in
      panel ← np_reshape n_rep n_ld (py_slice start stop pool);
      panels ← ld_panels rest stop pool;
      Some (panel :: panels)
  end.

Definition X_ld_lst (pop0 : draw) (used : list (list nat))
    : option (list (list (list A))) :=
  ld_panels n_ld_int 0 (ld_pool pop0 used).
End Accumulator.

Arguments draw : clear implicits.
Arguments state : clear implicits.

(** ** Dosage sampler (lines 118-124) *)

Section Sampler.
(** The float64 draws and their comparison [<] are taken as they are:
    nothing is assumed about them (the comparison is false on a NaN). *)
Variable F : Type.
Variable flt : F → F → bool.

(** Two's-complement wrap of an [int8] result. *)
Definition int8_wrap (z : Z) : Z := ((z + 128) `mod` 256 - 128)%Z.

(** [np.int8] of a boolean. *)
Definition np_int8 (b : bool) : Z := if b then 1%Z else 0%Z.

(** One row of [np.int8(X_ < percent_point)]: [percent_point] is
    broadcast along the SNP axis. *)
Definition haplotype_call (percent_point : list F) (x : list F) : list Z :=
  zip_with (λ v q, np_int8 (flt v q)) x percent_point.

(** [sample_once]: [X_] is the pair [X_[0]], [X_[1]] of the
    multivariate-normal draw of shape [(2, subsample_size, m)]. *)
Definition sample_once (percent_point : list F)
    (X_ : list (list F) * list (list F)) : list (list Z) :=
  zip_with (zip_with (λ u v, int8_wrap (u + v)))
    (haplotype_call percent_point <$> X_.1)
    (haplotype_call percent_point <$> X_.2).

(** [np.concatenate(list(map(sample_once, range(n))))], one draw per call. *)
Definition sample_batch (percent_point : list F)
    (draws : list (list (list F) * list (list F))) : list (list Z) :=
  concat (sample_once percent_point <$> draws).
End Sampler.

(** ** Haplotype loader (lines 292-298) *)

Section Loader.
(** The float64 type of the allele frequencies, with the operations the
    filter uses; nothing is assumed about them. *)
Variable F : Type.
Variable flt : F → F → bool.           (* x < y *)
Variable fsub : F → F → F.             (* x - y *)
Variable fone : F.                     (* 1 *)
Variable fmean : list Z → F.           (* mean of an int8 vector *)

(** A row of the VCF table, one per SNP. *)
Context {B : Type}.

(** [ref_haplo.mean(axis=0)] for a panel of [n_snp] columns. *)
Definition mean_axis0 (n_snp : nat) (ref_haplo : list (list Z)) : list F :=
  (λ j, fmean (column j ref_haplo)) <$> seq 0 n_snp.

(** [(allele_frq > maf_min) & (allele_frq < 1 - maf_min)] *)
Definition in_band (maf_min : F) (frq : F) : bool :=
  flt maf_min frq && flt frq (fsub fone maf_min).

Definition extract_mask (maf_min : F) (allele_frq : list F) : list bool :=
  in_band maf_min <$> allele_frq.

(** Selection by a boolean mask: [v[extract]], [M[:, extract]],
    [vcf.loc[extract, ...]]. *)
Definition select {X : Type} (mask : list bool) (v : list X) : list X :=
  take_rows v (np_where mask).

Record panel := Panel {
  ref_haplo : list (list Z);
  allele_frq : list F;
  plink_bim : list B
}.

(** Lines 293-298. [vcf] has one row per SNP; the renaming of its
    columns is left out. *)
Definition filter_by_maf (maf_min : F) (ref_haplo0 : list (list Z))
    (vcf : list B) : panel :=
  let allele_frq0 := mean_axis0 (length vcf) ref_haplo0 in
  let extract := extract_mask maf_min allele_frq0 in
  Panel (select extract <$> ref_haplo0)
        (select extract allele_frq0)
        (select extract vcf).
End Loader.

(** ** Per-gene entry point and the final table (lines 68-86, 304-305) *)

Record bim_row := BimRow {
  bim_CHR : string; bim_SNP : string; bim_CM : Z;
  bim_BP : Z; bim_A1 : string; bim_A2 : string
}.

Record region_row := RegionRow {
  reg_CHR : string; reg_START : Z; reg_END : Z
}.

Inductive message :=
  | Skipped (m : nat) (gene : string)
  | StartSimulating (m : nat) (gene : string)
  | DoneSimulation (m : nat) (gene : string).

Inductive event :=
  | ImportR (package : string)
  | LogInfo (msg : message)
  | Work (what : string).

(** [np.loadtxt(file, dtype=str)], line 65, for a file of one name per
    line: the result is squeezed, so that a file of a single name gives a
    0-d array and not an array of length one. *)
Inductive str_array :=
  | Array0 (name : string)
  | Array1 (names : list string).

Definition np_loadtxt (lines : list string) : str_array :=
  match lines with
  | [name] => Array0 name
  | _ => Array1 lines
  end.

Section Gene.
Variable region : gmap string region_row.
Variable plink_bim_all : list bim_row.

(** Lines 87-277, everything after the empty-region test: the events it
    performs on the SNPs of the gene and whether it ran to its end. *)
Variable simulate : string → list nat → list event * bool.

(** Lines 73-75. *)
Definition snp_idx_of (r : region_row) : list nat :=
  np_where ((λ s, bool_decide (bim_CHR s = reg_CHR r)
                  && (reg_START r <=? bim_BP s)%Z
                  && (bim_BP s <=? reg_END r)%Z) <$> plink_bim_all).

(** [hapsim_one_gene]: the events performed and the value returned
    ([None]: an exception). *)
Definition hapsim_one_gene (gene : string) : list event * option Z :=
  match region !! gene with
  | None => ([ImportR "hapsim"], None)
  | Some r =>
      let snp_idx := snp_idx_of r in
      let m := length snp_idx in
      if bool_decide (m = 0) then
        ([ImportR "hapsim"; LogInfo (Skipped m gene)], Some 0%Z)
      else
        let res := simulate gene snp_idx in
        if res.2 then
          ([ImportR "hapsim"; LogInfo (StartSimulating m gene)] ++ res.1
             ++ [LogInfo (DoneSimulation m gene)], Some (Z.of_nat m))
        else
          ([ImportR "hapsim"; LogInfo (StartSimulating m gene)] ++ res.1, None)
  end.

(** [Pool(nt).map(hapsim_one_gene, gene_list)], line 304, on the names of
    the gene-list file as line 65 loads them. The map takes the length of
    its argument first, which a 0-d array does not have, and an exception
    of one call is raised again by the map. *)
Definition snp_counts (gene_list : list string) : option (list Z) :=
  match np_loadtxt gene_list with
  | Array0 _ => None
  | Array1 genes => mapM (λ gene, (hapsim_one_gene gene).2) genes
  end.

(** The rows of [snp_counts.tsv]. *)
Definition snp_counts_table (gene_list : list string)
    : option (list (string * Z)) :=
  zip gene_list <$> snp_counts gene_list.
End Gene.

(** ** Effect-size realiser (lines 146-149)

    Floating-point numbers are taken as real numbers here: the statement
    on the variance of the rescaled score is one of exact arithmetic. *)

Section Realizer.
Local Open Scope R_scope.

Definition Rsum (v : list R) : R := foldr Rplus 0 v.

Definition dot (x beta : list R) : R := Rsum (zip_with Rmult x beta).

(** [X @ beta] *)
Definition matvec (X : list (list R)) (beta : list R) : list R :=
  (λ x, dot x beta) <$> X.

(** [v.mean()] *)
Definition np_mean (v : list R) : R := Rsum v / INR (length v).

(** [v.var()]: the mean of the squared deviations (ddof = 0). *)
Definition np_var (v : list R) : R :=
  np_mean ((λ x, (x - np_mean v) * (x - np_mean v)) <$> v).

(** [v.std()] *)
Definition np_std (v : list R) : R := sqrt (np_var v).

(** [h2g ** 0.5 / genetic_eff_std] *)
Definition scale_factor (h2g : R) (X_pop0_stdz : list (list R))
    (beta : list R) : R :=
  sqrt h2g / np_std (matvec X_pop0_stdz beta).

(** [realized_beta[(prvl, pqtl)] = beta * scale_factor] *)
Definition realized_beta (h2g : R) (X_pop0_stdz : list (list R))
    (beta : list R) : list R :=
  (λ b, b * scale_factor h2g X_pop0_stdz beta) <$> beta.

(** [genetic_eff * scale_factor], the genetic part of line 152. *)
Definition scaled_genetic_eff (h2g : R) (X_pop0_stdz : list (list R))
    (beta : list R) : list R :=
  (λ g, g * scale_factor h2g X_pop0_stdz beta)
    <$> matvec X_pop0_stdz beta.
End Realizer.

(** ** Association tester: the chi-squared test (lines 252-269) *)

(** The 2x2 table [[a, b], [c, d]] of line 262. *)
Record table := Table { t00 : Z; t01 : Z; t10 : Z; t11 : Z }.

(** [X.sum(axis=0)] for a matrix of [m] columns. *)
Definition sum_axis0 (m : nat) (X : list (list Z)) : list Z :=
  (λ j, foldr Z.add 0%Z (column j X)) <$> seq 0 m.

(** Lines 255-262 for one replicate: the table of every SNP, from the raw
    dosages of its cases and of its controls. *)
Definition allele_tables (n_gwa : Z) (m : nat)
    (X_case_i X_ctrl_i : list (list Z)) : list table :=
  let a := sum_axis0 m X_case_i in
  let b := (λ x, n_gwa * 2 - x)%Z <$> a in
  let c := sum_axis0 m X_ctrl_i in
  let d := (λ x, n_gwa * 2 - x)%Z <$> c in
  zip_with (λ ab cd, Table ab.1 ab.2 cd.1 cd.2) (zip a b) (zip c d).

(** The number of A2 alleles at SNP [j] in a group of diploid individuals:
    every individual carries two alleles, [dosage] of them A1. *)
Definition A2_count (j : nat) (X : list (list Z)) : Z :=
  foldr Z.add 0%Z ((λ x, 2 - x)%Z <$> column j X).

Definition A1_count (j : nat) (X : list (list Z)) : Z :=
  foldr Z.add 0%Z (column j X).

(** A float64 quotient of integers: exact on the finite values, with the
    infinities, the signed zeros and NaN of IEEE 754 that a division by
    zero produces under numpy. *)
Inductive xfloat :=
  | XNaN
  | XInf (neg : bool)
  | XZero (neg : bool)
  | XNum (q : Q).

Definition Qneg (q : Q) : bool := (Qnum q <? 0)%Z.

Definition Qltb (p q : Q) : bool :=
  (Qnum p * Z.pos (Qden q) <? Qnum q * Z.pos (Qden p))%Z.

Definition x_of_Z (z : Z) : xfloat :=
  if (z =? 0)%Z then XZero false else XNum (inject_Z z).

Definition xdiv (x y : xfloat) : xfloat :=
  match x, y with
  | XNaN, _ | _, XNaN => XNaN
  | XInf _, XInf _ => XNaN
  | XInf s, XZero t => XInf (xorb s t)
  | XInf s, XNum q => XInf (xorb s (Qneg q))
  | XZero _, XZero _ => XNaN
  | XZero s, XInf t => XZero (xorb s t)
  | XZero s, XNum q => XZero (xorb s (Qneg q))
  | XNum p, XInf t => XZero (xorb (Qneg p) t)
  | XNum p, XZero t => XInf (xorb (Qneg p) t)
  | XNum p, XNum q => XNum (p / q)%Q
  end.

(** Position on the extended line; [None] for NaN. *)
Definition xrank (x : xfloat) : option (Z * Q) :=
  match x with
  | XNaN => None
  | XInf true => Some ((-1)%Z, 0%Q)
  | XInf false => Some (1%Z, 0%Q)
  | XZero _ => Some (0%Z, 0%Q)
  | XNum q => Some (0%Z, q)
  end.

(** [x > y] *)
Definition xgt (x y : xfloat) : bool :=
  match xrank x, xrank y with
  | Some (i, p), Some (j, q) =>
      (j <? i)%Z || ((i =? j)%Z && Qltb q p)
  | _, _ => false
  end.

(** The values a quotient of counts can take: not negative, or NaN. *)
Definition xnonneg (x : xfloat) : Prop :=
  match x with
  | XNaN => True
  | XInf s | XZero s => s = false
  | XNum q => (0 < q)%Q
  end.

(** Line 264. *)
Definition odds_ratio (t : table) : xfloat :=
  xdiv (xdiv (x_of_Z (t00 t)) (x_of_Z (t10 t)))
       (xdiv (x_of_Z (t01 t)) (x_of_Z (t11 t))).

Section ChiSquared.
(** The statistic returned by [scipy.stats.chi2_contingency], a library
    function; [None] when it raises. *)
Variable chi2_contingency : table → option R.

(** Lines 263-268: the value stored in [z[i, j, 0]]. *)
Definition chi2_z (t : table) : option R :=
  stat ← chi2_contingency t;
  let z_abs := sqrt stat in
  Some (if xgt (odds_ratio t) (x_of_Z 1) then z_abs else (- z_abs)%R).
End ChiSquared.

(** ** Summary-statistic files (lines 219-242) *)

Section Sumstats.
(** The type of the statistics and the two-sided p-value
    [norm.sf(np.abs(z)) * 2]. *)
Variable V : Type.
Variable two_sided_p : V → V.

(** A row of [<prefix>.sumstat.gz]: CHR, BP, P, SNP, A1, A2, Z, N. *)
Record sumstat_row := SumstatRow {
  ss_CHR : string; ss_BP : Z; ss_P : V; ss_SNP : string;
  ss_A1 : string; ss_A2 : string; ss_Z : V; ss_N : Z
}.

(** A row of [<prefix>.lder.sumstat.gz]: snp, chr, a0, a1, z. *)
Record lder_row := LderRow {
  lder_snp : string; lder_chr : string; lder_a0 : string;
  lder_a1 : string; lder_z : V
}.

(** A row of [<prefix>.ldak.sumstat]: Predictor, A1, A2, n, Z. *)
Record ldak_row := LdakRow {
  ldak_Predictor : string; ldak_A1 : string; ldak_A2 : string;
  ldak_n : Z; ldak_Z : V
}.

Variable n_gwa : Z.
Variable plink_bim_i : list bim_row.

(** The three files of one replicate. Assigning a column of the wrong
    length to the data frame is a [ValueError]. *)
Definition sumstat_files (z_j : list V)
    : option (list sumstat_row * list lder_row * list ldak_row) :=
  if bool_decide (length z_j = length plink_bim_i) then
    Some (zip_with (λ s z, SumstatRow (bim_CHR s) (bim_BP s) (two_sided_p z)
                             (bim_SNP s) (bim_A1 s) (bim_A2 s) z n_gwa)
            plink_bim_i z_j,
          zip_with (λ s z, LderRow (bim_SNP s) (bim_CHR s) (bim_A1 s)
                             (bim_A2 s) z) plink_bim_i z_j,
          zip_with (λ s z, LdakRow (bim_SNP s) (bim_A1 s) (bim_A2 s)
                             n_gwa z) plink_bim_i z_j)
  else None.

(** [write_sumstats(z_, stem)]: the files of replicates [0 .. n_rep-1]. *)
Definition write_sumstats (n_rep : Z) (z_ : list (list V))
    : option (list (list sumstat_row * list lder_row * list ldak_row)) :=
  mapM (λ j, z_ !! j ≫= sumstat_files) (seq 0 (Z.to_nat n_rep)).
End Sumstats.

(** Lines 49-50. [args.n_gwa] is a float holding an integer; halving it is
    exact and [int] truncates towards zero. *)
Definition n_case_of (n_gwa : Z) : Z := Z.quot n_gwa 2.

(** ** Reading the reference panel (lines 289-290) *)

(** [int(c)] for a one-character string, the conversion that
    [astype(np.int8)] applies to the extracted characters. *)
Definition digit_of_ascii (c : Ascii.ascii) : option Z :=
  let n := Ascii.nat_of_ascii c in
  if (48 <=? n) && (n <=? 57) then Some (Z.of_nat (n - 48)) else None.

(** [x[pos]] and its conversion; an [IndexError] on a short string and a
    [ValueError] on a character that is no digit are both [None]. *)
Definition allele_at (pos : nat) (gt : string) : option Z :=
  String.get pos gt ≫= digit_of_ascii.

(** [M.T] for a 2-D array of [n_cols] columns. *)
Definition np_transpose {A} (n_cols : nat) (M : list (list A))
    : list (list A) :=
  (λ s, column s M) <$> seq 0 n_cols.

(** [genotypes] is [vcf.loc[:, 9:]]: one row per SNP, one genotype string
    per sample. The first alleles of all samples come first, then the
    second alleles. *)
Definition read_haplotypes (n_samples : nat) (genotypes : list (list string))
    : option (list (list Z)) :=
  first ← mapM (mapM (allele_at 0)) genotypes;
  second ← mapM (mapM (allele_at 2)) genotypes;
  Some (np_transpose n_samples first ++ np_transpose n_samples second).

(** ** Drawing the effects and standardising the pool (lines 125-144) *)

(** The number of causal SNPs is computed in binary64 arithmetic. A finite
    double is written [mant * 2 ^ expo]; it is one when it has such a
    writing with less than 53 bits of mantissa and an exponent in range. *)
Record dyadic := Dyadic { mant : Z; expo : Z }.

Definition is_float64 (x : dyadic) : Prop :=
  (Z.abs (mant x) < 2 ^ 53)%Z ∧ (-1074 ≤ expo x ≤ 971)%Z.

Definition dyadic_Q (x : dyadic) : Q :=
  if (0 <=? expo x)%Z then inject_Z (mant x * 2 ^ expo x)
  else Qmake (mant x) (Z.to_pos (2 ^ (- expo x))).

(** [a / d] rounded to the nearest integer, ties to even
    ([0 ≤ a], [0 < d]). *)
Definition round_half_even (a d : Z) : Z :=
  let f := (a / d)%Z in
  let r := (a mod d)%Z in
  if (2 * r <? d)%Z then f
  else if (d <? 2 * r)%Z then (f + 1)%Z
  else if Z.even f then f else (f + 1)%Z.

(** The double nearest to [x], ties to even: 53 significant bits, the
    exponent of the last bit not below -1074 (subnormal numbers).
    [None]: the result is an infinity. *)
Definition round64 (x : dyadic) : option dyadic :=
  if (mant x =? 0)%Z then Some (Dyadic 0 0)
  else
    let a := Z.abs (mant x) in
    let e := Z.max (Z.log2 a + expo x - 52) (-1074) in
    let n := if (e <=? expo x)%Z then (a * 2 ^ (expo x - e))%Z
             else round_half_even a (2 ^ (e - expo x)) in
    if (1024 <=? Z.log2 n + e)%Z then None
    else Some (Dyadic (Z.sgn (mant x) * n) e).

(** The conversion of a Python [int] in a product with a [float]; an
    [OverflowError] is [None]. *)
Definition float_of_int (i : Z) : option dyadic := round64 (Dyadic i 0).

Definition float_mul (x y : dyadic) : option dyadic :=
  round64 (Dyadic (mant x * mant y) (expo x + expo y)).

(** [int(np.ceil(x))] for a finite [x]. *)
Definition ceil_int (x : dyadic) : Z :=
  if (0 <=? expo x)%Z then (mant x * 2 ^ expo x)%Z
  else (- ((- mant x) / 2 ^ (- expo x)))%Z.

(** What [float(pqtl)] reads from the string: a finite double, or an
    infinity or a NaN. *)
Inductive py_float :=
  | Finite (x : dyadic)
  | NonFinite.

(** [int(np.ceil(m * float(pqtl)))], line 141. [None]: the product is an
    infinity or a NaN, of which [int] raises. *)
Definition m_qtl_of (m : nat) (pqtl : py_float) : option Z :=
  match pqtl with
  | Finite x =>
      fm ← float_of_int (Z.of_nat m);
      p ← float_mul fm x;
      Some (ceil_int p)
  | NonFinite => None
  end.

(** [v[idx] = values]: positions are assigned in the order of [idx]. *)
Definition assign_at {A} (idx : list nat) (values : list A) (v : list A)
    : list A :=
  foldl (λ acc iv, <[iv.1 := iv.2]> acc) v (zip idx values).

(** [beta = np.zeros(m); beta[idx_qtl] = ...], lines 143-144. *)
Definition draw_beta (m : nat) (idx_qtl : list nat) (values : list R)
    : list R :=
  assign_at idx_qtl values (replicate m 0%R).

(** An integer dosage matrix as floats. *)
Definition to_float (X : list (list Z)) : list (list R) :=
  (λ row : list Z, IZR <$> row) <$> X.

(** [X.mean(axis=0)] and [X.std(axis=0)] for a matrix of [m] columns. *)
Definition mean_axis0_R (m : nat) (X : list (list R)) : list R :=
  (λ j, np_mean (column j X)) <$> seq 0 m.

Definition std_axis0_R (m : nat) (X : list (list R)) : list R :=
  (λ j, np_std (column j X)) <$> seq 0 m.

(** [(X - mean_pop0) / std_pop0], both vectors broadcast over the rows. *)
Definition standardize (mean_pop0 std_pop0 : list R) (X : list (list R))
    : list (list R) :=
  (λ row, zip_with Rdiv (zip_with Rminus row mean_pop0) std_pop0) <$> X.

(** ** Sample identifiers of the LD panels (lines 169-179) *)

(** [np.arange(1, 1 + tot_n_case * 2 + n_ld_total).astype(str)], doubled
    into the family and the individual identifier. *)
Definition iid (n_rep n_case : Z) (n_ld_int : list Z)
    : list (string * string) :=
  (λ i : Z, (pretty i, pretty i))
    <$> seqZ 1 (tot_n_case n_rep n_case * 2 + n_ld_total n_rep n_ld_int).

(** [iid_ld_lst]: the identifiers are sliced as the genotypes are. *)
Definition iid_ld_lst (n_rep n_case : Z) (n_ld_int : list Z)
    : option (list (list (list (string * string)))) :=
  ld_panels n_rep n_ld_int 0 (iid n_rep n_case n_ld_int).

(** ** Association tester: the linear test (lines 245-249) *)

(** [np.concatenate((np.ones(n_case), -np.ones(n_case)))]; a negative
    size is a [ValueError]. *)
Definition y_stdz (n_case : Z) : option (list R) :=
  if (n_case <? 0)%Z then None
  else Some (replicate (Z.to_nat n_case) 1%R
             ++ replicate (Z.to_nat n_case) (-1)%R).

(** [X_stdz[i].T @ y_stdz / np.sqrt(n_gwa)] for a replicate of [m] SNPs;
    the product needs one label per row. *)
Definition linear_z (n_gwa : Z) (m : nat) (X_stdz_i : list (list R))
    (y : list R) : option (list R) :=
  if bool_decide (length X_stdz_i = length y) then
    Some ((λ j, dot (column j X_stdz_i) y / sqrt (IZR n_gwa))%R <$> seq 0 m)
  else None.

(** ** Association tester: the loop of the chi-squared test (lines 255-268) *)

Definition chi2_test (chi2_contingency : table → option R) (n_gwa : Z)
    (m : nat) (n_rep : Z) (X_case X_ctrl : list (list (list Z)))
    : option (list (list R)) :=
  mapM (λ i, X_case_i ← X_case !! i;
             X_ctrl_i ← X_ctrl !! i;
             mapM (chi2_z chi2_contingency)
                  (allele_tables n_gwa m X_case_i X_ctrl_i))
       (seq 0 (Z.to_nat n_rep)).

(** ** Sample inputs

    One combination, prevalence 0.9 and causal proportion 1; one replicate
    of two cases and two controls. Rows are dosage vectors over two SNPs. *)

Definition sample_key : combo := ("0.9", "1").

(** An initial pool of four individuals without a case. *)
Definition sample_pop0_none : draw (list Z) :=
  Draw [[0; 1]; [1; 1]; [0; 0]; [2; 1]]%Z (λ _ _, false).


(** A batch of four individuals, the first two of them cases. *)
Definition sample_batch_balanced : draw (list Z) :=
  Draw [[2; 2]; [1; 2]; [0; 1]; [1; 0]]%Z (λ _ i, bool_decide (i < 2)).

(** A state in which the combination has reached a target of two cases. *)
Definition sample_state_complete : state (list Z) :=
  State {[sample_key := 2%Z]}
        {[sample_key := [[[2; 1]; [1; 2]]]%Z]}
        {[sample_key := [[[0; 1]; [0; 0]]]%Z]}.

(** An initial pool of six individuals, each a sample number with its
    dosages; the first two are cases. *)
Definition sample_pop0_tagged : draw (Z * list Z) :=
  Draw [(1, [2; 1]); (2, [1; 2]); (3, [0; 1]); (4, [0; 0]);
        (5, [0; 1]); (6, [2; 1])]%Z
       (λ _ i, bool_decide (i < 2)).

(** One round of the oversampling loop for [subsample_size = 1]: ten
    individuals, the first [n] of them cases. *)
Definition sample_round (n : nat) : draw (Z * list Z) :=
  Draw [(11, [2; 1]); (12, [1; 2]); (13, [2; 2]); (14, [1; 1]);
        (15, [2; 0]); (16, [0; 2]); (17, [0; 1]); (18, [1; 0]);
        (19, [0; 0]); (20, [1; 1])]%Z
       (λ _ i, bool_decide (i < n)).

(** A panel of four haplotypes over three SNPs with frequencies 0, 1/2
    and 1, with rational arithmetic for the frequencies. *)
Definition Qmean (xs : list Z) : Q :=
  (inject_Z (foldr Z.add 0%Z xs) / inject_Z (Z.of_nat (length xs)))%Q.

Definition sample_ref_haplo : list (list Z) :=
  [[0; 1; 1]; [0; 0; 1]; [0; 1; 1]; [0; 0; 1]]%Z.

Definition sample_vcf : list string := ["rs1"; "rs2"; "rs3"].

(** A panel of three SNPs on chromosome 1 and two gene regions, the
    second of them on a chromosome the panel does not have. *)
Definition sample_bim : list bim_row :=
  [BimRow "1" "rs1" 0 100 "A" "C"; BimRow "1" "rs2" 0 200 "G" "T";
   BimRow "1" "rs3" 0 300 "C" "T"]%Z.

Definition sample_region : gmap string region_row :=
  {["GENE1" := RegionRow "1" 50 250; "GENE2" := RegionRow "7" 50 250]}%Z.

(** A stand-in for the simulation proper: one unit of work per SNP. *)
Definition sample_simulate (gene : string) (snp_idx : list nat)
    : list event * bool :=
  ((λ _, Work gene) <$> snp_idx, true).

(* ================================================================== *)
(** * Part II: properties                                               *)
(* ================================================================== *)

(** ** Arrays *)

Section ArrayFacts.
Context {A : Type}.
Implicit Types (X : list A) (y : list bool) (idx : list nat).

Lemma elem_of_where_from s y i :
  i ∈ where_from s y ↔ ∃ n, i = s + n ∧ y !! n = Some true.
Proof.
  revert s. induction y as [|b y IH]; intros s; simpl.
  - split; [by intros ?%elem_of_nil | by intros (n & _ & ?)].
  - destruct b.
    + rewrite elem_of_cons, IH. split.
      * intros [-> | (n & -> & Hn)]; [exists 0 | exists (S n)];
          split; simpl; auto; lia.
      * intros ([|n] & -> & Hn); [left; lia | right; exists n].
        split; [lia | done].
    + rewrite IH. split.
      * intros (n & -> & Hn). exists (S n). split; [lia | done].
      * intros ([|n] & -> & Hn); [done | exists n].
        split; [lia | done].
Qed.

Lemma elem_of_np_where y i : i ∈ np_where y ↔ y !! i = Some true.
Proof.
  unfold np_where. rewrite elem_of_where_from. split.
  - by intros (n & -> & ?).
  - intros ?. by exists i.
Qed.

Lemma where_from_lower s y i : i ∈ where_from s y → s ≤ i.
Proof. rewrite elem_of_where_from. intros (n & -> & _). lia. Qed.

Lemma NoDup_where_from s y : NoDup (where_from s y).
Proof.
  revert s. induction y as [|b y IH]; intros s; simpl; [constructor|].
  destruct b; [|done]. constructor; [|done].
  intros ?%where_from_lower. lia.
Qed.

Lemma NoDup_np_where y : NoDup (np_where y).
Proof. apply NoDup_where_from. Qed.

Lemma np_where_lt y i : i ∈ np_where y → i < length y.
Proof. rewrite elem_of_np_where. apply lookup_lt_Some. Qed.

Lemma length_where_from_le s y : length (where_from s y) ≤ length y.
Proof.
  revert s. induction y as [|[] y IH]; intros s; simpl; [lia| |];
    specialize (IH (S s)); lia.
Qed.

(** A boolean vector splits into its true and its false positions. *)
Lemma length_where_from_negb s y :
  length (where_from s y) + length (where_from s (negb <$> y)) = length y.
Proof.
  revert s. induction y as [|b y IH]; intros s; [done|].
  rewrite fmap_cons. specialize (IH (S s)). destruct b; simpl in *; lia.
Qed.

Lemma length_take_rows X idx :
  Forall (λ i, i < length X) idx → length (take_rows X idx) = length idx.
Proof.
  unfold take_rows. induction 1 as [|i idx Hi _ IH]; [done|].
  destruct (lookup_lt_is_Some_2 X i Hi) as [x Hx]. cbn. rewrite Hx. cbn.
  by rewrite IH.
Qed.

Lemma elem_of_take_rows X idx x :
  x ∈ take_rows X idx ↔ ∃ i, i ∈ idx ∧ X !! i = Some x.
Proof. unfold take_rows. by rewrite list_elem_of_omap. Qed.

(** The index arrays of the program address existing rows: indexing
    returns one row per index. *)
Lemma take_rows_where X y :
  length y = length X →
  mapM (λ i, X !! i) (np_where y) = Some (take_rows X (np_where y)).
Proof.
  intros Hlen. apply mapM_Some. unfold take_rows.
  assert (Forall (λ i, i < length X) (np_where y)) as Hall.
  { apply Forall_forall. intros i ?%np_where_lt. lia. }
  induction Hall as [|i idx Hi _ IH]; [constructor|].
  destruct (lookup_lt_is_Some_2 X i Hi) as [x Hx]. cbn. rewrite Hx. cbn.
  by constructor.
Qed.

Lemma take_rows_app X idx1 idx2 :
  take_rows X (idx1 ++ idx2) = take_rows X idx1 ++ take_rows X idx2.
Proof. unfold take_rows. apply omap_app. Qed.

(** Distinct positions of a repetition-free array select distinct rows. *)
Lemma NoDup_take_rows X idx : NoDup X → NoDup idx → NoDup (take_rows X idx).
Proof.
  intros HX. induction 1 as [|i idx Hi _ IH]; [constructor|].
  unfold take_rows in *. cbn. destruct (X !! i) as [x|] eqn:Hx; [|done].
  cbn. constructor; [|done].
  rewrite list_elem_of_omap. intros (j & Hj & Hxj).
  pose proof (NoDup_lookup X i j x HX Hx Hxj). by subst.
Qed.

Lemma elem_of_delete_from s idx X x :
  x ∈ delete_from s idx X ↔ ∃ n, X !! n = Some x ∧ s + n ∉ idx.
Proof.
  revert s. induction X as [|x0 X IH]; intros s; simpl.
  - split; [by intros ?%elem_of_nil | by intros (n & ? & _)].
  - case_bool_decide as Hin.
    + rewrite IH. split.
      * intros (n & Hn & Hnot). exists (S n). split; [done|].
        by replace (s + S n) with (S s + n) by lia.
      * intros ([|n] & Hn & Hnot).
        { by replace (s + 0) with s in Hnot by lia. }
        exists n. split; [done|].
        by replace (S s + n) with (s + S n) by lia.
    + rewrite elem_of_cons, IH. split.
      * intros [-> | (n & Hn & Hnot)].
        { exists 0. split; [done|]. by replace (s + 0) with s by lia. }
        exists (S n). split; [done|].
        by replace (s + S n) with (S s + n) by lia.
      * intros ([|n] & Hn & Hnot).
        { left. simpl in Hn. congruence. }
        right. exists n. split; [done|].
        by replace (S s + n) with (s + S n) by lia.
Qed.

Lemma elem_of_np_delete X idx x :
  x ∈ np_delete X idx ↔ ∃ n, X !! n = Some x ∧ n ∉ idx.
Proof. unfold np_delete. by rewrite elem_of_delete_from. Qed.

Lemma delete_from_sublist s idx X : delete_from s idx X `sublist_of` X.
Proof.
  revert s. induction X as [|x X IH]; intros s; simpl; [constructor|].
  case_bool_decide; [apply sublist_cons | apply sublist_skip]; apply IH.
Qed.

Lemma py_prefix_sublist n X : py_prefix n X `sublist_of` X.
Proof. unfold py_prefix. apply sublist_take. Qed.

Lemma py_prefix_nonneg n X :
  (0 ≤ n)%Z → py_prefix n X = take (Z.to_nat n) X.
Proof.
  intros Hn. unfold py_prefix, py_bound.
  destruct (Z.ltb_spec n 0); [lia|].
  destruct (Nat.min_spec (Z.to_nat n) (length X)) as [[? ->] | [? ->]];
    [done|].
  rewrite !take_ge; [done | lia | lia].
Qed.

Lemma py_slice_nonneg s e X :
  (0 ≤ s ≤ e)%Z → (e ≤ Z.of_nat (length X))%Z →
  py_slice s e X = take (Z.to_nat e - Z.to_nat s) (drop (Z.to_nat s) X).
Proof.
  intros Hs He. unfold py_slice, py_bound.
  destruct (Z.ltb_spec s 0); [lia|]. destruct (Z.ltb_spec e 0); [lia|].
  rewrite !Nat.min_l by lia. done.
Qed.

Lemma length_chunks r c X : length (chunks r c X) = r.
Proof. revert X. induction r as [|r IH]; intros X; simpl; [done|]. by rewrite IH. Qed.

Lemma concat_chunks r c X :
  length X = r * c → concat (chunks r c X) = X.
Proof.
  revert X. induction r as [|r IH]; intros X Hlen; simpl.
  - symmetry. by apply nil_length_inv.
  - rewrite IH; [apply take_drop|]. rewrite length_drop. lia.
Qed.

Lemma Forall_length_chunks r c X :
  length X = r * c → Forall (λ p, length p = c) (chunks r c X).
Proof.
  revert X. induction r as [|r IH]; intros X Hlen; simpl; [constructor|].
  constructor.
  - rewrite length_take. lia.
  - apply IH. rewrite length_drop. lia.
Qed.

Lemma np_reshape_Some r c X parts :
  np_reshape r c X = Some parts →
  (0 ≤ r)%Z ∧ (0 ≤ c)%Z ∧ length X = Z.to_nat r * Z.to_nat c
  ∧ parts = chunks (Z.to_nat r) (Z.to_nat c) X.
Proof.
  unfold np_reshape. case_bool_decide as H; [|done].
  intros [= <-]. destruct H as (Hr & Hc & Hlen). repeat split; try done.
  apply Nat2Z.inj. rewrite Hlen, Nat2Z.inj_mul, !Z2Nat.id; lia.
Qed.

Lemma np_reshape_is_Some r c X :
  (0 ≤ r)%Z → (0 ≤ c)%Z → Z.of_nat (length X) = (r * c)%Z →
  np_reshape r c X = Some (chunks (Z.to_nat r) (Z.to_nat c) X).
Proof. intros. unfold np_reshape. by rewrite bool_decide_eq_true_2. Qed.
End ArrayFacts.

(** ** Case/control accumulator *)

Section AccumulatorFacts.
Context {A : Type}.
Variables (n_rep n_case : Z).
Variables (prevalence_lst pqtl_lst : list string).

Local Abbreviation tot := (tot_n_case n_rep n_case).
Local Abbreviation ks := (combos prevalence_lst pqtl_lst).
Local Abbreviation extend := (extend n_rep n_case).
Local Abbreviation short := (short n_rep n_case).
Local Abbreviation sampling_round :=
  (sampling_round n_rep n_case prevalence_lst pqtl_lst).
Local Abbreviation accumulate :=
  (accumulate n_rep n_case prevalence_lst pqtl_lst).
Local Abbreviation realize := (realize prevalence_lst pqtl_lst).

Implicit Types (d : draw A) (ds draws : list (draw A)).
Implicit Types (st : state A) (k : combo).

Lemma NoDup_combos :
  NoDup prevalence_lst → NoDup pqtl_lst → NoDup ks.
Proof.
  intros Hp Hq. unfold combos. apply NoDup_bind; [| |done].
  - intros p1 p2 k _ _ (q1 & Hk1%list_elem_of_singleton & _)%list_elem_of_bind
      (q2 & Hk2%list_elem_of_singleton & _)%list_elem_of_bind.
    congruence.
  - intros p _. apply NoDup_bind; [| |done].
    + intros q1 q2 k _ _ Hk1%list_elem_of_singleton
        Hk2%list_elem_of_singleton.
      congruence.
    + intros. apply NoDup_singleton.
Qed.

Lemma elem_of_combos prvl pqtl :
  (prvl, pqtl) ∈ ks ↔ prvl ∈ prevalence_lst ∧ pqtl ∈ pqtl_lst.
Proof.
  unfold combos. rewrite list_elem_of_bind. split.
  - intros (p & (q & Heq%list_elem_of_singleton & Hq)%list_elem_of_bind & Hp).
    by simplify_eq.
  - intros [Hp Hq]. exists prvl. split; [|done].
    apply list_elem_of_bind. exists pqtl. split; [|done].
    by apply list_elem_of_singleton.
Qed.

Lemma cases_in_app k ds1 ds2 :
  cases_in k (ds1 ++ ds2) = (cases_in k ds1 + cases_in k ds2)%Z.
Proof.
  unfold cases_in. induction ds1 as [|d ds1 IH]; simpl; [done|].
  rewrite IH. lia.
Qed.

Lemma cases_in_cons k d ds :
  cases_in k (d :: ds)
  = (Z.of_nat (length (i_case_of d k)) + cases_in k ds)%Z.
Proof. reflexivity. Qed.

Lemma cases_in_nonneg k ds : (0 ≤ cases_in k ds)%Z.
Proof. unfold cases_in. induction ds; simpl; lia. Qed.

(** *** One combination at a time *)

Lemma short_eq st k :
  short st k = match n_collected st !! k with
               | Some c => bool_decide (c < tot)%Z
               | None => false
               end.
Proof. reflexivity. Qed.

Lemma extend_eq d st k :
  extend d st k =
    if short st k then
      State (alter (λ c, c + Z.of_nat (length (i_case_of d k)))%Z k
               (n_collected st))
            (alter (λ l, l ++ [case_batch k d]) k (X_case_dict st))
            (alter (λ l, l ++ [ctrl_batch k d]) k (X_ctrl_dict st))
    else st.
Proof. reflexivity. Qed.

Lemma track_extend_ne d st k k' :
  k ≠ k' → track (extend d st k) k' = track st k'.
Proof.
  intros Hne. rewrite extend_eq. unfold track.
  destruct (short st k); [|done]. cbn. by rewrite !lookup_alter_ne.
Qed.

Lemma extend_not_short d st k c :
  n_collected st !! k = Some c → (tot ≤ c)%Z → extend d st k = st.
Proof.
  intros Hc Hle. rewrite extend_eq, short_eq, Hc.
  by rewrite bool_decide_eq_false_2 by lia.
Qed.

Lemma track_extend_short d st k c :
  n_collected st !! k = Some c → (c < tot)%Z →
  track (extend d st k) k =
    (Some (c + Z.of_nat (length (i_case_of d k)))%Z,
     (λ l, l ++ [case_batch k d]) <$> X_case_dict st !! k,
     (λ l, l ++ [ctrl_batch k d]) <$> X_ctrl_dict st !! k).
Proof.
  intros Hc Hlt. rewrite extend_eq, short_eq. unfold track.
  rewrite Hc, bool_decide_eq_true_2 by done. cbn.
  by rewrite !lookup_alter_eq, Hc.
Qed.

Lemma track_extend_local d st1 st2 k :
  track st1 k = track st2 k →
  track (extend d st1 k) k = track (extend d st2 k) k.
Proof.
  intros Heq. unfold track in Heq. simplify_eq.
  destruct (n_collected st2 !! k) as [c|] eqn:Hc.
  - destruct (decide (c < tot)%Z).
    + rewrite !(track_extend_short _ _ _ c) by congruence. congruence.
    + rewrite !(extend_not_short _ _ _ c) by (congruence || lia).
      unfold track. congruence.
  - rewrite !extend_eq, !short_eq.
    replace (n_collected st1 !! k) with (@None Z) by congruence.
    rewrite Hc. unfold track. congruence.
Qed.

Lemma track_foldl_extend_notin d st l k :
  k ∉ l → track (foldl (extend d) st l) k = track st k.
Proof.
  revert st. induction l as [|k0 l IH]; intros st Hk; [done|].
  apply not_elem_of_cons in Hk as [Hne Hk]. simpl.
  rewrite IH by done. by apply track_extend_ne.
Qed.

Lemma track_foldl_extend_in d st l k :
  NoDup l → k ∈ l →
  track (foldl (extend d) st l) k = track (extend d st k) k.
Proof.
  intros Hnd. revert st.
  induction Hnd as [|k0 l Hk0 Hnd IH]; intros st Hk.
  { by apply elem_of_nil in Hk. }
  simpl. destruct (decide (k = k0)) as [->|Hne].
  - by apply track_foldl_extend_notin.
  - apply elem_of_cons in Hk as [?|Hk]; [done|].
    rewrite IH by done. apply track_extend_local.
    by apply track_extend_ne.
Qed.

Lemma track_foldl_extend_frame d st l k c :
  n_collected st !! k = Some c → (tot ≤ c)%Z →
  track (foldl (extend d) st l) k = track st k.
Proof.
  revert st. induction l as [|k0 l IH]; intros st Hc Hle; [done|]. simpl.
  assert (track (extend d st k0) k = track st k) as Hstep.
  { destruct (decide (k0 = k)) as [->|Hne].
    - by rewrite (extend_not_short _ _ _ c).
    - by apply track_extend_ne. }
  rewrite IH, Hstep; [done| |done].
  unfold track in Hstep. congruence.
Qed.

Lemma track_round d st k :
  NoDup ks → k ∈ ks →
  track (sampling_round d st) k = track (extend d st k) k.
Proof. apply track_foldl_extend_in. Qed.

Lemma track_extend_collected d st k ds :
  track st k = collected_from k ds →
  track (extend d st k) k =
    if bool_decide (cases_in k ds < tot)%Z
    then collected_from k (ds ++ [d]) else collected_from k ds.
Proof.
  intros Ht. unfold track, collected_from in Ht. simplify_eq.
  case_bool_decide as Hlt.
  - erewrite track_extend_short by eauto. unfold collected_from.
    rewrite cases_in_app, !fmap_app. cbn.
    repeat match goal with H : _ !! k = Some _ |- _ => rewrite H end.
    cbn. repeat f_equal. lia.
  - erewrite extend_not_short by (eauto || lia).
    unfold track, collected_from. congruence.
Qed.

(** *** The realisation loop on the initial pool *)

Lemma track_collect_pop0 (pop0 : draw A) acc l k :
  k ∈ l →
  track (foldl (collect_pop0 pop0) acc l).1 k = collected_from k [pop0].
Proof.
  induction l as [|k0 l IH] using rev_ind; intros Hk.
  { by apply elem_of_nil in Hk. }
  rewrite foldl_snoc. unfold track, collected_from, cases_in. cbn.
  destruct (decide (k = k0)) as [->|Hne].
  - rewrite !lookup_insert_eq. by rewrite Z.add_0_r.
  - rewrite !lookup_insert_ne by done.
    apply elem_of_app in Hk as [Hk|Hk%list_elem_of_singleton]; [|done].
    by apply IH.
Qed.

Lemma track_realize (pop0 : draw A) k :
  k ∈ ks → track (realize pop0).1 k = collected_from k [pop0].
Proof. apply track_collect_pop0. Qed.

Lemma used_collect_pop0 (pop0 : draw A) acc l :
  (foldl (collect_pop0 pop0) acc l).2
  = acc.2 ++ (l ≫= λ k, [i_case_of pop0 k; i_ctrl_of pop0 k]).
Proof.
  revert acc. induction l as [|k0 l IH]; intros acc; cbn.
  - by rewrite app_nil_r.
  - rewrite IH. cbn. by rewrite <- app_assoc.
Qed.

Lemma used_realize (pop0 : draw A) :
  (realize pop0).2 = ks ≫= λ k, [i_case_of pop0 k; i_ctrl_of pop0 k].
Proof. apply used_collect_pop0. Qed.

(** *** The oversampling loop *)

Lemma any_short_false st k :
  any_short n_rep n_case prevalence_lst pqtl_lst st = false →
  k ∈ ks → short st k = false.
Proof.
  unfold any_short. intros Hex Hk.
  destruct (short st k) eqn:Hs; [|done].
  assert (existsb (short st) ks = true) as Hc; [|congruence].
  apply existsb_exists. exists k. split; [|done].
  by apply list_elem_of_In.
Qed.

Lemma any_short_true st :
  any_short n_rep n_case prevalence_lst pqtl_lst st = true →
  ∃ k, k ∈ ks ∧ short st k = true.
Proof.
  unfold any_short. intros (k & Hk & Hs)%existsb_exists.
  exists k. split; [by apply list_elem_of_In | done].
Qed.

Lemma accumulate_eq draws st :
  accumulate draws st =
    if any_short n_rep n_case prevalence_lst pqtl_lst st then
      match draws with
      | [] => None
      | d :: ds => accumulate ds (sampling_round d st)
      end
    else Some st.
Proof. by destruct draws. Qed.

(** When the loop ends, no combination is short of its target. *)
Lemma accumulate_done draws st st' :
  accumulate draws st = Some st' →
  any_short n_rep n_case prevalence_lst pqtl_lst st' = false.
Proof.
  revert st. induction draws as [|d ds IH]; intros st;
    rewrite accumulate_eq;
    destruct (any_short _ _ _ _ st) eqn:Hs; try done;
    try (intros [= <-]; done).
  apply IH.
Qed.

(** A combination that has reached its target is never touched again. *)
Lemma accumulate_frame draws st st' k c :
  n_collected st !! k = Some c → (tot ≤ c)%Z →
  accumulate draws st = Some st' → track st' k = track st k.
Proof.
  revert st. induction draws as [|d ds IH]; intros st Hc Hle;
    rewrite accumulate_eq;
    destruct (any_short _ _ _ _ st); try done;
    try (intros [= <-]; done).
  intros Hacc.
  pose proof (track_foldl_extend_frame d st ks k c Hc Hle) as Hstep.
  change (foldl (extend d) st ks) with (sampling_round d st) in Hstep.
  rewrite <- Hstep. apply IH; [|done..].
  unfold track in Hstep. congruence.
Qed.

(** The track the loop leaves for a combination: the batches of the
    rounds during which it was short, in the order of the rounds. *)
Lemma accumulate_collected draws st st' k ds0 :
  NoDup ks → k ∈ ks →
  track st k = collected_from k ds0 →
  accumulate draws st = Some st' →
  ∃ j, j ≤ length draws
       ∧ track st' k = collected_from k (ds0 ++ take j draws)
       ∧ (tot ≤ cases_in k (ds0 ++ take j draws))%Z.
Proof.
  intros Hnd Hk. revert st ds0.
  induction draws as [|d ds IH]; intros st ds0 Ht; rewrite accumulate_eq;
    destruct (any_short _ _ _ _ st) eqn:Hs; try done.
  - intros [= <-]. exists 0. rewrite app_nil_r. split_and!; [done..|].
    pose proof (any_short_false _ _ Hs Hk) as Hsk.
    rewrite short_eq in Hsk. unfold track, collected_from in Ht.
    simplify_eq. repeat match goal with
      H : n_collected _ !! _ = Some _ |- _ => rewrite H in Hsk end.
    by apply bool_decide_eq_false in Hsk; lia.
  - intros Hacc.
    pose proof (track_round d st k Hnd Hk) as Hr.
    rewrite (track_extend_collected _ _ _ _ Ht) in Hr.
    case_bool_decide as Hlt.
    + destruct (IH _ _ Hr Hacc) as (j & Hj & Hj1 & Hj2).
      exists (S j). cbn. rewrite <- app_assoc in Hj1, Hj2.
      split_and!; [lia|done..].
    + exists 0. rewrite app_nil_r. split_and!; [lia| |lia].
      rewrite <- Hr. unfold track, collected_from in Hr. simplify_eq.
      eapply accumulate_frame; [eassumption| |eassumption]. lia.
  - intros [= <-]. exists 0. rewrite app_nil_r. split_and!; [lia|done|].
    pose proof (any_short_false _ _ Hs Hk) as Hsk.
    rewrite short_eq in Hsk. unfold track, collected_from in Ht.
    simplify_eq. repeat match goal with
      H : n_collected _ !! _ = Some _ |- _ => rewrite H in Hsk end.
    by apply bool_decide_eq_false in Hsk; lia.
Qed.

(** The loop ends as soon as the batches have supplied every
    combination with its cases. *)
Lemma accumulate_terminates draws st :
  NoDup ks →
  (∀ k, k ∈ ks → ∃ c, n_collected st !! k = Some c
                      ∧ (tot ≤ c + cases_in k draws)%Z) →
  ∃ st', accumulate draws st = Some st'.
Proof.
  intros Hnd. revert st.
  induction draws as [|d ds IH]; intros st Hsup; rewrite accumulate_eq;
    destruct (any_short _ _ _ _ st) eqn:Hs; eauto.
  - apply any_short_true in Hs as (k & Hk & Hs). exfalso.
    destruct (Hsup k Hk) as (c & Hc & Hle). rewrite short_eq, Hc in Hs.
    apply bool_decide_eq_true in Hs. cbn in Hle. lia.
  - apply IH. intros k Hk. destruct (Hsup k Hk) as (c & Hc & Hle).
    pose proof (track_round d st k Hnd Hk) as Hr.
    destruct (decide (c < tot)%Z) as [Hlt|Hge].
    + rewrite (track_extend_short _ _ _ c Hc Hlt) in Hr.
      unfold track in Hr. simplify_eq. eexists. split; [eassumption|].
      rewrite cases_in_cons in Hle. lia.
    + rewrite (extend_not_short _ _ _ c Hc) in Hr by lia.
      unfold track in Hr. simplify_eq. exists c. split; [congruence|].
      pose proof (cases_in_nonneg k ds). lia.
Qed.

(** *** Sizes of the batches *)

Lemma length_labels d k : length (labels d k) = length (rows d).
Proof. unfold labels. by rewrite length_fmap, length_seq. Qed.

Lemma i_case_in_range d k :
  Forall (λ i, i < length (rows d)) (i_case_of d k).
Proof.
  apply Forall_forall. intros i ?%np_where_lt.
  by rewrite length_labels in *.
Qed.

Lemma i_ctrl_in_range d k :
  Forall (λ i, i < length (rows d)) (i_ctrl_of d k).
Proof.
  apply Forall_forall. intros i Hi. unfold i_ctrl_of in Hi.
  apply elem_of_take in Hi as (n & Hn%list_elem_of_lookup_2 & _).
  apply np_where_lt in Hn.
  by rewrite length_fmap, length_labels in Hn.
Qed.

Lemma length_case_batch d k :
  length (case_batch k d) = length (i_case_of d k).
Proof. apply length_take_rows, i_case_in_range. Qed.

(** The controls of a batch are capped to its number of cases; a batch
    with fewer non-cases than cases yields them all, and no more. *)
Lemma length_ctrl_batch d k :
  length (ctrl_batch k d)
  = Nat.min (length (case_batch k d))
            (length (rows d) - length (case_batch k d)).
Proof.
  unfold ctrl_batch. rewrite length_take_rows by apply i_ctrl_in_range.
  rewrite length_case_batch. unfold i_ctrl_of. rewrite length_take.
  f_equal. pose proof (length_where_from_negb 0 (labels d k)) as Hsplit.
  rewrite length_labels in Hsplit. unfold i_case_of, np_where. lia.
Qed.

Lemma length_concat_case_batches k ds :
  Z.of_nat (length (concat (case_batch k <$> ds))) = cases_in k ds.
Proof.
  induction ds as [|d ds IH]; [done|].
  rewrite fmap_cons, cases_in_cons. cbn.
  rewrite length_app, length_case_batch. lia.
Qed.

Lemma length_concat_ctrl_batches k ds :
  Forall (λ d, 2 * length (case_batch k d) ≤ length (rows d)) ds →
  length (concat (ctrl_batch k <$> ds))
  = length (concat (case_batch k <$> ds)).
Proof.
  induction 1 as [|d ds Hd _ IH]; [done|].
  rewrite !fmap_cons. cbn. rewrite !length_app, IH, length_ctrl_batch. lia.
Qed.

Lemma partition_enough st k cases ctrls :
  (0 ≤ n_rep)%Z → (0 ≤ n_case)%Z →
  X_case_dict st !! k = Some cases → X_ctrl_dict st !! k = Some ctrls →
  (tot ≤ Z.of_nat (length (concat cases)))%Z →
  (tot ≤ Z.of_nat (length (concat ctrls)))%Z →
  ∃ case_parts ctrl_parts,
    partition_combo n_rep n_case st k
    = Some (case_parts, ctrl_parts, zip_with app case_parts ctrl_parts)
    ∧ case_parts = chunks (Z.to_nat n_rep) (Z.to_nat n_case)
                     (take (Z.to_nat tot) (concat cases))
    ∧ ctrl_parts = chunks (Z.to_nat n_rep) (Z.to_nat n_case)
                     (take (Z.to_nat tot) (concat ctrls)).
Proof.
  intros Hr Hc Hcases Hctrls Hn1 Hn2.
  assert (0 ≤ tot)%Z as Htot by (unfold tot_n_case; lia).
  unfold partition_combo. rewrite Hcases, Hctrls. cbn.
  rewrite !py_prefix_nonneg by done.
  rewrite !np_reshape_is_Some;
    [|done|done|rewrite length_take; unfold tot_n_case in *; lia
     |done|done|rewrite length_take; unfold tot_n_case in *; lia].
  cbn. eauto.
Qed.

(** *** Frame of a round *)

(** C10. In a round of the oversampling loop, a parameter combination
    whose collected case count has reached [n_rep * n_case] keeps its
    count, its list of case rows and its list of control rows. *)
Theorem sampling_round_frame d st k c :
  n_collected st !! k = Some c → (tot ≤ c)%Z →
  n_collected (sampling_round d st) !! k = Some c
  ∧ X_case_dict (sampling_round d st) !! k = X_case_dict st !! k
  ∧ X_ctrl_dict (sampling_round d st) !! k = X_ctrl_dict st !! k.
Proof.
  intros Hc Hle.
  pose proof (track_foldl_extend_frame d st ks k c Hc Hle) as Hframe.
  change (foldl (extend d) st ks) with (sampling_round d st) in Hframe.
  unfold track in Hframe. split_and!; congruence.
Qed.

(** A combination still short of its target is extended by the cases
    and the capped controls of the batch. *)
Lemma sampling_round_extends d st k c :
  NoDup ks → k ∈ ks →
  n_collected st !! k = Some c → (c < tot)%Z →
  track (sampling_round d st) k =
    (Some (c + Z.of_nat (length (i_case_of d k)))%Z,
     (λ l, l ++ [case_batch k d]) <$> X_case_dict st !! k,
     (λ l, l ++ [ctrl_batch k d]) <$> X_ctrl_dict st !! k).
Proof.
  intros Hnd Hk Hc Hlt. rewrite track_round by done.
  by apply track_extend_short.
Qed.

(** *** The loop as a whole *)

(** Without cases in the batches a combination short of its target stays
    short, and the loop goes on for as long as batches are delivered. *)
Lemma accumulate_starved draws st k c :
  NoDup ks → k ∈ ks →
  n_collected st !! k = Some c → (c < tot)%Z →
  Forall (λ d, i_case_of d k = []) draws →
  accumulate draws st = None.
Proof.
  intros Hnd Hk Hc Hlt Hall. revert st c Hc Hlt.
  induction Hall as [|d ds Hd _ IH]; intros st c Hc Hlt;
    rewrite accumulate_eq;
    (destruct (any_short _ _ _ _ st) eqn:Hs;
     [|apply (any_short_false _ k) in Hs; [|done];
       rewrite short_eq, Hc in Hs;
       apply bool_decide_eq_false in Hs; lia]);
    [done|].
  pose proof (sampling_round_extends d st k c Hnd Hk Hc Hlt) as Hr.
  rewrite Hd in Hr. unfold track in Hr. injection Hr as Hn _ _.
  eapply IH; [exact Hn | cbn; lia].
Qed.
End AccumulatorFacts.

(** A round leaves the complete combination of the sample state alone. *)
Lemma sampling_round_frame_witness :
  n_collected sample_state_complete !! sample_key = Some 2%Z
  ∧ (tot_n_case 1 2 ≤ 2)%Z
  ∧ X_case_dict (sampling_round 1 2 ["0.9"] ["1"] sample_batch_balanced
                   sample_state_complete) !! sample_key
    = Some [[[2; 1]; [1; 2]]]%Z.
Proof.
  assert (n_collected sample_state_complete !! sample_key = Some 2%Z) as H1
    by reflexivity.
  assert (tot_n_case 1 2 ≤ 2)%Z as H2 by (vm_compute; discriminate).
  split_and!; [exact H1 | exact H2 |].
  destruct (sampling_round_frame 1 2 ["0.9"] ["1"] sample_batch_balanced
              sample_state_complete sample_key 2 H1 H2) as (_ & -> & _).
  reflexivity.
Defined.

(** ** Disjointness of the samples and the LD reference pool *)

Lemma elem_of_np_unique (l : list nat) i : i ∈ np_unique l ↔ i ∈ l.
Proof.
  unfold np_unique. rewrite list_elem_of_filter, elem_of_seq. split.
  - by intros [? _].
  - intros Hi. split; [done|]. pose proof (max_list_elem_of_le i l Hi). lia.
Qed.

Lemma NoDup_np_unique (l : list nat) : NoDup (np_unique l).
Proof. unfold np_unique. apply NoDup_filter, NoDup_seq. Qed.

Section ListFacts.
Context {A : Type}.
Implicit Types (l : list A) (L : list (list A)).

Lemma elem_of_concat L x : x ∈ concat L ↔ ∃ l, x ∈ l ∧ l ∈ L.
Proof.
  induction L as [|l0 L IH]; cbn.
  - split; [by intros ?%elem_of_nil | by intros (? & _ & ?%elem_of_nil)].
  - rewrite elem_of_app, IH. split.
    + intros [?|(l & ? & ?)]; [exists l0 | exists l];
        (split; [done|]); [left | by right].
    + intros (l & Hx & [->|Hl]%elem_of_cons); [by left|].
      right. by exists l.
Qed.

Lemma app_app_swap (a b c d : list A) :
  (a ++ b) ++ (c ++ d) ≡ₚ (a ++ c) ++ (b ++ d).
Proof.
  rewrite <- !app_assoc. f_equiv. rewrite !app_assoc. f_equiv.
  apply Permutation_app_comm.
Qed.

(** The members of a repetition-free concatenation are pairwise
    disjoint. *)
Lemma NoDup_concat_lookup L i j p q :
  NoDup (concat L) → i ≠ j → L !! i = Some p → L !! j = Some q →
  ∀ x, x ∈ p → x ∉ q.
Proof.
  revert i j. induction L as [|l0 L IH]; intros i j Hnd Hij Hp Hq x Hx Hx';
    [done|].
  cbn in Hnd. apply NoDup_app in Hnd as (_ & Hdisj & Hnd).
  destruct i as [|i], j as [|j]; cbn in Hp, Hq; simplify_eq.
  - apply (Hdisj x Hx). apply elem_of_concat. exists q.
    split; [done|]. by eapply list_elem_of_lookup_2.
  - apply (Hdisj x Hx'). apply elem_of_concat. exists p.
    split; [done|]. by eapply list_elem_of_lookup_2.
  - eapply (IH i j); eauto.
Qed.

Lemma py_slice_exact (start n : Z) l :
  (0 ≤ start)%Z → (0 ≤ n)%Z →
  length (py_slice start (start + n) l) = Z.to_nat n →
  py_slice start (start + n) l
  = take (Z.to_nat n) (drop (Z.to_nat start) l).
Proof.
  intros Hs Hn. unfold py_slice, py_bound.
  destruct (Z.ltb_spec start 0); [lia|].
  destruct (Z.ltb_spec (start + n) 0); [lia|].
  rewrite length_take, length_drop. intros Hlen.
  destruct (decide (n = 0%Z)) as [->|Hpos].
  - rewrite Z.add_0_r, Nat.sub_diag. done.
  - assert (Z.to_nat (start + n) ≤ length l) by lia.
    rewrite !Nat.min_l by lia. f_equal. lia.
Qed.
End ListFacts.

Section LdFacts.
Context {A : Type}.
Variable n_rep : Z.

Lemma ld_panels_spec sizes start (pool : list A) panels :
  (0 ≤ start)%Z →
  ld_panels n_rep sizes start pool = Some panels →
  Forall2 (λ n_ld panel,
             length panel = Z.to_nat n_rep
             ∧ Forall (λ p : list A, length p = Z.to_nat n_ld) panel)
          sizes panels
  ∧ (0 ≤ n_rep * foldr Z.add 0%Z sizes)%Z
  ∧ concat (concat panels)
    = take (Z.to_nat (n_rep * foldr Z.add 0%Z sizes))
           (drop (Z.to_nat start) pool).
Proof.
  revert start panels.
  induction sizes as [|n_ld sizes IH]; intros start panels Hstart; cbn.
  { intros [= <-]. split_and!; [constructor|lia|].
    by rewrite Z.mul_0_r. }
  destruct (np_reshape n_rep n_ld _) as [panel|] eqn:Hpanel; [|done]. cbn.
  destruct (ld_panels n_rep sizes _ pool) as [rest|] eqn:Hrest; [|done].
  cbn. intros [= <-].
  apply np_reshape_Some in Hpanel as (Hr & Hc & Hlen & ->).
  apply IH in Hrest as (Hall & Hsum & Hcat); [|nia].
  assert (length (py_slice start (start + n_rep * n_ld) pool)
          = Z.to_nat (n_rep * n_ld)) as Hlen'
    by (rewrite Hlen; rewrite Z2Nat.inj_mul by lia; done).
  split_and!.
  - constructor; [|done]. split; [apply length_chunks|].
    by apply Forall_length_chunks.
  - nia.
  - cbn. rewrite concat_app, concat_chunks by done. rewrite Hcat.
    rewrite py_slice_exact by (done || nia).
    replace (Z.to_nat (start + n_rep * n_ld))
      with (Z.to_nat start + Z.to_nat (n_rep * n_ld)) by nia.
    rewrite <- drop_drop, take_take_drop. f_equal. nia.
Qed.
End LdFacts.

Section PartitionFacts.
Context {A : Type}.
Variables (n_rep n_case : Z).
Variables (prevalence_lst pqtl_lst : list string).
Variable n_ld_int : list Z.

Local Abbreviation tot := (tot_n_case n_rep n_case).
Local Abbreviation ks := (combos prevalence_lst pqtl_lst).

Implicit Types (d : draw A) (ds draws : list (draw A)) (k : combo).

Lemma NoDup_i_case_ctrl d k : NoDup (i_case_of d k ++ i_ctrl_of d k).
Proof.
  apply NoDup_app. split_and!.
  - apply NoDup_np_where.
  - intros i Hcase Hctrl. unfold i_case_of, i_ctrl_of in *.
    apply elem_of_np_where in Hcase.
    apply elem_of_take in Hctrl as (n & Hn%list_elem_of_lookup_2 & _).
    apply elem_of_np_where in Hn. rewrite list_lookup_fmap, Hcase in Hn.
    discriminate.
  - eapply sublist_NoDup; [|apply sublist_take].
    apply NoDup_np_where.
Qed.

Lemma NoDup_batch d k :
  NoDup (rows d) → NoDup (case_batch k d ++ ctrl_batch k d).
Proof.
  intros Hnd. unfold case_batch, ctrl_batch. rewrite <- take_rows_app.
  apply NoDup_take_rows; [done | apply NoDup_i_case_ctrl].
Qed.

Lemma elem_of_batch_rows d k x :
  x ∈ case_batch k d ++ ctrl_batch k d → x ∈ rows d.
Proof.
  unfold case_batch, ctrl_batch. rewrite <- take_rows_app.
  intros (i & _ & Hi)%elem_of_take_rows. by eapply list_elem_of_lookup_2.
Qed.

Lemma elem_of_batches_rows ds k x :
  x ∈ concat (case_batch k <$> ds) ++ concat (ctrl_batch k <$> ds) →
  x ∈ concat (rows <$> ds).
Proof.
  induction ds as [|d ds IH]; [done|]. rewrite !fmap_cons. cbn.
  intros Hx. rewrite app_app_swap in Hx.
  apply elem_of_app in Hx as [Hx|Hx]; apply elem_of_app;
    [left; by eapply elem_of_batch_rows | right; by apply IH].
Qed.

(** Distinct individuals are collected at most once for a combination. *)
Lemma NoDup_batches ds k :
  NoDup (concat (rows <$> ds)) →
  NoDup (concat (case_batch k <$> ds) ++ concat (ctrl_batch k <$> ds)).
Proof.
  induction ds as [|d ds IH]; [intros _; constructor|].
  rewrite !fmap_cons. cbn. rewrite app_app_swap.
  intros (Hd & Hdisj & Hds)%NoDup_app. apply NoDup_app. split_and!.
  - by apply NoDup_batch.
  - intros x Hx%elem_of_batch_rows Hx'%elem_of_batches_rows.
    by apply (Hdisj x).
  - by apply IH.
Qed.

Lemma sublist_concat_take {B} (f : B → list A) (l : list B) j :
  concat (f <$> take j l) `sublist_of` concat (f <$> l).
Proof.
  rewrite <- (take_drop j l) at 2. rewrite fmap_app, concat_app.
  by apply sublist_inserts_r.
Qed.

(** The rows of the LD pool sit in the initial pool at positions that no
    index array of the realisation loop holds. *)
Lemma elem_of_ld_pool (pop0 : draw A) used x :
  x ∈ ld_pool n_rep n_ld_int pop0 used →
  ∃ i, rows pop0 !! i = Some x ∧ ∀ idx, idx ∈ used → i ∉ idx.
Proof.
  unfold ld_pool, X_idx_used. intros Hx.
  eapply elem_of_sublist in Hx; [|apply py_prefix_sublist].
  apply elem_of_np_delete in Hx as (i & Hi & Hnot). exists i.
  split; [done|]. intros idx Hidx Hin. apply Hnot.
  apply elem_of_np_unique, elem_of_concat. by exists idx.
Qed.

Lemma partition_combo_Some (st : state A) k cases ctrls
    case_parts ctrl_parts gwa :
  X_case_dict st !! k = Some cases → X_ctrl_dict st !! k = Some ctrls →
  partition_combo n_rep n_case st k = Some (case_parts, ctrl_parts, gwa) →
  (0 ≤ n_rep)%Z ∧ (0 ≤ n_case)%Z
  ∧ concat case_parts = take (Z.to_nat tot) (concat cases)
  ∧ concat ctrl_parts = take (Z.to_nat tot) (concat ctrls)
  ∧ length case_parts = Z.to_nat n_rep
  ∧ length ctrl_parts = Z.to_nat n_rep
  ∧ Forall (λ p, length p = Z.to_nat n_case) case_parts
  ∧ Forall (λ p, length p = Z.to_nat n_case) ctrl_parts
  ∧ gwa = zip_with app case_parts ctrl_parts.
Proof.
  intros Hcases Hctrls. unfold partition_combo.
  rewrite Hcases, Hctrls. cbn.
  destruct (np_reshape n_rep n_case (py_prefix tot (concat cases)))
    as [cp|] eqn:Hcp; [|done]. cbn.
  destruct (np_reshape n_rep n_case (py_prefix tot (concat ctrls)))
    as [tp|] eqn:Htp; [|done]. cbn.
  intros [= <- <- <-].
  apply np_reshape_Some in Hcp as (Hr & Hc & Hlen1 & ->).
  apply np_reshape_Some in Htp as (_ & _ & Hlen2 & ->).
  assert (0 ≤ tot)%Z by (unfold tot_n_case; lia).
  rewrite !py_prefix_nonneg in * by done.
  rewrite !concat_chunks, !length_chunks by done.
  split_and!; try done; by apply Forall_length_chunks.
Qed.

(** C5. For a parameter combination, the per-replicate case and control
    samples are consecutive blocks of the collected rows, pairwise
    without a common individual; no individual of the LD pool is among
    them; the LD pool consists of initial-pool rows at positions that
    were selected neither as a case nor as a control for any
    combination; and the LD panels are consecutive blocks of the LD
    pool, [n_rep] panels of each requested size, in the order of the
    sizes. Individuals are told apart by their rows. *)
Theorem partitions_disjoint (pop0 : draw A) draws st k
    case_parts ctrl_parts gwa panels :
  NoDup prevalence_lst → NoDup pqtl_lst → k ∈ ks →
  NoDup (rows pop0 ++ concat (rows <$> draws)) →
  accumulate n_rep n_case prevalence_lst pqtl_lst draws
    (realize prevalence_lst pqtl_lst pop0).1 = Some st →
  partition_combo n_rep n_case st k = Some (case_parts, ctrl_parts, gwa) →
  X_ld_lst n_rep n_ld_int pop0 (realize prevalence_lst pqtl_lst pop0).2
  = Some panels →
  let ld := ld_pool n_rep n_ld_int pop0
              (realize prevalence_lst pqtl_lst pop0).2 in
  (∃ cases ctrls,
      X_case_dict st !! k = Some cases ∧ X_ctrl_dict st !! k = Some ctrls
      ∧ concat case_parts = take (Z.to_nat tot) (concat cases)
      ∧ concat ctrl_parts = take (Z.to_nat tot) (concat ctrls))
  ∧ (∀ i j p q, i ≠ j →
       (case_parts ++ ctrl_parts) !! i = Some p →
       (case_parts ++ ctrl_parts) !! j = Some q →
       ∀ x, x ∈ p → x ∉ q)
  ∧ (∀ x, x ∈ ld → (x ∉ concat case_parts) ∧ (x ∉ concat ctrl_parts))
  ∧ (∀ x, x ∈ ld →
       ∃ i, rows pop0 !! i = Some x
            ∧ ∀ k', k' ∈ ks →
                (i ∉ i_case_of pop0 k') ∧ (i ∉ i_ctrl_of pop0 k'))
  ∧ Forall2 (λ n_ld panel,
               length panel = Z.to_nat n_rep
               ∧ Forall (λ p, length p = Z.to_nat n_ld) panel)
            n_ld_int panels
  ∧ concat (concat panels) = ld.
Proof.
  intros Hp Hq Hk Hnd Hacc Hpart Hld ld.
  pose proof (NoDup_combos _ _ Hp Hq) as Hks.
  destruct (accumulate_collected n_rep n_case _ _ draws _ st k [pop0]
              Hks Hk (track_realize _ _ pop0 k Hk) Hacc)
    as (j & _ & Ht & _).
  change ([pop0] ++ take j draws) with (pop0 :: take j draws) in Ht.
  assert (X_case_dict st !! k
          = Some (case_batch k <$> pop0 :: take j draws)) as Hcases
    by (unfold track, collected_from in Ht; congruence).
  assert (X_ctrl_dict st !! k
          = Some (ctrl_batch k <$> pop0 :: take j draws)) as Hctrls
    by (unfold track, collected_from in Ht; congruence).
  destruct (partition_combo_Some st k _ _ _ _ _ Hcases Hctrls Hpart)
    as (_ & _ & Hcp & Htp & _).
  apply NoDup_app in Hnd as (Hnd0 & Hdisj & Hnds).
  (* the individuals the combination has collected *)
  assert (NoDup (concat (rows <$> pop0 :: take j draws))) as Hnd'.
  { rewrite fmap_cons. cbn. apply NoDup_app. split_and!; [done| |].
    - intros x Hx Hx'. apply (Hdisj x Hx).
      eapply elem_of_sublist; [exact Hx'|apply sublist_concat_take].
    - eapply sublist_NoDup; [exact Hnds|apply sublist_concat_take]. }
  apply (NoDup_batches _ k) in Hnd'.
  assert (∀ x, x ∈ ld →
            ∃ i, rows pop0 !! i = Some x
                 ∧ ∀ k', k' ∈ ks →
                     (i ∉ i_case_of pop0 k') ∧ (i ∉ i_ctrl_of pop0 k'))
    as Hldpos.
  { intros x (i & Hi & Hnot)%elem_of_ld_pool. exists i. split; [done|].
    intros k' Hk'. rewrite used_realize in Hnot.
    split; apply Hnot; apply list_elem_of_bind; exists k';
      (split; [|done]); [constructor | do 2 constructor]. }
  assert (∀ x, x ∈ ld →
            (x ∉ concat (case_batch k <$> pop0 :: take j draws))
            ∧ (x ∉ concat (ctrl_batch k <$> pop0 :: take j draws)))
    as Hldout.
  { intros x Hx. destruct (Hldpos x Hx) as (i & Hi & Hnot).
    destruct (Hnot k Hk) as [Hn1 Hn2].
    assert (x ∈ rows pop0) as Hx0 by (by eapply list_elem_of_lookup_2).
    rewrite !fmap_cons. cbn. rewrite !elem_of_app.
    split; intros [Hin|Hin].
    - apply elem_of_take_rows in Hin as (i' & Hi' & Hrow).
      pose proof (NoDup_lookup _ _ _ _ Hnd0 Hi Hrow). by subst.
    - apply (Hdisj x Hx0).
      eapply elem_of_sublist; [|apply (sublist_concat_take rows draws j)].
      apply (elem_of_batches_rows _ k). apply elem_of_app. by left.
    - apply elem_of_take_rows in Hin as (i' & Hi' & Hrow).
      pose proof (NoDup_lookup _ _ _ _ Hnd0 Hi Hrow). by subst.
    - apply (Hdisj x Hx0).
      eapply elem_of_sublist; [|apply (sublist_concat_take rows draws j)].
      apply (elem_of_batches_rows _ k). apply elem_of_app. by right. }
  split_and!.
  - eauto 10.
  - intros i1 i2 p q Hne Hi1 Hi2.
    eapply NoDup_concat_lookup; [|exact Hne|exact Hi1|exact Hi2].
    rewrite concat_app, Hcp, Htp.
    eapply sublist_NoDup; [exact Hnd'|].
    apply sublist_app; apply sublist_take.
  - intros x Hx. destruct (Hldout x Hx) as [Hn1 Hn2].
    rewrite Hcp, Htp.
    split; intros Hin; [apply Hn1 | apply Hn2];
      (eapply elem_of_sublist; [exact Hin | apply sublist_take]).
  - done.
  - unfold X_ld_lst in Hld.
    by apply ld_panels_spec in Hld as (? & _ & _).
  - unfold X_ld_lst in Hld.
    apply ld_panels_spec in Hld as (_ & Hnn & ->); [|done].
    cbn. rewrite drop_0. subst ld. unfold ld_pool.
    rewrite py_prefix_nonneg.
    + unfold n_ld_total. rewrite Z.mul_comm. apply take_idemp.
    + unfold n_ld_total. lia.
Qed.
End PartitionFacts.

Lemma partitions_disjoint_witness :
  NoDup (rows sample_pop0_tagged)
  ∧ partition_combo 1 2 (realize ["0.9"] ["1"] sample_pop0_tagged).1 sample_key
    = Some ([[(1, [2; 1]); (2, [1; 2])]], [[(3, [0; 1]); (4, [0; 0])]],
            [[(1, [2; 1]); (2, [1; 2]); (3, [0; 1]); (4, [0; 0])]])%Z
  ∧ X_ld_lst 1 [1; 1]%Z sample_pop0_tagged
      (realize ["0.9"] ["1"] sample_pop0_tagged).2
    = Some [[[(5, [0; 1])]]; [[(6, [2; 1])]]]%Z
  ∧ concat (concat [[[(5, [0; 1])]]; [[(6, [2; 1])]]])%Z
    = ld_pool 1 [1; 1]%Z sample_pop0_tagged
        (realize ["0.9"] ["1"] sample_pop0_tagged).2.
Proof.
  assert (NoDup (rows sample_pop0_tagged)) as H0
    by (apply (bool_decide_unpack _); vm_compute; exact I).
  assert (NoDup (rows sample_pop0_tagged ++ concat (rows <$> []))) as H1
    by (apply (bool_decide_unpack _); vm_compute; exact I).
  assert (sample_key ∈ combos ["0.9"] ["1"]) as H2
    by (apply list_elem_of_singleton; reflexivity).
  assert (accumulate 1 2 ["0.9"] ["1"] []
            (realize ["0.9"] ["1"] sample_pop0_tagged).1
          = Some (realize ["0.9"] ["1"] sample_pop0_tagged).1) as H3
    by (vm_compute; reflexivity).
  assert (partition_combo 1 2 (realize ["0.9"] ["1"] sample_pop0_tagged).1
            sample_key
          = Some ([[(1, [2; 1]); (2, [1; 2])]], [[(3, [0; 1]); (4, [0; 0])]],
                  [[(1, [2; 1]); (2, [1; 2]); (3, [0; 1]); (4, [0; 0])]])%Z)
    as H4 by (vm_compute; reflexivity).
  assert (X_ld_lst 1 [1; 1]%Z sample_pop0_tagged
            (realize ["0.9"] ["1"] sample_pop0_tagged).2
          = Some [[[(5, [0; 1])]]; [[(6, [2; 1])]]]%Z) as H5
    by (vm_compute; reflexivity).
  split_and!; [exact H0 | exact H4 | exact H5 |].
  exact (proj2 (proj2 (proj2 (proj2 (proj2
    (partitions_disjoint 1 2 ["0.9"] ["1"] [1; 1]%Z sample_pop0_tagged []
       _ sample_key _ _ _ _
       (NoDup_singleton "0.9") (NoDup_singleton "1") H2 H1 H3 H4 H5)))))).
Defined.

(** ** The loop and the partition together *)

Section CollectFacts.
Context {A : Type}.
Variables (n_rep n_case : Z).
Variables (prevalence_lst pqtl_lst : list string).

Local Abbreviation tot := (tot_n_case n_rep n_case).
Local Abbreviation ks := (combos prevalence_lst pqtl_lst).

Implicit Types (d : draw A) (ds draws : list (draw A)) (k : combo).

Lemma cases_in_take k draws j :
  (cases_in k (take j draws) ≤ cases_in k draws)%Z.
Proof.
  rewrite <- (take_drop j draws) at 2. rewrite cases_in_app.
  pose proof (cases_in_nonneg k (drop j draws)). lia.
Qed.

Lemma concat_zip_with_app (L1 L2 : list (list A)) :
  length L1 = length L2 →
  concat (zip_with app L1 L2) ≡ₚ concat L1 ++ concat L2.
Proof.
  revert L2. induction L1 as [|l1 L1 IH]; intros [|l2 L2] Hlen; try done.
  cbn. rewrite IH by (by injection Hlen). apply app_app_swap.
Qed.

(** C2, as the code has it. The loop ends exactly on batches that hold,
    with the initial pool, at least [n_rep * n_case] cases for every
    combination. When it ends, each combination is left with the batches
    of an initial segment of the rounds: at least [n_rep * n_case] cases,
    and per batch as many controls as the smaller of its cases and its
    non-cases. Where every batch used holds at least as many non-cases as
    cases, controls equal cases batch by batch, and the partition yields
    [n_rep] samples of exactly [n_case] cases and [n_case] controls: the
    cases are the first [n_rep * n_case] collected cases cut into
    consecutive blocks, the controls likewise, and with distinct sampled
    individuals no individual occurs twice in the samples, so that two
    samples share none. *)
Theorem accumulate_collects (pop0 : draw A) draws :
  NoDup prevalence_lst → NoDup pqtl_lst →
  (0 ≤ n_rep)%Z → (0 ≤ n_case)%Z →
  (is_Some (accumulate n_rep n_case prevalence_lst pqtl_lst draws
              (realize prevalence_lst pqtl_lst pop0).1)
   ↔ ∀ k, k ∈ ks → (tot ≤ cases_in k (pop0 :: draws))%Z)
  ∧ ∀ st,
      accumulate n_rep n_case prevalence_lst pqtl_lst draws
        (realize prevalence_lst pqtl_lst pop0).1 = Some st →
      ∀ k, k ∈ ks → ∃ j, j ≤ length draws ∧
        let ds := pop0 :: take j draws in
        track st k = collected_from k ds
        ∧ cases_in k ds = Z.of_nat (length (concat (case_batch k <$> ds)))
        ∧ (tot ≤ cases_in k ds)%Z
        ∧ Forall (λ d, length (ctrl_batch k d)
                       = Nat.min (length (case_batch k d))
                           (length (rows d) - length (case_batch k d))) ds
        ∧ (Forall (λ d, 2 * length (case_batch k d) ≤ length (rows d)) ds →
           Forall (λ d, length (ctrl_batch k d) = length (case_batch k d)) ds
           ∧ ∃ case_parts ctrl_parts gwa,
               partition_combo n_rep n_case st k
               = Some (case_parts, ctrl_parts, gwa)
               ∧ length case_parts = Z.to_nat n_rep
               ∧ length ctrl_parts = Z.to_nat n_rep
               ∧ Forall (λ p, length p = Z.to_nat n_case) case_parts
               ∧ Forall (λ p, length p = Z.to_nat n_case) ctrl_parts
               ∧ concat case_parts
                 = take (Z.to_nat tot) (concat (case_batch k <$> ds))
               ∧ concat ctrl_parts
                 = take (Z.to_nat tot) (concat (ctrl_batch k <$> ds))
               ∧ gwa = zip_with app case_parts ctrl_parts
               ∧ length gwa = Z.to_nat n_rep
               ∧ (NoDup (rows pop0 ++ concat (rows <$> draws)) →
                  NoDup (concat gwa)
                  ∧ ∀ i1 i2 p q, i1 ≠ i2 →
                      gwa !! i1 = Some p → gwa !! i2 = Some q →
                      ∀ x, x ∈ p → x ∉ q)).
Proof.
  intros Hp Hq Hrep Hcase.
  pose proof (NoDup_combos _ _ Hp Hq) as Hnd.
  assert (∀ st,
            accumulate n_rep n_case prevalence_lst pqtl_lst draws
              (realize prevalence_lst pqtl_lst pop0).1 = Some st →
            ∀ k, k ∈ ks → ∃ j, j ≤ length draws
              ∧ track st k = collected_from k (pop0 :: take j draws)
              ∧ (tot ≤ cases_in k (pop0 :: take j draws))%Z) as Hcoll.
  { intros st Hst k Hk.
    destruct (accumulate_collected n_rep n_case _ _ draws _ st k [pop0]
                Hnd Hk (track_realize _ _ pop0 k Hk) Hst)
      as (j & Hj & Ht & Hn).
    exists j. done. }
  split.
  { split.
    - intros [st Hst] k Hk. destruct (Hcoll st Hst k Hk) as (j & _ & _ & Hn).
      rewrite cases_in_cons in *.
      pose proof (cases_in_take k draws j). lia.
    - intros Hsup.
      destruct (accumulate_terminates n_rep n_case _ _ draws
                  (realize prevalence_lst pqtl_lst pop0).1 Hnd)
        as [st Hst]; [|by exists st].
      intros k Hk. pose proof (track_realize _ _ pop0 k Hk) as Ht.
      unfold track, collected_from in Ht. simplify_eq.
      eexists. split; [eassumption|].
      specialize (Hsup k Hk). rewrite cases_in_cons in Hsup.
      unfold cases_in at 1. cbn. lia. }
  intros st Hst k Hk. destruct (Hcoll st Hst k Hk) as (j & Hj & Ht & Hn).
  exists j. split; [done|]. cbn zeta.
  set (ds := pop0 :: take j draws) in *.
  split_and!; [done| |done| |].
  - by rewrite length_concat_case_batches.
  - apply Forall_forall. intros d _. apply length_ctrl_batch.
  - intros Hbal. split.
    { eapply Forall_impl; [exact Hbal|]. intros d Hd. cbn in Hd.
      rewrite length_ctrl_batch. lia. }
    assert (X_case_dict st !! k = Some (case_batch k <$> ds)) as Hcases
      by (unfold track, collected_from in Ht; congruence).
    assert (X_ctrl_dict st !! k = Some (ctrl_batch k <$> ds)) as Hctrls
      by (unfold track, collected_from in Ht; congruence).
    destruct (partition_enough n_rep n_case st k _ _ Hrep Hcase
                Hcases Hctrls) as (cp & tp & Hpart & _ & _).
    { by rewrite length_concat_case_batches. }
    { by rewrite length_concat_ctrl_batches, length_concat_case_batches. }
    destruct (partition_combo_Some _ _ st k _ _ _ _ _ Hcases Hctrls Hpart)
      as (_ & _ & Hcp & Htp & Hl1 & Hl2 & Hf1 & Hf2 & _).
    exists cp, tp, (zip_with app cp tp).
    split_and!; try done.
    { rewrite length_zip_with. lia. }
    intros Hrows. apply NoDup_app in Hrows as (Hnd0 & Hdisj & Hnds).
    assert (NoDup (concat (rows <$> ds))) as Hnd'.
    { subst ds. rewrite fmap_cons. cbn. apply NoDup_app.
      split_and!; [done| |].
      - intros x Hx Hx'. apply (Hdisj x Hx).
        eapply elem_of_sublist; [exact Hx'|apply sublist_concat_take].
      - eapply sublist_NoDup; [exact Hnds|apply sublist_concat_take]. }
    apply (NoDup_batches _ k) in Hnd'.
    assert (NoDup (concat (zip_with app cp tp))) as Hgwa.
    { rewrite concat_zip_with_app by lia. rewrite Hcp, Htp.
      eapply sublist_NoDup; [exact Hnd'|].
      apply sublist_app; apply sublist_take. }
    split; [done|]. intros i1 i2 p q Hne Hi1 Hi2.
    eapply NoDup_concat_lookup; [exact Hgwa|exact Hne|exact Hi1|exact Hi2].
Qed.
End CollectFacts.

(** An initial pool of six individuals with two cases and a round of ten
    with four: two replicates of three cases and three controls. *)
Lemma accumulate_collects_witness :
  NoDup ["0.9"] ∧ NoDup ["1"]
  ∧ Forall (λ d, 2 * length (case_batch sample_key d) ≤ length (rows d))
           [sample_pop0_tagged; sample_round 4]
  ∧ NoDup (rows sample_pop0_tagged ++ concat (rows <$> [sample_round 4]))
  ∧ ∃ st, accumulate 2 3 ["0.9"] ["1"] [sample_round 4]
            (realize ["0.9"] ["1"] sample_pop0_tagged).1 = Some st
     ∧ partition_combo 2 3 st sample_key
       = Some ([[(1, [2; 1]); (2, [1; 2]); (11, [2; 1])];
                [(12, [1; 2]); (13, [2; 2]); (14, [1; 1])]],
               [[(3, [0; 1]); (4, [0; 0]); (15, [2; 0])];
                [(16, [0; 2]); (17, [0; 1]); (18, [1; 0])]],
               [[(1, [2; 1]); (2, [1; 2]); (11, [2; 1]);
                 (3, [0; 1]); (4, [0; 0]); (15, [2; 0])];
                [(12, [1; 2]); (13, [2; 2]); (14, [1; 1]);
                 (16, [0; 2]); (17, [0; 1]); (18, [1; 0])]])%Z.
Proof.
  assert (NoDup ["0.9"]) as H1 by (apply NoDup_singleton).
  assert (NoDup ["1"]) as H2 by (apply NoDup_singleton).
  split_and!; [exact H1 | exact H2 | | |].
  { repeat constructor. }
  { apply (bool_decide_unpack _). vm_compute. exact I. }
  destruct (accumulate_collects 2 3 ["0.9"] ["1"] sample_pop0_tagged
              [sample_round 4] H1 H2 ltac:(lia) ltac:(lia))
    as [Hiff _].
  destruct (proj2 Hiff) as [st Hst].
  { intros k Hk. apply list_elem_of_singleton in Hk. subst k.
    vm_compute. discriminate. }
  exists st. split; [exact Hst|].
  vm_compute in Hst. injection Hst as <-. vm_compute. reflexivity.
Defined.

(** A round of ten individuals with six cases has four non-cases only:
    six cases and four controls are appended, the loop ends on eight
    cases and six controls, and cutting two replicates of four controls
    fails. And on rounds without a case the loop does not end. *)
Lemma accumulate_unbalanced_counterexample :
  length (rows (sample_round 6)) = 10
  ∧ length (case_batch sample_key (sample_round 6)) = 6
  ∧ length (ctrl_batch sample_key (sample_round 6)) = 4
  ∧ (∃ st, accumulate 2 4 ["0.9"] ["1"] [sample_round 6]
             (realize ["0.9"] ["1"] sample_pop0_tagged).1 = Some st
       ∧ n_collected st !! sample_key = Some 8%Z
       ∧ (λ l, length (concat l)) <$> X_case_dict st !! sample_key = Some 8
       ∧ (λ l, length (concat l)) <$> X_ctrl_dict st !! sample_key = Some 6
       ∧ partition_combo 2 4 st sample_key = None)
  ∧ ∀ n, accumulate 2 4 ["0.9"] ["1"] (replicate n (sample_round 0))
           (realize ["0.9"] ["1"] sample_pop0_tagged).1 = None.
Proof.
  split_and!; try (vm_compute; reflexivity).
  - eexists. split_and!; vm_compute; reflexivity.
  - intros n. apply (accumulate_starved 2 4 ["0.9"] ["1"] _ _ sample_key 2).
    + apply NoDup_singleton.
    + by apply list_elem_of_singleton.
    + reflexivity.
    + reflexivity.
    + by apply Forall_replicate.
Qed.

(** ** Dosage sampler *)

Section SamplerFacts.
Variable F : Type.
Variable flt : F → F → bool.

Lemma haplotype_call_01 pp x :
  Forall (λ z, z = 0 ∨ z = 1)%Z (haplotype_call F flt pp x).
Proof.
  unfold haplotype_call. revert pp.
  induction x as [|v x IH]; intros [|q pp]; cbn; try constructor.
  - unfold np_int8. destruct (flt v q); auto.
  - apply IH.
Qed.

Lemma haplotype_call_lookup pp x j v q :
  x !! j = Some v → pp !! j = Some q →
  haplotype_call F flt pp x !! j = Some (if flt v q then 1 else 0)%Z.
Proof.
  intros Hv Hq. unfold haplotype_call.
  by rewrite lookup_zip_with, Hv, Hq.
Qed.

(** The [int8] sum of two calls never wraps. *)
Lemma add_calls_row (a b : list Z) :
  Forall (λ z, z = 0 ∨ z = 1)%Z a → Forall (λ z, z = 0 ∨ z = 1)%Z b →
  zip_with (λ u v, int8_wrap (u + v)) a b = zip_with Z.add a b
  ∧ Forall (λ z, z = 0 ∨ z = 1 ∨ z = 2)%Z (zip_with Z.add a b).
Proof.
  intros Ha. revert b. induction Ha as [|u a Hu _ IH]; intros b Hb; cbn.
  { split; [done | constructor]. }
  destruct Hb as [|v b Hv Hb]; cbn; [split; [done | constructor]|].
  destruct (IH b Hb) as [-> Hall]. split.
  - f_equal. destruct Hu as [-> | ->], Hv as [-> | ->]; reflexivity.
  - constructor; [lia | done].
Qed.

Lemma add_calls (M N : list (list Z)) :
  Forall (Forall (λ z, z = 0 ∨ z = 1)%Z) M →
  Forall (Forall (λ z, z = 0 ∨ z = 1)%Z) N →
  zip_with (zip_with (λ u v, int8_wrap (u + v))) M N
  = zip_with (zip_with Z.add) M N
  ∧ Forall (Forall (λ z, z = 0 ∨ z = 1 ∨ z = 2)%Z)
      (zip_with (zip_with Z.add) M N).
Proof.
  intros HM. revert N. induction HM as [|a M Ha _ IH]; intros N HN; cbn.
  { split; [done | constructor]. }
  destruct HN as [|b N Hb HN]; cbn; [split; [done | constructor]|].
  destruct (IH N HN) as [-> Hall].
  destruct (add_calls_row a b Ha Hb) as [-> Hrow].
  split; [done | by constructor].
Qed.

Lemma calls_01 pp (M : list (list F)) :
  Forall (Forall (λ z, z = 0 ∨ z = 1)%Z) (haplotype_call F flt pp <$> M).
Proof.
  apply Forall_fmap, Forall_forall. intros x _. apply haplotype_call_01.
Qed.

(** C7. Every entry of every batch of the sampler is 0, 1 or 2: a batch
    is made of calls of [sample_once], each the entrywise sum of the two
    haplotype calls of the draw, and a haplotype call is 1 where the
    draw is below the quantile of the SNP and 0 elsewhere. *)
Theorem sample_batch_dosage pp draws :
  Forall (Forall (λ z, z = 0 ∨ z = 1 ∨ z = 2)%Z)
    (sample_batch F flt pp draws)
  ∧ (∀ X_, sample_once F flt pp X_
           = zip_with (zip_with Z.add)
               (haplotype_call F flt pp <$> X_.1)
               (haplotype_call F flt pp <$> X_.2))
  ∧ (∀ x j v q, x !! j = Some v → pp !! j = Some q →
       haplotype_call F flt pp x !! j = Some (if flt v q then 1 else 0)%Z).
Proof.
  split_and!.
  - unfold sample_batch. induction draws as [|X_ draws IH]; cbn;
      [constructor|].
    apply Forall_app. split; [|done]. unfold sample_once.
    destruct (add_calls _ _ (calls_01 pp X_.1) (calls_01 pp X_.2))
      as [-> Hall].
    done.
  - intros X_. unfold sample_once.
    by destruct (add_calls _ _ (calls_01 pp X_.1) (calls_01 pp X_.2))
      as [-> _].
  - apply haplotype_call_lookup.
Qed.
End SamplerFacts.

(** Two individuals over three SNPs, with rational draws. *)
Example sample_once_example :
  sample_once Q Qltb [0; 1 # 2; -1]%Q
    ([[-1; 0; 0]; [1; 1; 1]]%Q, [[-2; 1; -3]; [0; 0; 0]]%Q)
  = [[2; 1; 1]; [0; 1; 0]]%Z.
Proof. reflexivity. Qed.

(** ** Haplotype loader *)

Lemma lookup_take_rows {A} (X : list A) idx i :
  Forall (λ n, n < length X) idx →
  take_rows X idx !! i = idx !! i ≫= λ n, X !! n.
Proof.
  intros Hall. revert i. unfold take_rows.
  induction Hall as [|n idx Hn _ IH]; intros i; [done|].
  destruct (lookup_lt_is_Some_2 X n Hn) as [x Hx]. cbn. rewrite Hx. cbn.
  destruct i as [|i]; cbn; [done | apply IH].
Qed.

Section LoaderFacts.
Variable F : Type.
Variable flt : F → F → bool.
Variable fsub : F → F → F.
Variable fone : F.
Variable fmean : list Z → F.
Context {B : Type}.

Local Abbreviation frq0 vcf M := (mean_axis0 F fmean (length vcf) M).
Local Abbreviation kept maf_min vcf M :=
  (np_where (extract_mask F flt fsub fone maf_min (frq0 vcf M))).

Lemma lookup_mean_axis0 n (M : list (list Z)) j :
  j < n → mean_axis0 F fmean n M !! j = Some (fmean (column j M)).
Proof.
  intros Hj. unfold mean_axis0.
  by rewrite list_lookup_fmap, lookup_seq_lt.
Qed.

Lemma length_mean_axis0 n (M : list (list Z)) :
  length (mean_axis0 F fmean n M) = n.
Proof. unfold mean_axis0. by rewrite length_fmap, length_seq. Qed.

Lemma kept_lt maf_min (vcf : list B) M j :
  j ∈ kept maf_min vcf M → j < length vcf.
Proof.
  intros Hj%np_where_lt. unfold extract_mask in Hj.
  by rewrite length_fmap, length_mean_axis0 in Hj.
Qed.

Lemma elem_of_kept maf_min (vcf : list B) M j :
  j ∈ kept maf_min vcf M ↔
  j < length vcf
  ∧ in_band F flt fsub fone maf_min (fmean (column j M)) = true.
Proof.
  split.
  - intros Hj. pose proof (kept_lt _ _ _ _ Hj) as Hlt. split; [done|].
    apply elem_of_np_where in Hj. unfold extract_mask in Hj.
    rewrite list_lookup_fmap, lookup_mean_axis0 in Hj by done.
    cbn in Hj. congruence.
  - intros [Hlt Hband]. apply elem_of_np_where. unfold extract_mask.
    rewrite list_lookup_fmap, lookup_mean_axis0 by done.
    cbn. congruence.
Qed.

Lemma column_select (mask : list bool) (M : list (list Z)) i j :
  Forall (λ row, length row = length mask) M →
  np_where mask !! i = Some j →
  column i (select mask <$> M) = column j M.
Proof.
  intros Hall Hi. unfold column. induction Hall as [|row M Hrow _ IH];
    [done|].
  rewrite fmap_cons. cbn. rewrite IH. unfold select.
  rewrite lookup_take_rows, Hi; [done|].
  apply Forall_forall. intros n ?%np_where_lt. lia.
Qed.

(** C6. The filter keeps the SNPs whose allele frequency, the mean of
    the column over all haplotype rows, is above [maf_min] and below
    [1 - maf_min], and only those: every frequency it retains is the
    mean of the retained column and lies in the open band, and the
    haplotype matrix, the frequencies and the annotation table are all
    cut down to the same positions. *)
Theorem filter_by_maf_band maf_min (ref_haplo0 : list (list Z))
    (vcf : list B) :
  Forall (λ row, length row = length vcf) ref_haplo0 →
  let p := filter_by_maf F flt fsub fone fmean maf_min ref_haplo0 vcf in
  let kept := kept maf_min vcf ref_haplo0 in
  (∀ j, j < length vcf →
     (j ∈ kept ↔
      flt maf_min (fmean (column j ref_haplo0)) = true
      ∧ flt (fmean (column j ref_haplo0)) (fsub fone maf_min) = true))
  ∧ (∀ i f, allele_frq F p !! i = Some f →
       f = fmean (column i (ref_haplo F p))
       ∧ flt maf_min f = true ∧ flt f (fsub fone maf_min) = true)
  ∧ ref_haplo F p = (λ row, take_rows row kept) <$> ref_haplo0
  ∧ plink_bim F p = take_rows vcf kept
  ∧ length (allele_frq F p) = length kept
  ∧ length (plink_bim F p) = length kept
  ∧ Forall (λ row, length row = length kept) (ref_haplo F p).
Proof.
  intros Hall p kept0.
  split_and!.
  - intros j Hj. subst kept0. rewrite elem_of_kept. unfold in_band.
    rewrite andb_true_iff. tauto.
  - intros i f Hf. subst p. unfold filter_by_maf in *. cbn in *.
    unfold select in Hf. rewrite lookup_take_rows in Hf.
    2:{ apply Forall_forall. intros n Hn%np_where_lt.
        unfold extract_mask in Hn. by rewrite length_fmap in Hn. }
    destruct (np_where _ !! i) as [j|] eqn:Hi; [|done]. cbn in Hf.
    pose proof (list_elem_of_lookup_2 _ _ _ Hi) as Hj.
    apply elem_of_kept in Hj as [Hlt Hband].
    rewrite lookup_mean_axis0 in Hf by done. injection Hf as <-.
    unfold in_band in Hband. apply andb_true_iff in Hband.
    split; [|done]. symmetry. f_equal. apply column_select; [|done].
    unfold extract_mask. by rewrite length_fmap, length_mean_axis0.
  - reflexivity.
  - reflexivity.
  - subst p. cbn. unfold select. apply length_take_rows.
    apply Forall_forall. intros n Hn%np_where_lt.
    unfold extract_mask in Hn. by rewrite length_fmap in Hn.
  - subst p. cbn. unfold select. apply length_take_rows.
    apply Forall_forall. intros n Hn. by eapply kept_lt.
  - subst p. cbn. apply Forall_fmap.
    eapply Forall_impl; [exact Hall|]. intros row Hrow. cbn.
    unfold select. apply length_take_rows.
    apply Forall_forall. intros n Hn. rewrite Hrow. by eapply kept_lt.
Qed.
End LoaderFacts.

Lemma filter_by_maf_band_witness :
  Forall (λ row : list Z, length row = length sample_vcf) sample_ref_haplo
  ∧ plink_bim Q (filter_by_maf Q Qltb Qminus 1%Q Qmean (1 # 100)%Q
                   sample_ref_haplo sample_vcf) = ["rs2"]
  ∧ ∀ i f,
      allele_frq Q (filter_by_maf Q Qltb Qminus 1%Q Qmean (1 # 100)%Q
                      sample_ref_haplo sample_vcf) !! i = Some f →
      Qltb (1 # 100)%Q f = true ∧ Qltb f (1 - (1 # 100))%Q = true.
Proof.
  assert (Forall (λ row : list Z, length row = length sample_vcf)
            sample_ref_haplo) as H by (repeat constructor).
  split_and!; [exact H | reflexivity |].
  intros i f Hf.
  exact (proj2 (proj1 (proj2 (filter_by_maf_band Q Qltb Qminus 1%Q Qmean
           (1 # 100)%Q sample_ref_haplo sample_vcf H)) i f Hf)).
Defined.

(** ** Empty regions *)

Lemma where_from_all_false s (y : list bool) :
  Forall (λ b, b = false) y → where_from s y = [].
Proof.
  intros Hall. revert s. induction Hall as [|b y -> _ IH]; intros s; cbn;
    [done | apply IH].
Qed.

Section GeneFacts.
Variable region : gmap string region_row.
Variable plink_bim_all : list bim_row.
Variable simulate : string → list nat → list event * bool.

Lemma snp_idx_of_empty r :
  (∀ s, s ∈ plink_bim_all →
     bim_CHR s ≠ reg_CHR r
     ∨ (bim_BP s < reg_START r)%Z ∨ (reg_END r < bim_BP s)%Z) →
  snp_idx_of plink_bim_all r = [].
Proof.
  intros Hout. unfold snp_idx_of, np_where. apply where_from_all_false.
  apply Forall_fmap, Forall_forall. intros s Hs. cbn.
  destruct (Hout s Hs) as [Hchr | [Hlo | Hhi]].
  - by rewrite bool_decide_eq_false_2.
  - replace (reg_START r <=? bim_BP s)%Z with false
      by (symmetry; apply Z.leb_gt; lia).
    by rewrite andb_false_r.
  - replace (bim_BP s <=? reg_END r)%Z with false
      by (symmetry; apply Z.leb_gt; lia).
    by rewrite andb_false_r.
Qed.

Lemma snp_counts_Some gene_list counts :
  snp_counts region plink_bim_all simulate gene_list = Some counts ↔
  length gene_list ≠ 1
  ∧ mapM (λ gene, (hapsim_one_gene region plink_bim_all simulate gene).2)
         gene_list = Some counts.
Proof.
  unfold snp_counts, np_loadtxt.
  destruct gene_list as [|g [|g' l]]; cbn [length]; split;
    try (intros [? ?]); try done; try (split; [lia|done]).
Qed.

(** C8. A gene whose region holds no retained SNP, be it that no SNP
    of the panel lies on its chromosome, is skipped: the function does
    nothing beyond logging the skip, raises nothing and returns 0, and
    the row of the gene in the final table carries 0. *)
Theorem empty_region_skipped gene r :
  region !! gene = Some r →
  (∀ s, s ∈ plink_bim_all →
     bim_CHR s ≠ reg_CHR r
     ∨ (bim_BP s < reg_START r)%Z ∨ (reg_END r < bim_BP s)%Z) →
  hapsim_one_gene region plink_bim_all simulate gene
  = ([ImportR "hapsim"; LogInfo (Skipped 0 gene)], Some 0%Z)
  ∧ ∀ gene_list table i,
      gene_list !! i = Some gene →
      snp_counts_table region plink_bim_all simulate gene_list
      = Some table →
      table !! i = Some (gene, 0%Z).
Proof.
  intros Hr Hout.
  assert (hapsim_one_gene region plink_bim_all simulate gene
          = ([ImportR "hapsim"; LogInfo (Skipped 0 gene)], Some 0%Z))
    as Hskip.
  { unfold hapsim_one_gene. rewrite Hr, snp_idx_of_empty by done.
    reflexivity. }
  split; [done|]. intros gene_list table i Hi.
  unfold snp_counts_table.
  destruct (snp_counts _ _ _ gene_list) as [counts|] eqn:Hcounts; [|done].
  cbn. intros [= <-]. apply snp_counts_Some in Hcounts as [_ Hcounts].
  apply mapM_Some in Hcounts.
  destruct (Forall2_lookup_l _ _ _ _ _ Hcounts Hi) as (c & Hc & Hgene).
  rewrite Hskip in Hgene. cbn in Hgene. injection Hgene as <-.
  by rewrite lookup_zip_with, Hi, Hc.
Qed.
End GeneFacts.

(** GENE2 sits on chromosome 7, which the panel does not have. *)
Lemma empty_region_skipped_witness :
  sample_region !! "GENE2" = Some (RegionRow "7" 50 250)
  ∧ snp_counts_table sample_region sample_bim sample_simulate
      ["GENE1"; "GENE2"] = Some [("GENE1", 2%Z); ("GENE2", 0%Z)]
  ∧ hapsim_one_gene sample_region sample_bim sample_simulate "GENE2"
    = ([ImportR "hapsim"; LogInfo (Skipped 0 "GENE2")], Some 0%Z).
Proof.
  assert (sample_region !! "GENE2" = Some (RegionRow "7" 50 250)) as H1
    by (vm_compute; reflexivity).
  assert (∀ s, s ∈ sample_bim →
            bim_CHR s ≠ reg_CHR (RegionRow "7" 50 250)
            ∨ (bim_BP s < reg_START (RegionRow "7" 50 250))%Z
            ∨ (reg_END (RegionRow "7" 50 250) < bim_BP s)%Z) as H2.
  { intros s Hs. left. unfold sample_bim in Hs.
    repeat (apply elem_of_cons in Hs as [-> | Hs]; [cbn; discriminate|]).
    by apply elem_of_nil in Hs. }
  split_and!; [exact H1 | vm_compute; reflexivity |].
  exact (proj1 (empty_region_skipped sample_region sample_bim
                  sample_simulate "GENE2" _ H1 H2)).
Defined.

(** ** The allele-count table of the chi-squared test *)

Lemma lookup_sum_axis0 m (X : list (list Z)) j :
  j < m → sum_axis0 m X !! j = Some (A1_count j X).
Proof.
  intros Hj. unfold sum_axis0, A1_count.
  by rewrite list_lookup_fmap, lookup_seq_lt.
Qed.

Lemma allele_tables_lookup n_gwa m (X_case_i X_ctrl_i : list (list Z)) j :
  j < m →
  allele_tables n_gwa m X_case_i X_ctrl_i !! j
  = Some (Table (A1_count j X_case_i) (n_gwa * 2 - A1_count j X_case_i)
                (A1_count j X_ctrl_i) (n_gwa * 2 - A1_count j X_ctrl_i)).
Proof.
  intros Hj. unfold allele_tables.
  rewrite !lookup_zip_with, !list_lookup_fmap, !lookup_sum_axis0 by done.
  reflexivity.
Qed.

(** The first cell of a row is the A1 count of the group; the two cells
    of a row add up to [2 * n_gwa], whatever the size of the group. *)
Lemma allele_tables_row_sums n_gwa m (X_case_i X_ctrl_i : list (list Z)) t :
  t ∈ allele_tables n_gwa m X_case_i X_ctrl_i →
  (t00 t + t01 t = 2 * n_gwa)%Z ∧ (t10 t + t11 t = 2 * n_gwa)%Z.
Proof.
  intros (j & Hj)%list_elem_of_lookup_1.
  assert (j < m) as Hlt.
  { apply lookup_lt_Some in Hj. unfold allele_tables in Hj.
    rewrite !length_zip_with, !length_fmap in Hj. unfold sum_axis0 in Hj.
    rewrite !length_fmap, !length_seq in Hj. lia. }
  rewrite allele_tables_lookup in Hj by done. injection Hj as <-. cbn. lia.
Qed.

Lemma column_cons {A} j (row : list A) (X : list (list A)) x :
  row !! j = Some x → column j (row :: X) = x :: column j X.
Proof. intros Hx. unfold column. cbn. by rewrite Hx. Qed.

(** A group of diploid individuals carries two alleles per individual. *)
Lemma A1_A2_count j (X : list (list Z)) :
  Forall (λ row, j < length row) X →
  (A1_count j X + A2_count j X = 2 * Z.of_nat (length X))%Z.
Proof.
  unfold A1_count, A2_count. induction 1 as [|row X Hrow _ IH]; [done|].
  destruct (lookup_lt_is_Some_2 row j Hrow) as [x Hx].
  rewrite (column_cons _ _ _ _ Hx), fmap_cons. cbn [foldr length]. lia.
Qed.

(** With dosages in 0..2 the A1 count of a group lies between 0 and
    twice its size. *)
Lemma A1_count_bounds j (X : list (list Z)) :
  Forall (Forall (λ z, 0 ≤ z ≤ 2)%Z) X →
  (0 ≤ A1_count j X ≤ 2 * Z.of_nat (length X))%Z.
Proof.
  unfold A1_count. induction 1 as [|row X Hrow _ IH]; [cbn; lia|].
  destruct (row !! j) as [x|] eqn:Hx.
  - rewrite (column_cons _ _ _ _ Hx). cbn [foldr length].
    pose proof (Forall_lookup_1 _ _ _ _ Hrow Hx) as Hz. cbn in Hz. lia.
  - unfold column in *. cbn. rewrite Hx. cbn [length]. lia.
Qed.

(** C1, on the code. Four individuals requested, hence two cases and two
    controls and four alleles per group. At the one SNP the cases carry
    two A1 and two A2 alleles and the controls one A1 and three A2
    alleles, but the table reads [[2, 6], [1, 7]]: its second column
    counts the alleles of [n_gwa] individuals, not of [n_gwa / 2]. *)
Example chi2_table_second_column :
  n_case_of 4 = 2%Z
  ∧ allele_tables 4 1 [[1]; [1]]%Z [[0]; [1]]%Z = [Table 2 6 1 7]
  ∧ A1_count 0 [[1]; [1]]%Z = 2%Z ∧ A2_count 0 [[1]; [1]]%Z = 2%Z
  ∧ A1_count 0 [[0]; [1]]%Z = 1%Z ∧ A2_count 0 [[0]; [1]]%Z = 3%Z.
Proof. repeat split. Qed.

(** In general the second cell of a row exceeds the A2 count of the
    group by the alleles of the individuals the group does not have. *)
Lemma allele_tables_excess n_gwa m (X_case_i X_ctrl_i : list (list Z)) j t :
  Forall (λ row, length row = m) X_case_i →
  Forall (λ row, length row = m) X_ctrl_i →
  allele_tables n_gwa m X_case_i X_ctrl_i !! j = Some t →
  t00 t = A1_count j X_case_i ∧ t10 t = A1_count j X_ctrl_i
  ∧ (t01 t = A2_count j X_case_i
             + 2 * (n_gwa - Z.of_nat (length X_case_i)))%Z
  ∧ (t11 t = A2_count j X_ctrl_i
             + 2 * (n_gwa - Z.of_nat (length X_ctrl_i)))%Z.
Proof.
  intros Hcase Hctrl Hj.
  assert (j < m) as Hlt.
  { apply lookup_lt_Some in Hj. unfold allele_tables in Hj.
    rewrite !length_zip_with, !length_fmap in Hj. unfold sum_axis0 in Hj.
    rewrite !length_fmap, !length_seq in Hj. lia. }
  rewrite allele_tables_lookup in Hj by done. injection Hj as <-. cbn.
  assert (Forall (λ row : list Z, j < length row) X_case_i) as Hc
    by (eapply Forall_impl; [exact Hcase|]; cbn; intros; lia).
  assert (Forall (λ row : list Z, j < length row) X_ctrl_i) as Ht
    by (eapply Forall_impl; [exact Hctrl|]; cbn; intros; lia).
  pose proof (A1_A2_count j X_case_i Hc).
  pose proof (A1_A2_count j X_ctrl_i Ht). lia.
Qed.

(** ** Sample size and the N column *)

Lemma n_case_of_odd n_gwa :
  Z.odd n_gwa = true → (0 < n_gwa)%Z → (2 * n_case_of n_gwa = n_gwa - 1)%Z.
Proof.
  intros Hodd Hpos. unfold n_case_of.
  rewrite Z.quot_div_nonneg by lia.
  pose proof (Zmod_odd n_gwa) as Hmod. rewrite Hodd in Hmod.
  pose proof (Z.div_mod n_gwa 2). lia.
Qed.

Lemma n_case_of_even n_gwa :
  Z.even n_gwa = true → (0 ≤ n_gwa)%Z → (2 * n_case_of n_gwa = n_gwa)%Z.
Proof.
  intros Heven Hpos. unfold n_case_of.
  rewrite Z.quot_div_nonneg by lia.
  pose proof (Zmod_even n_gwa) as Hmod. rewrite Heven in Hmod.
  pose proof (Z.div_mod n_gwa 2). lia.
Qed.

Section SumstatFacts.
Variable V : Type.
Variable two_sided_p : V → V.
Variable n_gwa : Z.
Variable plink_bim_i : list bim_row.

Lemma sumstat_files_N z_j files :
  sumstat_files V two_sided_p n_gwa plink_bim_i z_j = Some files →
  Forall (λ r, ss_N V r = n_gwa) files.1.1
  ∧ Forall (λ r, ldak_n V r = n_gwa) files.2
  ∧ length files.1.1 = length plink_bim_i.
Proof.
  unfold sumstat_files. case_bool_decide as Hlen; [|done].
  intros [= <-]. cbn. split_and!.
  - apply Forall_forall. by intros r (s & z & -> & _)%elem_of_zip_with.
  - apply Forall_forall. by intros r (s & z & -> & _)%elem_of_zip_with.
  - rewrite length_zip_with. lia.
Qed.

Lemma write_sumstats_N n_rep z_ files :
  write_sumstats V two_sided_p n_gwa plink_bim_i n_rep z_ = Some files →
  length files = Z.to_nat n_rep
  ∧ Forall (λ f, Forall (λ r, ss_N V r = n_gwa) f.1.1
                 ∧ Forall (λ r, ldak_n V r = n_gwa) f.2) files.
Proof.
  unfold write_sumstats. intros Hall%mapM_Some. split.
  - apply Forall2_length in Hall. by rewrite length_seq in Hall.
  - eapply Forall2_Forall_r; [exact Hall|].
    apply Forall_forall. intros j _ f Hf.
    destruct (z_ !! j) as [z_j|]; [|done]. cbn in Hf.
    apply sumstat_files_N in Hf. tauto.
Qed.

Lemma write_sumstats_is_Some (n_rep : Z) (z_ : list (list V)) :
  is_Some (write_sumstats V two_sided_p n_gwa plink_bim_i n_rep z_) ↔
  ∀ j, j < Z.to_nat n_rep →
       ∃ z_j, z_ !! j = Some z_j ∧ length z_j = length plink_bim_i.
Proof.
  unfold write_sumstats. rewrite mapM_is_Some, Forall_forall. split.
  - intros Hall j Hj. destruct (Hall j) as [f Hf].
    { apply elem_of_seq. lia. }
    cbn in Hf. destruct (z_ !! j) as [z_j|]; [|done]. cbn in Hf.
    exists z_j. split; [done|]. unfold sumstat_files in Hf.
    by case_bool_decide.
  - intros Hall j Hj%elem_of_seq. cbn.
    destruct (Hall j) as (z_j & -> & Hlen); [lia|].
    cbn. unfold sumstat_files. rewrite bool_decide_eq_true_2 by done.
    by eexists.
Qed.

Lemma fmap_zip_with_const {B C D E} (f : D → E) (g : B → C → D) (c : E)
    (l : list B) (k : list C) :
  (∀ x y, f (g x y) = c) → length k = length l →
  f <$> zip_with g l k = replicate (length l) c.
Proof.
  intros Hc. revert k. induction l as [|x l IH]; intros [|y k] Hlen;
    try done.
  cbn. rewrite Hc. f_equal. apply IH. by injection Hlen.
Qed.

(** Every file of every replicate has one row per SNP of the gene, and
    each of these rows carries [n_gwa]. *)
Lemma write_sumstats_N_column n_rep z_ files :
  write_sumstats V two_sided_p n_gwa plink_bim_i n_rep z_ = Some files →
  length files = Z.to_nat n_rep
  ∧ Forall (λ f, ss_N V <$> f.1.1 = replicate (length plink_bim_i) n_gwa
                 ∧ ldak_n V <$> f.2 = replicate (length plink_bim_i) n_gwa
                 ∧ length f.1.2 = length plink_bim_i) files.
Proof.
  unfold write_sumstats. intros Hall%mapM_Some. split.
  - apply Forall2_length in Hall. by rewrite length_seq in Hall.
  - eapply Forall2_Forall_r; [exact Hall|].
    apply Forall_forall. intros j _ f Hf.
    destruct (z_ !! j) as [z_j|]; [|done]. cbn in Hf.
    unfold sumstat_files in Hf. case_bool_decide as Hlen; [|done].
    injection Hf as <-. cbn. split_and!.
    + by apply fmap_zip_with_const.
    + by apply fmap_zip_with_const.
    + rewrite length_zip_with. lia.
Qed.
End SumstatFacts.

(** C9. With an odd [n_gwa] a replicate holds [n_gwa - 1] individuals,
    [(n_gwa - 1) / 2] cases followed by as many controls, while the files
    report [n_gwa]: whenever the scores have one entry per SNP for each
    replicate the files are written, [n_rep] triples of them, and the
    generic and the LDAK file of every replicate have one row per SNP of
    the gene, each with [N = n_gwa] (the LDER file, of as many rows, has
    no such column). *)
Theorem odd_n_gwa_sample_size (n_gwa n_rep : Z) :
  Z.odd n_gwa = true → (0 < n_gwa)%Z →
  (2 * n_case_of n_gwa = n_gwa - 1)%Z
  ∧ (∀ A (st : state A) k case_parts ctrl_parts gwa,
       partition_combo n_rep (n_case_of n_gwa) st k
       = Some (case_parts, ctrl_parts, gwa) →
       gwa = zip_with app case_parts ctrl_parts
       ∧ length gwa = Z.to_nat n_rep
       ∧ Forall (λ p, 2 * Z.of_nat (length p) = n_gwa - 1)%Z case_parts
       ∧ Forall (λ p, 2 * Z.of_nat (length p) = n_gwa - 1)%Z ctrl_parts
       ∧ Forall (λ s, Z.of_nat (length s) = n_gwa - 1)%Z gwa)
  ∧ (∀ V two_sided_p plink_bim_i z_,
       (∀ j, j < Z.to_nat n_rep →
          ∃ z_j, z_ !! j = Some z_j ∧ length z_j = length plink_bim_i) →
       is_Some (write_sumstats V two_sided_p n_gwa plink_bim_i n_rep z_))
  ∧ (∀ V two_sided_p plink_bim_i z_ files,
       write_sumstats V two_sided_p n_gwa plink_bim_i n_rep z_ = Some files →
       length files = Z.to_nat n_rep
       ∧ Forall (λ f, ss_N V <$> f.1.1
                      = replicate (length plink_bim_i) n_gwa
                      ∧ ldak_n V <$> f.2
                        = replicate (length plink_bim_i) n_gwa
                      ∧ length f.1.2 = length plink_bim_i) files).
Proof.
  intros Hodd Hpos. pose proof (n_case_of_odd n_gwa Hodd Hpos) as Hhalf.
  split_and!; [done| |intros; by apply write_sumstats_is_Some
              |intros; by eapply write_sumstats_N_column].
  intros A st k cp tp gwa Hpart.
  destruct (X_case_dict st !! k) as [cases|] eqn:Hcases;
    [|by unfold partition_combo in Hpart; rewrite Hcases in Hpart].
  destruct (X_ctrl_dict st !! k) as [ctrls|] eqn:Hctrls;
    [|by unfold partition_combo in Hpart; rewrite Hcases, Hctrls in Hpart].
  destruct (partition_combo_Some _ _ st k _ _ _ _ _ Hcases Hctrls Hpart)
    as (_ & Hc & _ & _ & Hl1 & Hl2 & Hf1 & Hf2 & ->).
  assert (∀ p : list A, length p = Z.to_nat (n_case_of n_gwa) →
            (2 * Z.of_nat (length p) = n_gwa - 1)%Z) as Hlen
    by (intros p ->; lia).
  split_and!; [done| | | |].
  - rewrite length_zip_with. lia.
  - eapply Forall_impl; [exact Hf1 | exact Hlen].
  - eapply Forall_impl; [exact Hf2 | exact Hlen].
  - apply Forall_forall.
    intros s (p & q & -> & Hp & Hq)%elem_of_zip_with.
    rewrite length_app.
    pose proof (proj1 (Forall_forall _ _) Hf1 p Hp) as H1.
    pose proof (proj1 (Forall_forall _ _) Hf2 q Hq) as H2.
    cbn in H1, H2. lia.
Qed.

(** Five individuals requested, one replicate over the three SNPs of the
    sample panel: two cases and two controls are tested, and the files
    that [write_sumstats] produces read N = 5 in each of their three
    rows. *)
Lemma odd_n_gwa_sample_size_witness :
  Z.odd 5 = true ∧ (0 < 5)%Z ∧ (2 * n_case_of 5 = 5 - 1)%Z
  ∧ ∃ generic lder ldak,
      write_sumstats Z (λ z, z) 5 sample_bim 1 [[1; 2; 3]%Z]
      = Some [(generic, lder, ldak)]
      ∧ ss_N Z <$> generic = [5; 5; 5]%Z
      ∧ ldak_n Z <$> ldak = [5; 5; 5]%Z
      ∧ length lder = 3.
Proof.
  assert (Z.odd 5 = true) as H1 by reflexivity.
  assert (0 < 5)%Z as H2 by reflexivity.
  destruct (odd_n_gwa_sample_size 5 1 H1 H2) as (Hhalf & _ & Hsome & Hcol).
  split_and!; [exact H1 | exact H2 | exact Hhalf |].
  destruct (Hsome Z (λ z, z) sample_bim [[1; 2; 3]%Z]) as [files Hfiles].
  { intros j Hj. exists [1; 2; 3]%Z. destruct j as [|j]; [done|].
    apply Nat.succ_lt_mono in Hj. by apply Nat.nlt_0_r in Hj. }
  destruct (Hcol Z (λ z, z) sample_bim _ files Hfiles) as [Hlen Hall].
  destruct files as [|[[generic lder] ldak] [|? ?]]; try discriminate Hlen.
  apply Forall_inv in Hall. cbn in Hall.
  exists generic, lder, ldak. split; [exact Hfiles|]. exact Hall.
Defined.

(** ** The sign of the chi-squared score *)

Lemma Qltb_lt p q : Qltb p q = true ↔ (p < q)%Q.
Proof. unfold Qltb, Qlt. apply Z.ltb_lt. Qed.

Lemma Qneg_pos q : (0 < q)%Q → Qneg q = false.
Proof.
  unfold Qneg, Qlt. cbn. intros Hq. apply Z.ltb_ge. lia.
Qed.

Lemma Qltb_ratio p q :
  (0 < p)%Q → (0 < q)%Q → Qltb (inject_Z 1) (p / q) = Qltb q p.
Proof.
  intros Hp Hq. change (inject_Z 1) with 1%Q.
  assert ((1 < p / q)%Q ↔ (q < p)%Q) as Hiff.
  { split; intros H.
    - apply (Qmult_lt_compat_r _ _ q) in H; [|done].
      rewrite Qmult_1_l in H.
      assert (p / q * q == p)%Q as Heq.
      { unfold Qdiv. rewrite <- Qmult_assoc, (Qmult_comm (/ q)).
        rewrite Qmult_inv_r; [apply Qmult_1_r|].
        intros Hz. rewrite Hz in Hq. by apply Qlt_irrefl in Hq. }
      by rewrite Heq in H.
    - apply Qlt_shift_div_l; [done|]. by rewrite Qmult_1_l. }
  destruct (Qltb 1 (p / q)) eqn:H1, (Qltb q p) eqn:H2; try done.
  - apply Qltb_lt, Hiff, Qltb_lt in H1. congruence.
  - apply Qltb_lt, Hiff, Qltb_lt in H2. congruence.
Qed.

Lemma xnonneg_of_Z z : (0 ≤ z)%Z → xnonneg (x_of_Z z).
Proof.
  intros Hz. unfold x_of_Z. destruct (Z.eqb_spec z 0); cbn; [done|].
  unfold Qlt. cbn. lia.
Qed.

Lemma Qltb_pos_0 q : (0 < q)%Q → Qltb q 0 = false.
Proof.
  intros Hq. apply not_true_is_false. intros H%Qltb_lt.
  by apply (Qlt_irrefl q), (Qlt_trans _ 0%Q).
Qed.

Lemma Qltb_0_pos q : (0 < q)%Q → Qltb 0 q = true.
Proof. apply Qltb_lt. Qed.

Lemma xnonneg_div x y : xnonneg x → xnonneg y → xnonneg (xdiv x y).
Proof.
  destruct x as [|s|s|p], y as [|t|t|q]; cbn [xnonneg]; intros Hx Hy;
    subst; unfold xdiv; rewrite ?Qneg_pos by done; cbn [xnonneg xorb];
    try done.
  apply Qlt_shift_div_l; [done|]. by rewrite Qmult_0_l.
Qed.

(** The quotient of two such values exceeds 1 exactly when the first
    exceeds the second. *)
Lemma xgt_ratio x y :
  xnonneg x → xnonneg y → xgt (xdiv x y) (x_of_Z 1) = xgt x y.
Proof.
  destruct x as [|s|s|p], y as [|t|t|q]; cbn [xnonneg]; intros Hx Hy;
    subst; unfold xdiv; rewrite ?Qneg_pos by done; unfold xgt, x_of_Z;
    cbn -[Qltb inject_Z];
    rewrite ?Qltb_pos_0, ?Qltb_0_pos, ?Qltb_ratio by done; reflexivity.
Qed.

(** The tables the test is fed hold no negative cell. *)
Lemma allele_tables_nonneg n_gwa m (X_case_i X_ctrl_i : list (list Z)) t :
  Forall (Forall (λ z, 0 ≤ z ≤ 2)%Z) X_case_i →
  Forall (Forall (λ z, 0 ≤ z ≤ 2)%Z) X_ctrl_i →
  (Z.of_nat (length X_case_i) ≤ n_gwa)%Z →
  (Z.of_nat (length X_ctrl_i) ≤ n_gwa)%Z →
  t ∈ allele_tables n_gwa m X_case_i X_ctrl_i →
  (0 ≤ t00 t)%Z ∧ (0 ≤ t01 t)%Z ∧ (0 ≤ t10 t)%Z ∧ (0 ≤ t11 t)%Z.
Proof.
  intros Hcase Hctrl Hn1 Hn2 (j & Hj)%list_elem_of_lookup_1.
  assert (j < m) as Hlt.
  { apply lookup_lt_Some in Hj. unfold allele_tables in Hj.
    rewrite !length_zip_with, !length_fmap in Hj. unfold sum_axis0 in Hj.
    rewrite !length_fmap, !length_seq in Hj. lia. }
  rewrite allele_tables_lookup in Hj by done. injection Hj as <-. cbn.
  pose proof (A1_count_bounds j _ Hcase).
  pose proof (A1_count_bounds j _ Hctrl). lia.
Qed.

Section ChiSquaredFacts.
Variable chi2_contingency : table → option R.

(** C3. For a table [(a, b, c, d)] of counts the reported score has the
    magnitude [sqrt] of the chi-squared statistic; it is that square
    root if the odds ratio [(a/c)/(b/d)] exceeds 1 and its negation
    otherwise; the odds ratio exceeds 1 exactly when [a/c > b/d]; and
    a score with a nonzero statistic is positive exactly when the odds
    ratio exceeds 1. *)
Theorem chi2_z_sign t stat :
  (0 ≤ t00 t)%Z → (0 ≤ t01 t)%Z → (0 ≤ t10 t)%Z → (0 ≤ t11 t)%Z →
  chi2_contingency t = Some stat →
  ∃ z, chi2_z chi2_contingency t = Some z
    ∧ Rabs z = sqrt stat
    ∧ z = (if xgt (odds_ratio t) (x_of_Z 1)
           then sqrt stat else - sqrt stat)%R
    ∧ xgt (odds_ratio t) (x_of_Z 1)
      = xgt (xdiv (x_of_Z (t00 t)) (x_of_Z (t10 t)))
            (xdiv (x_of_Z (t01 t)) (x_of_Z (t11 t)))
    ∧ ((0 < stat)%R →
       ((0 < z)%R ↔ xgt (odds_ratio t) (x_of_Z 1) = true)).
Proof.
  intros Ha Hb Hc Hd Hstat. unfold chi2_z. rewrite Hstat. cbn.
  eexists. split; [reflexivity|].
  pose proof (sqrt_pos stat) as Hnn.
  split_and!.
  - destruct (xgt _ _).
    + by apply Rabs_pos_eq.
    + rewrite Rabs_Ropp. by apply Rabs_pos_eq.
  - reflexivity.
  - unfold odds_ratio.
    apply xgt_ratio; apply xnonneg_div; by apply xnonneg_of_Z.
  - intros Hpos. apply sqrt_lt_R0 in Hpos.
    destruct (xgt _ _); split; try done; intros; lra.
Qed.
End ChiSquaredFacts.

Lemma chi2_z_sign_witness :
  (λ _ : table, Some 4%R) (Table 3 1 1 3) = Some 4%R
  ∧ xgt (odds_ratio (Table 3 1 1 3)) (x_of_Z 1) = true
  ∧ ∃ z, chi2_z (λ _, Some 4%R) (Table 3 1 1 3) = Some z
         ∧ Rabs z = sqrt 4.
Proof.
  split_and!; [reflexivity | reflexivity |].
  destruct (chi2_z_sign (λ _, Some 4%R) (Table 3 1 1 3) 4%R
              ltac:(cbn; lia) ltac:(cbn; lia) ltac:(cbn; lia)
              ltac:(cbn; lia) eq_refl)
    as (z & Hz & Habs & _).
  exists z. split; [exact Hz | exact Habs].
Defined.

(** ** Rescaling of the effect sizes *)

Section RealizerFacts.
Local Open Scope R_scope.
Implicit Types (v beta : list R) (X : list (list R)) (s : R).

Lemma Rsum_scale v s : Rsum ((λ x, x * s) <$> v) = Rsum v * s.
Proof.
  unfold Rsum. induction v as [|x v IH]; cbn; [lra|].
  rewrite IH. lra.
Qed.

Lemma Rsum_nonneg v : Forall (λ x, 0 <= x) v → 0 <= Rsum v.
Proof. unfold Rsum. induction 1; cbn; lra. Qed.

Lemma dot_scale x beta s :
  dot x ((λ b, b * s) <$> beta) = dot x beta * s.
Proof.
  unfold dot, Rsum. revert beta.
  induction x as [|a x IH]; intros [|b beta]; cbn; try lra.
  rewrite IH. lra.
Qed.

Lemma matvec_scale X beta s :
  matvec X ((λ b, b * s) <$> beta) = (λ g, g * s) <$> matvec X beta.
Proof.
  unfold matvec. rewrite <- list_fmap_compose.
  apply list_fmap_ext. intros _ x _. cbn. apply dot_scale.
Qed.

Lemma np_mean_scale v s : np_mean ((λ x, x * s) <$> v) = np_mean v * s.
Proof.
  unfold np_mean. rewrite Rsum_scale, length_fmap. unfold Rdiv. lra.
Qed.

Lemma np_var_scale v s :
  np_var ((λ x, x * s) <$> v) = np_var v * (s * s).
Proof.
  unfold np_var. rewrite <- (np_mean_scale _ (s * s)).
  rewrite <- !list_fmap_compose. f_equal.
  apply list_fmap_ext. intros _ x _. cbn. rewrite np_mean_scale. lra.
Qed.

Lemma np_var_nonneg v : 0 <= np_var v.
Proof.
  unfold np_var, np_mean at 1. rewrite length_fmap.
  set (w := _ <$> v).
  assert (0 <= Rsum w) as Hsum.
  { apply Rsum_nonneg. subst w. apply Forall_fmap, Forall_forall.
    intros x _. apply (Rle_0_sqr (x - np_mean v)). }
  apply Rmult_le_pos; [done|]. destruct v as [|x0 v].
  - cbn. rewrite Rinv_0. lra.
  - apply Rlt_le, Rinv_0_lt_compat, lt_0_INR. cbn. lia.
Qed.

(** C4. With a genetic score of nonzero standard deviation over the
    reference pool, the realised effects are the drawn effects times
    [sqrt h2g / std (X_pop0_stdz @ beta)], and the variance over that
    pool of the score they give, as of the rescaled score of line 152,
    is [h2g]. Numbers are real numbers. *)
Theorem realized_beta_variance (h2g : R) X beta :
  np_std (matvec X beta) <> 0 → 0 <= h2g →
  realized_beta h2g X beta
  = (λ b, b * (sqrt h2g / np_std (matvec X beta))) <$> beta
  ∧ np_var (matvec X (realized_beta h2g X beta)) = h2g
  ∧ np_var (scaled_genetic_eff h2g X beta) = h2g.
Proof.
  intros Hstd Hh2.
  assert (np_var (matvec X beta) <> 0) as Hvar.
  { intros Hz. apply Hstd. unfold np_std. rewrite Hz. apply sqrt_0. }
  pose proof (np_var_nonneg (matvec X beta)) as Hnn.
  assert (np_var (matvec X beta)
          * (scale_factor h2g X beta * scale_factor h2g X beta) = h2g)
    as Hscale.
  { unfold scale_factor, np_std.
    set (var := np_var (matvec X beta)) in *.
    replace (sqrt h2g / sqrt var * (sqrt h2g / sqrt var))
      with ((sqrt h2g * sqrt h2g) / (sqrt var * sqrt var))
      by (field; exact Hstd).
    rewrite !sqrt_sqrt by done. field. exact Hvar. }
  split_and!.
  - reflexivity.
  - unfold realized_beta. by rewrite matvec_scale, np_var_scale.
  - unfold scaled_genetic_eff. by rewrite np_var_scale.
Qed.
End RealizerFacts.

(** Two reference individuals with standardised dosages 1 and -1 at one
    SNP, a drawn effect of 1 and a target heritability of 1. *)
Lemma realized_beta_variance_witness :
  (np_std (matvec [[1]; [-1]] [1]) <> 0)%R
  ∧ np_var (matvec [[1]; [-1]]%R (realized_beta 1 [[1]; [-1]] [1])%R) = 1%R.
Proof.
  assert (np_var (matvec [[1]; [-1]] [1]) = 1)%R as Hvar.
  { unfold np_var, np_mean, matvec, dot, Rsum. cbn. field. }
  assert (np_std (matvec [[1]; [-1]] [1]) <> 0)%R as Hstd.
  { unfold np_std. rewrite Hvar, sqrt_1. apply R1_neq_R0. }
  split; [exact Hstd|].
  exact (proj1 (proj2 (realized_beta_variance 1 [[1]; [-1]]%R [1]%R Hstd
                         Rle_0_1))).
Defined.

(* ================================================================== *)
(** * Part III: further properties of the script                        *)
(* ================================================================== *)

(** ** The SNPs of a gene and the table of SNP counts *)

Lemma where_from_ascending s (y : list bool) a b i j :
  where_from s y !! a = Some i → where_from s y !! b = Some j →
  a < b → i < j.
Proof.
  revert s a b. induction y as [|c y IH]; intros s a b Ha Hb Hab; [done|].
  cbn in Ha, Hb. destruct c; [|by eapply IH].
  destruct a as [|a], b as [|b]; try lia; cbn in Ha, Hb.
  - injection Ha as <-.
    apply list_elem_of_lookup_2, where_from_lower in Hb. lia.
  - eapply IH; [exact Ha | exact Hb | lia].
Qed.

(** X1. The SNPs of a gene are the rows of the panel on the chromosome of
    its region with a position from START to END, both bounds included;
    their indices are listed in increasing order. *)
Theorem snp_idx_of_spec (plink_bim_all : list bim_row) (r : region_row) :
  (∀ i, i ∈ snp_idx_of plink_bim_all r ↔
        ∃ s, plink_bim_all !! i = Some s
             ∧ bim_CHR s = reg_CHR r
             ∧ (reg_START r ≤ bim_BP s ≤ reg_END r)%Z)
  ∧ (∀ a b i j,
       snp_idx_of plink_bim_all r !! a = Some i →
       snp_idx_of plink_bim_all r !! b = Some j →
       a < b → i < j).
Proof.
  split.
  - intros i. unfold snp_idx_of. rewrite elem_of_np_where, list_lookup_fmap.
    split.
    + destruct (plink_bim_all !! i) as [s|]; [|done]. cbn.
      intros [= H]. apply andb_true_iff in H as [H Hhi].
      apply andb_true_iff in H as [Hchr Hlo].
      apply bool_decide_eq_true in Hchr.
      apply Z.leb_le in Hlo, Hhi. eauto.
    + intros (s & -> & Hchr & Hlo & Hhi). cbn.
      rewrite bool_decide_eq_true_2 by done.
      by rewrite (proj2 (Z.leb_le _ _) Hlo), (proj2 (Z.leb_le _ _) Hhi).
  - intros a b i j. apply where_from_ascending.
Qed.

Section TableFacts.
Variable region : gmap string region_row.
Variable plink_bim_all : list bim_row.
Variable simulate : string → list nat → list event * bool.

Lemma hapsim_one_gene_result gene :
  (hapsim_one_gene region plink_bim_all simulate gene).2 =
    match region !! gene with
    | None => None
    | Some r =>
        if bool_decide (length (snp_idx_of plink_bim_all r) = 0) then Some 0%Z
        else if (simulate gene (snp_idx_of plink_bim_all r)).2
             then Some (Z.of_nat (length (snp_idx_of plink_bim_all r)))
             else None
    end.
Proof.
  unfold hapsim_one_gene. destruct (region !! gene) as [r|]; [|done].
  case_bool_decide; [done|].
  by destruct (simulate gene (snp_idx_of plink_bim_all r)).2.
Qed.

(** X2. The table of SNP counts is written exactly when the gene-list
    file does not hold one single name (which loads as a 0-d array that
    the parallel map refuses), every gene of the list has a row in the
    region table and the simulation of every gene with SNPs ran to its
    end: one gene without a region, or one failed simulation, and no table
    is written. An empty list gives the empty table. *)
Theorem snp_counts_table_is_Some gene_list :
  is_Some (snp_counts_table region plink_bim_all simulate gene_list) ↔
  length gene_list ≠ 1
  ∧ Forall (λ gene, ∃ r, region !! gene = Some r
                         ∧ (snp_idx_of plink_bim_all r = []
                            ∨ (simulate gene (snp_idx_of plink_bim_all r)).2
                              = true))
           gene_list.
Proof.
  unfold snp_counts_table. rewrite fmap_is_Some.
  transitivity
    (length gene_list ≠ 1
     ∧ is_Some (mapM (λ gene, (hapsim_one_gene region plink_bim_all
                                 simulate gene).2) gene_list)).
  { split.
    - intros [counts Hc]. apply snp_counts_Some in Hc as [? Hc]. eauto.
    - intros [Hlen [counts Hc]]. exists counts. by apply snp_counts_Some. }
  apply and_iff_compat_l.
  rewrite mapM_is_Some. apply Forall_iff. intros gene. cbn.
  rewrite hapsim_one_gene_result.
  destruct (region !! gene) as [r|]; cbn.
  - case_bool_decide as Hlen.
    + split; [|by eauto]. intros _. exists r. split; [done|]. left.
      by apply nil_length_inv.
    + destruct (simulate gene (snp_idx_of plink_bim_all r)).2 eqn:Hsim.
      * split; [|by eauto]. intros _. exists r. eauto.
      * split; [by intros [? ?]|].
        intros (r' & [= <-] & [Hnil | ?]); [|congruence].
        by rewrite Hnil in Hlen.
  - split; [by intros [? ?] | by intros (? & ? & _)].
Qed.

(** X3. When the table is written it has one row per gene of the list, in
    the order of the list, and the row of a gene carries the number of
    panel SNPs that lie in its region. *)
Theorem snp_counts_table_rows gene_list table :
  snp_counts_table region plink_bim_all simulate gene_list = Some table →
  length table = length gene_list
  ∧ ∀ i gene, gene_list !! i = Some gene →
      ∃ r, region !! gene = Some r
           ∧ table !! i
             = Some (gene, Z.of_nat (length (snp_idx_of plink_bim_all r))).
Proof.
  unfold snp_counts_table.
  destruct (snp_counts _ _ _ gene_list) as [counts|] eqn:Hcounts; [|done].
  cbn. intros [= <-]. apply snp_counts_Some in Hcounts as [_ Hcounts].
  pose proof (length_mapM _ _ _ Hcounts) as Hlen.
  apply mapM_Some in Hcounts. split.
  - rewrite length_zip_with. lia.
  - intros i gene Hi.
    destruct (Forall2_lookup_l _ _ _ _ _ Hcounts Hi) as (c & Hc & Hgene).
    rewrite hapsim_one_gene_result in Hgene.
    destruct (region !! gene) as [r|]; [|done]. exists r. split; [done|].
    rewrite lookup_zip_with, Hi, Hc. cbn. do 2 f_equal.
    case_bool_decide as Hz; [by rewrite Hz; injection Hgene as <-|].
    destruct (simulate gene (snp_idx_of plink_bim_all r)).2; [|done].
    by injection Hgene as <-.
Qed.
End TableFacts.

(** A gene-list file with the single name GENE2 gives no table, an empty
    one the empty table. *)
Example snp_counts_table_single_gene :
  snp_counts_table sample_region sample_bim sample_simulate ["GENE2"] = None
  ∧ snp_counts_table sample_region sample_bim sample_simulate [] = Some [].
Proof. split; reflexivity. Qed.

Lemma snp_counts_table_rows_witness :
  snp_counts_table sample_region sample_bim sample_simulate ["GENE2"; "GENE1"]
  = Some [("GENE2", 0%Z); ("GENE1", 2%Z)]
  ∧ length [("GENE2", 0%Z); ("GENE1", 2%Z)] = 2.
Proof.
  assert (snp_counts_table sample_region sample_bim sample_simulate
            ["GENE2"; "GENE1"] = Some [("GENE2", 0%Z); ("GENE1", 2%Z)]) as H
    by (vm_compute; reflexivity).
  split; [exact H|].
  exact (proj1 (snp_counts_table_rows sample_region sample_bim
                  sample_simulate _ _ H)).
Defined.

(** ** Shape of the sampled batches *)

Section SamplerShape.
Variable F : Type.
Variable flt : F → F → bool.

Lemma length_haplotype_call pp (x : list F) :
  length x = length pp → length (haplotype_call F flt pp x) = length pp.
Proof. intros Hlen. unfold haplotype_call. rewrite length_zip_with. lia. Qed.

Lemma sample_once_shape pp (X_ : list (list F) * list (list F)) n :
  length X_.1 = n → length X_.2 = n →
  Forall (λ x, length x = length pp) X_.1 →
  Forall (λ x, length x = length pp) X_.2 →
  length (sample_once F flt pp X_) = n
  ∧ Forall (λ row, length row = length pp) (sample_once F flt pp X_).
Proof.
  intros Hn1 Hn2 Hw1 Hw2. unfold sample_once. split.
  - rewrite length_zip_with, !length_fmap. lia.
  - apply Forall_forall.
    intros row (r1 & r2 & -> & Hr1 & Hr2)%elem_of_zip_with.
    apply list_elem_of_fmap in Hr1 as (x1 & -> & Hx1).
    apply list_elem_of_fmap in Hr2 as (x2 & -> & Hx2).
    rewrite length_zip_with, !length_haplotype_call; [lia| |].
    + by apply (proj1 (Forall_forall _ _) Hw2).
    + by apply (proj1 (Forall_forall _ _) Hw1).
Qed.

(** X4. A pool drawn by [k] calls of [sample_once], each on a draw of
    [n] individuals over the [m] SNPs of the gene, has [k * n] rows of
    [m] dosages each. *)
Theorem sample_batch_shape pp draws n :
  Forall (λ X_ : list (list F) * list (list F),
            length X_.1 = n ∧ length X_.2 = n
            ∧ Forall (λ x, length x = length pp) X_.1
            ∧ Forall (λ x, length x = length pp) X_.2) draws →
  length (sample_batch F flt pp draws) = length draws * n
  ∧ Forall (λ row, length row = length pp) (sample_batch F flt pp draws).
Proof.
  unfold sample_batch.
  induction 1 as [|X_ draws (Hn1 & Hn2 & Hw1 & Hw2) _ [IH1 IH2]];
    [by split|].
  destruct (sample_once_shape pp X_ n Hn1 Hn2 Hw1 Hw2) as [Hlen Hrows].
  rewrite fmap_cons. cbn [concat length]. split.
  - rewrite length_app, Hlen, IH1. lia.
  - by apply Forall_app.
Qed.
End SamplerShape.

Lemma sample_batch_shape_witness :
  length (sample_batch Q Qltb [0; 1 # 2; -1]%Q
            [([[-1; 0; 0]; [1; 1; 1]]%Q, [[-2; 1; -3]; [0; 0; 0]]%Q);
             ([[0; 0; 0]; [1; 0; 1]]%Q, [[2; 1; 3]; [0; 1; 0]]%Q)]) = 2 * 2.
Proof.
  refine (proj1 (sample_batch_shape Q Qltb _ _ 2 _)).
  repeat constructor.
Defined.

(** ** Drawing and rescaling the effects *)

Section AssignFacts.
Context {A : Type}.
Implicit Types (idx : list nat) (values v : list A).

Lemma length_assign_at idx values v :
  length (assign_at idx values v) = length v.
Proof.
  unfold assign_at. revert values v.
  induction idx as [|i idx IH]; intros [|x values] v; try done.
  cbn. by rewrite IH, length_insert.
Qed.

Lemma assign_at_notin idx values v j :
  j ∉ idx → assign_at idx values v !! j = v !! j.
Proof.
  unfold assign_at. revert values v.
  induction idx as [|i idx IH]; intros [|x values] v Hj; try done.
  apply not_elem_of_cons in Hj as [Hne Hj]. cbn.
  rewrite IH by done. by apply list_lookup_insert_ne.
Qed.

Lemma assign_at_in idx values v k j x :
  NoDup idx → idx !! k = Some j → values !! k = Some x → j < length v →
  assign_at idx values v !! j = Some x.
Proof.
  unfold assign_at. intros Hnd. revert values v k.
  induction Hnd as [|i idx Hi Hnd IH]; intros [|y values] v k Hk Hx Hlt;
    try done.
  destruct k as [|k]; cbn in Hk, Hx.
  - simplify_eq. cbn.
    change (foldl _ ?w (zip idx values)) with (assign_at idx values w).
    rewrite assign_at_notin by done. by apply list_lookup_insert_eq.
  - cbn. eapply IH; [exact Hk | exact Hx |]. by rewrite length_insert.
Qed.
End AssignFacts.

Lemma draw_beta_zero (m : nat) (idx_qtl : list nat) (values : list R) j :
  j < m → j ∉ idx_qtl → draw_beta m idx_qtl values !! j = Some 0%R.
Proof.
  intros Hj Hnot. unfold draw_beta. rewrite assign_at_notin by done.
  by apply lookup_replicate_2.
Qed.

Lemma length_draw_beta (m : nat) (idx_qtl : list nat) (values : list R) :
  length (draw_beta m idx_qtl values) = m.
Proof. unfold draw_beta. by rewrite length_assign_at, length_replicate. Qed.

(** X5. The drawn effect vector has one entry per SNP; it is zero at
    every SNP outside the causal subset and holds, at the k-th causal
    SNP, the k-th drawn effect. *)
Theorem draw_beta_spec (m : nat) (idx_qtl : list nat) (values : list R) :
  length (draw_beta m idx_qtl values) = m
  ∧ (∀ j, j < m → j ∉ idx_qtl →
       draw_beta m idx_qtl values !! j = Some 0%R)
  ∧ (NoDup idx_qtl →
     ∀ k j x, idx_qtl !! k = Some j → values !! k = Some x → j < m →
       draw_beta m idx_qtl values !! j = Some x).
Proof.
  split_and!.
  - apply length_draw_beta.
  - intros j. apply draw_beta_zero.
  - intros Hnd k j x Hk Hx Hj. unfold draw_beta.
    eapply assign_at_in; eauto. by rewrite length_replicate.
Qed.

(** X6. Rescaling keeps the effect vector sparse: with a genetic score
    of nonzero standard deviation, the realised effect of every SNP
    outside the causal subset is zero. *)
Theorem realized_beta_non_causal (h2g : R) (X_pop0_stdz : list (list R))
    (m : nat) (idx_qtl : list nat) (values : list R) (j : nat) :
  np_std (matvec X_pop0_stdz (draw_beta m idx_qtl values)) ≠ 0%R →
  j < m → j ∉ idx_qtl →
  realized_beta h2g X_pop0_stdz (draw_beta m idx_qtl values) !! j
  = Some 0%R
  ∧ length (realized_beta h2g X_pop0_stdz (draw_beta m idx_qtl values)) = m.
Proof.
  intros _ Hj Hnot. unfold realized_beta.
  rewrite list_lookup_fmap, draw_beta_zero, length_fmap, length_draw_beta
    by done.
  cbn. split; [|done]. f_equal. apply Rmult_0_l.
Qed.

Lemma realized_beta_non_causal_witness :
  np_std (matvec [[1; 0]; [-1; 0]]%R (draw_beta 2 [0] [1%R])) ≠ 0%R
  ∧ realized_beta 1%R [[1; 0]; [-1; 0]]%R (draw_beta 2 [0] [1%R]) !! 1
    = Some 0%R.
Proof.
  assert (np_var (matvec [[1; 0]; [-1; 0]]%R (draw_beta 2 [0] [1%R])) = 1%R)
    as Hvar.
  { unfold np_var, np_mean, matvec, dot, Rsum. cbn. field. }
  assert (np_std (matvec [[1; 0]; [-1; 0]]%R (draw_beta 2 [0] [1%R])) ≠ 0%R)
    as Hstd.
  { unfold np_std. rewrite Hvar, sqrt_1. apply R1_neq_R0. }
  split; [exact Hstd|].
  refine (proj1 (realized_beta_non_causal 1%R _ 2 [0] [1%R] 1 Hstd _ _)).
  - lia.
  - intros Hin. apply list_elem_of_singleton in Hin. discriminate.
Defined.

(** *** The number of causal SNPs *)

Lemma round_half_even_le a d M :
  (0 < d)%Z → (a ≤ M * d)%Z → (round_half_even a d ≤ M)%Z.
Proof.
  intros Hd Ha. unfold round_half_even.
  pose proof (Z.div_mod a d ltac:(lia)) as Hdm.
  pose proof (Z.mod_pos_bound a d Hd) as Hr.
  assert (a / d ≤ M)%Z as Hf by nia.
  assert (0 < a mod d → a / d + 1 ≤ M)%Z as Hf1 by nia.
  destruct (Z.ltb_spec (2 * (a mod d)) d); [done|].
  destruct (Z.ltb_spec d (2 * (a mod d))); [lia|].
  destruct (Z.even (a / d)); [done|lia].
Qed.

Lemma round_half_even_pos a d :
  (0 < d)%Z → (d ≤ a)%Z → (1 ≤ round_half_even a d)%Z.
Proof.
  intros Hd Ha. unfold round_half_even.
  pose proof (Z.div_mod a d ltac:(lia)) as Hdm.
  pose proof (Z.mod_pos_bound a d Hd) as Hr.
  assert (1 ≤ a / d)%Z as Hf by nia.
  destruct (Z.ltb_spec (2 * (a mod d)) d); [done|].
  destruct (Z.ltb_spec d (2 * (a mod d))); [lia|].
  destruct (Z.even (a / d)); [done|lia].
Qed.

Lemma ceil_int_bounds n e m :
  (e ≤ 0)%Z → (1 ≤ n)%Z → (n ≤ m * 2 ^ (- e))%Z →
  (1 ≤ ceil_int (Dyadic n e) ≤ m)%Z.
Proof.
  intros He Hn Hm. unfold ceil_int. cbn.
  destruct (Z.leb_spec 0 e).
  - replace e with 0%Z in * by lia. cbn in Hm. lia.
  - assert (0 < 2 ^ (- e))%Z as HD by (apply Z.pow_pos_nonneg; lia).
    set (D := (2 ^ (- e))%Z) in *.
    pose proof (Z.div_mod (- n) D ltac:(lia)) as Hdm.
    pose proof (Z.mod_pos_bound (- n) D HD) as Hr.
    nia.
Qed.

Lemma round64_bounded a E M K :
  (1 ≤ a)%Z → (E ≤ 0)%Z → (0 ≤ K)%Z → (2 ^ K ≤ a)%Z → (-1074 - E ≤ K)%Z →
  (1 ≤ M < 2 ^ 53)%Z → (a ≤ M * 2 ^ (- E))%Z →
  ∃ n e, round64 (Dyadic a E) = Some (Dyadic n e)
         ∧ (e ≤ 0)%Z ∧ (1 ≤ n)%Z ∧ (n ≤ M * 2 ^ (- e))%Z.
Proof.
  intros Ha HE HK HKa HKE HM HaM. unfold round64. cbn [mant expo].
  destruct (Z.eqb_spec a 0) as [|_]; [lia|].
  rewrite Z.abs_eq by lia.
  set (e := Z.max (Z.log2 a + E - 52) (-1074)).
  pose proof (Z.log2_spec a ltac:(lia)) as [Hlo Hhi].
  pose proof (Z.log2_nonneg a) as Hl0.
  assert (Z.log2 a < 53 - E)%Z as Hlog.
  { apply Z.log2_lt_pow2; [lia|].
    replace (53 - E)%Z with (53 + - E)%Z by lia.
    rewrite Z.pow_add_r by lia.
    assert (0 < 2 ^ (- E))%Z by (apply Z.pow_pos_nonneg; lia). nia. }
  assert (e ≤ 0)%Z as He by lia.
  set (n := if (e <=? E)%Z then (a * 2 ^ (E - e))%Z
            else round_half_even a (2 ^ (e - E))).
  assert (1 ≤ n ∧ n ≤ M * 2 ^ (- e))%Z as [Hn1 Hn2].
  { subst n. destruct (Z.leb_spec e E) as [HeE|HeE].
    - assert (0 < 2 ^ (E - e))%Z by (apply Z.pow_pos_nonneg; lia).
      split; [nia|].
      replace (- e)%Z with (- E + (E - e))%Z by lia.
      rewrite Z.pow_add_r by lia. nia.
    - assert (0 < 2 ^ (e - E))%Z as Hd by (apply Z.pow_pos_nonneg; lia).
      split.
      + apply round_half_even_pos; [done|].
        destruct (Z.max_spec (Z.log2 a + E - 52) (-1074)) as [[_ Hmax]|[_ Hmax]];
          fold e in Hmax.
        * etrans; [|exact HKa]. apply Z.pow_le_mono_r; lia.
        * etrans; [|exact Hlo]. apply Z.pow_le_mono_r; lia.
      + apply round_half_even_le; [done|].
        rewrite <- Z.mul_assoc, <- Z.pow_add_r by lia.
        by replace (- e + (e - E))%Z with (- E)%Z by lia. }
  fold n.
  assert (Z.log2 n < 53 - e)%Z as Hlogn.
  { apply Z.log2_lt_pow2; [lia|].
    replace (53 - e)%Z with (53 + - e)%Z by lia.
    rewrite Z.pow_add_r by lia.
    assert (0 < 2 ^ (- e))%Z by (apply Z.pow_pos_nonneg; lia). nia. }
  destruct (Z.leb_spec 1024 (Z.log2 n + e)); [lia|].
  rewrite Z.sgn_pos by lia. exists n, e. split; [f_equal; f_equal; lia|done].
Qed.

Lemma float_of_int_exact i :
  (1 ≤ i < 2 ^ 53)%Z →
  float_of_int i = Some (Dyadic (i * 2 ^ (52 - Z.log2 i)) (Z.log2 i - 52)).
Proof.
  intros Hi. unfold float_of_int, round64. cbn [mant expo].
  destruct (Z.eqb_spec i 0) as [|_]; [lia|].
  rewrite Z.abs_eq by lia.
  pose proof (Z.log2_nonneg i) as Hl0.
  assert (Z.log2 i < 53)%Z as Hlog by (apply Z.log2_lt_pow2; lia).
  rewrite Z.max_l by lia.
  destruct (Z.leb_spec (Z.log2 i + 0 - 52) 0); [|lia].
  replace (0 - (Z.log2 i + 0 - 52))%Z with (52 - Z.log2 i)%Z by lia.
  rewrite Z.log2_mul_pow2 by lia.
  destruct (Z.leb_spec 1024 (52 - Z.log2 i + Z.log2 i + (Z.log2 i + 0 - 52)));
    [lia|].
  rewrite Z.sgn_pos by lia. do 2 f_equal; [lia|]. f_equal. lia.
Qed.

Lemma dyadic_Q_unit n E :
  (0 < dyadic_Q (Dyadic n E))%Q → (dyadic_Q (Dyadic n E) <= 1)%Q →
  (1 ≤ n)%Z ∧ (E ≤ 0)%Z ∧ (n ≤ 2 ^ (- E))%Z.
Proof.
  unfold dyadic_Q. cbn [mant expo]. destruct (Z.leb_spec 0 E) as [HE|HE].
  - rewrite <- (Zlt_Qlt 0), <- (Zle_Qle _ 1). intros Hpos Hle.
    assert (0 < 2 ^ E)%Z by (apply Z.pow_pos_nonneg; lia).
    assert (n = 1%Z) as -> by nia.
    assert (E = 0%Z) as ->.
    { destruct (decide (E = 0%Z)); [done|].
      assert (2 ^ 1 ≤ 2 ^ E)%Z by (apply Z.pow_le_mono_r; lia). lia. }
    cbn. lia.
  - assert (0 < 2 ^ (- E))%Z by (apply Z.pow_pos_nonneg; lia).
    unfold Qlt, Qle. cbn. rewrite Z2Pos.id by done. lia.
Qed.

(** X7. In the binary64 arithmetic of the script, a causal proportion
    above 0 and at most 1 gives a gene of [m > 0] SNPs (fewer than
    [2 ^ 53]) at least one causal SNP and at most [m]: the count is
    computed without an exception and the draw without replacement of
    the causal subset is possible. *)
Theorem m_qtl_of_bounds (m : nat) (pqtl : dyadic) :
  is_float64 pqtl →
  (0 < dyadic_Q pqtl)%Q → (dyadic_Q pqtl <= 1)%Q →
  0 < m → (Z.of_nat m < 2 ^ 53)%Z →
  ∃ m_qtl, m_qtl_of m (Finite pqtl) = Some m_qtl
           ∧ (1 ≤ m_qtl ≤ Z.of_nat m)%Z.
Proof.
  destruct pqtl as [n E]. intros (_ & HE & _) Hpos Hle Hm Hm53.
  destruct (dyadic_Q_unit n E Hpos Hle) as (Hn & HE0 & HnE).
  cbn [expo] in HE.
  unfold m_qtl_of. rewrite float_of_int_exact by lia. cbn.
  unfold float_mul. cbn [mant expo].
  remember (Z.of_nat m) as i eqn:Hi.
  assert (1 ≤ i)%Z as Hi1 by lia.
  pose proof (Z.log2_nonneg i) as Hl0.
  assert (Z.log2 i < 53)%Z as Hlog by (apply Z.log2_lt_pow2; lia).
  remember (52 - Z.log2 i)%Z as k eqn:Hk.
  replace (Z.log2 i - 52)%Z with (- k)%Z by lia.
  assert (0 < 2 ^ k)%Z as Hpk by (apply Z.pow_pos_nonneg; lia).
  assert (0 < 2 ^ (- E))%Z as HpE by (apply Z.pow_pos_nonneg; lia).
  assert (1 ≤ i * 2 ^ k)%Z as Hik by nia.
  destruct (round64_bounded (i * 2 ^ k * n) (- k + E) i k)
    as (n' & e & -> & He & Hn1 & Hn2).
  - nia.
  - lia.
  - lia.
  - nia.
  - lia.
  - lia.
  - replace (- (- k + E))%Z with (k + - E)%Z by lia.
    rewrite Z.pow_add_r by lia. nia.
  - cbn. eexists. split; [done|]. by apply ceil_int_bounds.
Qed.

(** 100 SNPs and the double nearest to 0.07: the product is rounded to
    7.000000000000001 and eight SNPs are causal. *)
Lemma m_qtl_of_bounds_witness :
  is_float64 (Dyadic 1261007895663739 (-54))
  ∧ (0 < dyadic_Q (Dyadic 1261007895663739 (-54)))%Q
  ∧ (dyadic_Q (Dyadic 1261007895663739 (-54)) <= 1)%Q
  ∧ m_qtl_of 100 (Finite (Dyadic 1261007895663739 (-54))) = Some 8%Z.
Proof.
  assert (is_float64 (Dyadic 1261007895663739 (-54))) as H1
    by (unfold is_float64; cbn; lia).
  assert (0 < dyadic_Q (Dyadic 1261007895663739 (-54)))%Q as H2
    by reflexivity.
  assert (dyadic_Q (Dyadic 1261007895663739 (-54)) <= 1)%Q as H3
    by (vm_compute; discriminate).
  split_and!; [exact H1 | exact H2 | exact H3 |].
  destruct (m_qtl_of_bounds 100 (Dyadic 1261007895663739 (-54)) H1 H2 H3
              ltac:(lia) ltac:(reflexivity)) as (k & Hk & _).
  rewrite Hk. f_equal. vm_compute in Hk. by injection Hk.
Defined.

(** The double nearest to 0.1 lies above 0.1, and yet ten SNPs give one
    causal SNP: the product is rounded to 1. *)
Example m_qtl_of_tenth :
  m_qtl_of 10 (Finite (Dyadic 3602879701896397 (-55))) = Some 1%Z
  ∧ (1 # 10 < dyadic_Q (Dyadic 3602879701896397 (-55)))%Q.
Proof. split; vm_compute; reflexivity. Qed.

(** ** Standardising the reference pool *)

Section StandardizeFacts.
Local Open Scope R_scope.
Implicit Types (v : list R) (X : list (list R)).

Lemma lookup_mean_axis0_R m X j :
  (j < m)%nat → mean_axis0_R m X !! j = Some (np_mean (column j X)).
Proof.
  intros Hj. unfold mean_axis0_R. by rewrite list_lookup_fmap, lookup_seq_lt.
Qed.

Lemma lookup_std_axis0_R m X j :
  (j < m)%nat → std_axis0_R m X !! j = Some (np_std (column j X)).
Proof.
  intros Hj. unfold std_axis0_R. by rewrite list_lookup_fmap, lookup_seq_lt.
Qed.

Lemma column_standardize mean_pop0 std_pop0 X j mu sd :
  Forall (λ row, (j < length row)%nat) X →
  mean_pop0 !! j = Some mu → std_pop0 !! j = Some sd →
  column j (standardize mean_pop0 std_pop0 X)
  = (λ x, (x - mu) / sd) <$> column j X.
Proof.
  intros Hall Hmu Hsd. unfold standardize.
  induction Hall as [|row X Hrow _ IH]; [done|].
  destruct (lookup_lt_is_Some_2 row j Hrow) as [x Hx].
  rewrite fmap_cons, (column_cons _ _ _ _ Hx), fmap_cons, <- IH.
  apply column_cons. by rewrite !lookup_zip_with, Hx, Hmu, Hsd.
Qed.

Lemma Rsum_affine v mu sd :
  Rsum ((λ x, (x - mu) / sd) <$> v) = (Rsum v - INR (length v) * mu) / sd.
Proof.
  unfold Rsum. induction v as [|x v IH].
  - cbn. lra.
  - rewrite fmap_cons. cbn [foldr length]. rewrite IH, S_INR.
    unfold Rdiv. lra.
Qed.

Lemma np_mean_centred v sd :
  v ≠ [] → np_mean ((λ x, (x - np_mean v) / sd) <$> v) = 0.
Proof.
  intros Hv. unfold np_mean at 1. rewrite Rsum_affine, length_fmap.
  assert (INR (length v) ≠ 0) as Hn.
  { apply not_0_INR. by destruct v. }
  unfold np_mean. unfold Rdiv.
  replace (Rsum v - INR (length v) * (Rsum v * / INR (length v)))
    with 0 by (field; exact Hn).
  lra.
Qed.

Lemma np_var_standardized v :
  np_std v ≠ 0 →
  np_mean ((λ x, (x - np_mean v) / np_std v) <$> v) = 0
  ∧ np_var ((λ x, (x - np_mean v) / np_std v) <$> v) = 1.
Proof.
  intros Hstd.
  assert (v ≠ []) as Hv.
  { intros ->. apply Hstd. unfold np_std, np_var, np_mean, Rsum. cbn.
    unfold Rdiv. rewrite Rmult_0_l. apply sqrt_0. }
  pose proof (np_mean_centred v (np_std v) Hv) as Hmean.
  split; [done|]. unfold np_var at 1. rewrite Hmean.
  rewrite <- list_fmap_compose.
  rewrite (list_fmap_ext _
             ((λ z, z * (/ np_std v * / np_std v))
              ∘ (λ x, (x - np_mean v) * (x - np_mean v))) v);
    [|intros _ x _; cbn; unfold Rdiv; lra].
  rewrite list_fmap_compose, np_mean_scale.
  change (np_mean ((λ x, (x - np_mean v) * (x - np_mean v)) <$> v))
    with (np_var v).
  assert (np_std v * np_std v = np_var v) as Hsq
    by (unfold np_std; apply sqrt_sqrt, np_var_nonneg).
  rewrite <- Hsq. field. exact Hstd.
Qed.

(** X8. Standardised with its own column means and standard deviations,
    the reference pool has mean 0 and variance 1 at every SNP whose
    dosage varies in the pool. Numbers are real numbers. *)
Theorem standardize_pop0 (m : nat) (X_pop0 : list (list Z)) (j : nat) :
  Forall (λ row, length row = m) X_pop0 →
  (j < m)%nat →
  np_std (column j (to_float X_pop0)) ≠ 0 →
  let X := to_float X_pop0 in
  let X_pop0_stdz := standardize (mean_axis0_R m X) (std_axis0_R m X) X in
  np_mean (column j X_pop0_stdz) = 0 ∧ np_var (column j X_pop0_stdz) = 1.
Proof.
  intros Hrows Hj Hstd X X_stdz. subst X_stdz.
  rewrite (column_standardize _ _ X j (np_mean (column j X))
             (np_std (column j X))).
  - by apply np_var_standardized.
  - subst X. unfold to_float. apply Forall_fmap.
    eapply Forall_impl; [exact Hrows|]. intros row Hrow. cbn in Hrow |- *.
    rewrite length_fmap. lia.
  - by apply lookup_mean_axis0_R.
  - by apply lookup_std_axis0_R.
Qed.
End StandardizeFacts.

Lemma standardize_pop0_witness :
  np_std (column 0 (to_float [[0]; [2]]%Z)) ≠ 0%R
  ∧ np_mean (column 0
      (standardize (mean_axis0_R 1 (to_float [[0]; [2]]%Z))
         (std_axis0_R 1 (to_float [[0]; [2]]%Z))
         (to_float [[0]; [2]]%Z))) = 0%R.
Proof.
  assert (np_var (column 0 (to_float [[0]; [2]]%Z)) = 1%R) as Hvar.
  { unfold np_var, np_mean, Rsum. cbn. field. }
  assert (np_std (column 0 (to_float [[0]; [2]]%Z)) ≠ 0%R) as Hstd.
  { unfold np_std. rewrite Hvar, sqrt_1. apply R1_neq_R0. }
  split; [exact Hstd|].
  refine (proj1 (standardize_pop0 1 [[0]; [2]]%Z 0 _ _ Hstd)).
  - repeat constructor.
  - lia.
Defined.

(** ** The oversampling loop only appends *)

Section AccumulatorGrowth.
Context {A : Type}.
Variables (n_rep n_case : Z).
Variables (prevalence_lst pqtl_lst : list string).
Implicit Types (d : draw A) (draws : list (draw A)) (st : state A).

Lemma extend_grows d st k0 k :
  (∀ c, n_collected st !! k = Some c →
     ∃ c', n_collected (extend n_rep n_case d st k0) !! k = Some c'
           ∧ (c ≤ c')%Z)
  ∧ (∀ l, X_case_dict st !! k = Some l →
       ∃ more, X_case_dict (extend n_rep n_case d st k0) !! k
               = Some (l ++ more))
  ∧ (∀ l, X_ctrl_dict st !! k = Some l →
       ∃ more, X_ctrl_dict (extend n_rep n_case d st k0) !! k
               = Some (l ++ more)).
Proof.
  rewrite extend_eq. destruct (short n_rep n_case st k0).
  - cbn. rewrite !lookup_alter. destruct (decide (k0 = k)) as [->|Hne].
    + split_and!.
      * intros c ->. cbn. eexists. split; [done|]. lia.
      * intros l ->. cbn. eauto.
      * intros l ->. cbn. eauto.
    + split_and!; [intros c Hc; exists c; split; [done|lia]| |];
        intros l Hl; exists []; by rewrite app_nil_r.
  - split_and!; [intros c Hc; exists c; split; [done|lia]| |];
      intros l Hl; exists []; by rewrite app_nil_r.
Qed.

Lemma foldl_extend_grows d st l k :
  (∀ c, n_collected st !! k = Some c →
     ∃ c', n_collected (foldl (extend n_rep n_case d) st l) !! k = Some c'
           ∧ (c ≤ c')%Z)
  ∧ (∀ cases, X_case_dict st !! k = Some cases →
       ∃ more, X_case_dict (foldl (extend n_rep n_case d) st l) !! k
               = Some (cases ++ more))
  ∧ (∀ ctrls, X_ctrl_dict st !! k = Some ctrls →
       ∃ more, X_ctrl_dict (foldl (extend n_rep n_case d) st l) !! k
               = Some (ctrls ++ more)).
Proof.
  revert st. induction l as [|k0 l IH]; intros st.
  { split_and!; [intros c Hc; exists c; split; [done|lia]| |];
      intros x Hx; exists []; by rewrite app_nil_r. }
  cbn [foldl].
  destruct (extend_grows d st k0 k) as (E1 & E2 & E3).
  destruct (IH (extend n_rep n_case d st k0)) as (I1 & I2 & I3).
  split_and!.
  - intros c Hc. destruct (E1 c Hc) as (c1 & Hc1 & ?).
    destruct (I1 c1 Hc1) as (c2 & Hc2 & ?). exists c2. split; [done|lia].
  - intros x Hx. destruct (E2 x Hx) as (m1 & Hm1).
    destruct (I2 _ Hm1) as (m2 & Hm2). exists (m1 ++ m2).
    by rewrite app_assoc.
  - intros x Hx. destruct (E3 x Hx) as (m1 & Hm1).
    destruct (I3 _ Hm1) as (m2 & Hm2). exists (m1 ++ m2).
    by rewrite app_assoc.
Qed.

(** X9. The oversampling loop only ever appends: for every combination
    the count it ends with is at least the count it started from, and
    the lists of case batches and of control batches it ends with extend
    the lists it started from. *)
Theorem accumulate_grows draws st st' k :
  accumulate n_rep n_case prevalence_lst pqtl_lst draws st = Some st' →
  (∀ c, n_collected st !! k = Some c →
     ∃ c', n_collected st' !! k = Some c' ∧ (c ≤ c')%Z)
  ∧ (∀ cases, X_case_dict st !! k = Some cases →
       ∃ more, X_case_dict st' !! k = Some (cases ++ more))
  ∧ (∀ ctrls, X_ctrl_dict st !! k = Some ctrls →
       ∃ more, X_ctrl_dict st' !! k = Some (ctrls ++ more)).
Proof.
  revert st. induction draws as [|d ds IH]; intros st; rewrite accumulate_eq;
    destruct (any_short _ _ _ _ st); try done;
    try (intros [= <-];
         split_and!; [intros c Hc; exists c; split; [done|lia]| |];
         intros x Hx; exists []; by rewrite app_nil_r).
  intros Hacc. destruct (IH _ Hacc) as (I1 & I2 & I3).
  destruct (foldl_extend_grows d st
              (combos prevalence_lst pqtl_lst) k) as (E1 & E2 & E3).
  split_and!.
  - intros c Hc. destruct (E1 c Hc) as (c1 & Hc1 & ?).
    destruct (I1 c1 Hc1) as (c2 & Hc2 & ?). exists c2. split; [done|lia].
  - intros x Hx. destruct (E2 x Hx) as (m1 & Hm1).
    destruct (I2 _ Hm1) as (m2 & Hm2). exists (m1 ++ m2).
    by rewrite app_assoc.
  - intros x Hx. destruct (E3 x Hx) as (m1 & Hm1).
    destruct (I3 _ Hm1) as (m2 & Hm2). exists (m1 ++ m2).
    by rewrite app_assoc.
Qed.

End AccumulatorGrowth.

Lemma accumulate_grows_witness :
  accumulate 1 2 ["0.9"] ["1"] [sample_batch_balanced]
    (realize ["0.9"] ["1"] sample_pop0_none).1
  = Some (sampling_round 1 2 ["0.9"] ["1"] sample_batch_balanced
            (realize ["0.9"] ["1"] sample_pop0_none).1)
  ∧ ∃ more,
      X_case_dict (sampling_round 1 2 ["0.9"] ["1"] sample_batch_balanced
                     (realize ["0.9"] ["1"] sample_pop0_none).1) !! sample_key
      = Some ([[]] ++ more).
Proof.
  assert (accumulate 1 2 ["0.9"] ["1"] [sample_batch_balanced]
            (realize ["0.9"] ["1"] sample_pop0_none).1
          = Some (sampling_round 1 2 ["0.9"] ["1"] sample_batch_balanced
                    (realize ["0.9"] ["1"] sample_pop0_none).1)) as H
    by (vm_compute; reflexivity).
  split; [exact H|].
  refine (proj1 (proj2 (accumulate_grows 1 2 ["0.9"] ["1"] _ _ _ sample_key H))
            [[]] _).
  vm_compute. reflexivity.
Defined.


(** ** How many rows the LD panels need *)

Section LdSupply.
Context {A : Type}.
Implicit Types (X pool : list A) (idx : list nat).

Lemma length_delete_from s idx X :
  length (delete_from s idx X)
  + length (filter (λ i, i ∈ idx) (seq s (length X))) = length X.
Proof.
  revert s. induction X as [|x X IH]; intros s; [done|].
  cbn [delete_from length seq]. specialize (IH (S s)).
  case_bool_decide as Hin.
  - rewrite filter_cons_True by done. cbn [length]. lia.
  - rewrite filter_cons_False by done. cbn [length]. lia.
Qed.

(** [np.delete] removes every listed position once, however often it is
    listed. *)
Lemma length_np_delete X idx :
  Forall (λ i, i < length X) idx →
  length (np_delete X (np_unique idx)) + length (np_unique idx) = length X.
Proof.
  intros Hall. unfold np_delete.
  pose proof (length_delete_from 0 (np_unique idx) X) as Hsplit.
  assert (length (np_unique idx)
          = length (filter (λ i, i ∈ np_unique idx) (seq 0 (length X))))
    as Hlen; [|lia].
  apply Permutation_length, NoDup_Permutation.
  - apply NoDup_np_unique.
  - apply NoDup_filter, NoDup_seq.
  - intros i. rewrite list_elem_of_filter, elem_of_seq. split.
    + intros Hi. split; [done|].
      pose proof (proj1 (elem_of_np_unique idx i) Hi) as Hi'.
      pose proof (proj1 (Forall_forall _ _) Hall i Hi'). cbn in *. lia.
    + by intros [? _].
Qed.

Lemma length_concat_uniform (L : list (list A)) c :
  Forall (λ p, length p = c) L → length (concat L) = length L * c.
Proof.
  induction 1 as [|p L Hp _ IH]; [done|]. cbn. rewrite length_app. lia.
Qed.

Lemma length_concat_panels (n_rep : Z) sizes (panels : list (list (list A))) :
  (0 ≤ n_rep)%Z →
  Forall2 (λ n_ld panel,
             length panel = Z.to_nat n_rep
             ∧ Forall (λ p : list A, length p = Z.to_nat n_ld) panel)
          sizes panels →
  Forall (λ n, 0 ≤ n)%Z sizes →
  Z.of_nat (length (concat (concat panels)))
  = (n_rep * foldr Z.add 0 sizes)%Z.
Proof.
  intros Hr. induction 1 as [|n_ld panel sizes panels [Hl Hp] _ IH];
    intros Hnn; [cbn; lia|].
  apply Forall_cons in Hnn as [Hn Hnn]. cbn.
  rewrite concat_app, length_app, Nat2Z.inj_add, IH by done.
  rewrite (length_concat_uniform _ _ Hp), Hl. nia.
Qed.

Lemma foldr_add_nonneg (sizes : list Z) :
  Forall (λ n, 0 ≤ n)%Z sizes → (0 ≤ foldr Z.add 0 sizes)%Z.
Proof. induction 1; cbn; lia. Qed.

Lemma ld_panels_is_Some (n_rep : Z) sizes start pool :
  (0 ≤ n_rep)%Z → Forall (λ n, 0 ≤ n)%Z sizes → (0 ≤ start)%Z →
  (start + n_rep * foldr Z.add 0 sizes ≤ Z.of_nat (length pool))%Z →
  is_Some (ld_panels n_rep sizes start pool).
Proof.
  intros Hr Hnn. revert start.
  induction Hnn as [|n_ld sizes Hn Hnn IH]; intros start Hs Hlen; cbn.
  { by eexists. }
  cbn in Hlen. pose proof (foldr_add_nonneg sizes Hnn) as Hsum.
  rewrite np_reshape_is_Some; [|done|done|].
  - cbn. destruct (IH (start + n_rep * n_ld)%Z) as [rest ->]; [nia|nia|].
    cbn. by eexists.
  - rewrite py_slice_nonneg by nia. rewrite length_take, length_drop. nia.
Qed.
End LdSupply.

Section LdSupplyRealize.
Context {A : Type}.
Variables (n_rep : Z) (prevalence_lst pqtl_lst : list string).
Variable n_ld_int : list Z.

Lemma used_in_range (pop0 : draw A) :
  Forall (λ i, i < length (rows pop0))
    (concat (realize prevalence_lst pqtl_lst pop0).2).
Proof.
  rewrite used_realize. apply Forall_forall. intros i Hi.
  apply elem_of_concat in Hi as (idx & Hi & Hidx).
  apply list_elem_of_bind in Hidx as (k & Hidx & _).
  apply elem_of_cons in Hidx as [-> | Hidx].
  - by apply (proj1 (Forall_forall _ _) (i_case_in_range pop0 k)).
  - apply list_elem_of_singleton in Hidx as ->.
    by apply (proj1 (Forall_forall _ _) (i_ctrl_in_range pop0 k)).
Qed.

(** X11. The LD panels can be cut exactly when the initial pool holds,
    beyond the individuals that some combination took as a case or as a
    control, at least [n_rep] times the sum of the LD sizes; an
    individual taken by several combinations counts once. *)
Theorem X_ld_lst_is_Some (pop0 : draw A) :
  (0 ≤ n_rep)%Z → Forall (λ n, 0 ≤ n)%Z n_ld_int →
  let used := (realize prevalence_lst pqtl_lst pop0).2 in
  is_Some (X_ld_lst n_rep n_ld_int pop0 used) ↔
  (n_ld_total n_rep n_ld_int + Z.of_nat (length (X_idx_used used))
   ≤ Z.of_nat (length (rows pop0)))%Z.
Proof.
  intros Hr Hnn used.
  pose proof (length_np_delete (rows pop0) (concat used)
                (used_in_range pop0)) as Hdel.
  fold (X_idx_used used) in Hdel.
  assert (0 ≤ n_ld_total n_rep n_ld_int)%Z as Htot.
  { unfold n_ld_total. apply Z.mul_nonneg_nonneg; [|done].
    by apply foldr_add_nonneg. }
  unfold X_ld_lst. split.
  - intros [panels Hp].
    destruct (ld_panels_spec _ _ _ _ _ (Z.le_refl 0) Hp) as (Hall & _ & Hcat).
    pose proof (length_concat_panels _ _ _ Hr Hall Hnn) as Hlen.
    rewrite Hcat, drop_0, length_take in Hlen. unfold ld_pool in Hlen.
    rewrite py_prefix_nonneg, length_take in Hlen by done.
    unfold n_ld_total in *. lia.
  - intros Hle. apply ld_panels_is_Some; [done|done|lia|].
    unfold ld_pool. rewrite py_prefix_nonneg, length_take by done.
    unfold n_ld_total in *. lia.
Qed.
End LdSupplyRealize.

Lemma X_ld_lst_is_Some_witness :
  is_Some (X_ld_lst 1 [1; 1]%Z sample_pop0_tagged
             (realize ["0.9"] ["1"] sample_pop0_tagged).2)
  ∧ ¬ is_Some (X_ld_lst 1 [1; 2]%Z sample_pop0_tagged
                 (realize ["0.9"] ["1"] sample_pop0_tagged).2).
Proof.
  split.
  - apply (X_ld_lst_is_Some 1 ["0.9"] ["1"] [1; 1]%Z sample_pop0_tagged);
      [lia | repeat constructor; lia | vm_compute; discriminate].
  - intros H.
    apply (X_ld_lst_is_Some 1 ["0.9"] ["1"] [1; 2]%Z sample_pop0_tagged)
      in H; [|lia | repeat constructor; lia].
    vm_compute in H. by apply H.
Defined.

(** ** Sample identifiers of the LD panels *)

Lemma take_seqZ (a n k : Z) :
  (0 ≤ n)%Z → (0 ≤ k)%Z → take (Z.to_nat n) (seqZ a (n + k)) = seqZ a n.
Proof.
  intros Hn Hk. rewrite seqZ_app by done.
  apply take_app_length'. by rewrite length_seqZ.
Qed.

(** X12. When the LD panels can be cut, so can their identifiers, panel
    by panel as many as genotype rows; read panel after panel and
    replicate after replicate the identifiers are 1, 2, ... up to the
    total number of LD individuals, each used as family and as individual
    identifier, and no two LD individuals share one. *)
Theorem iid_ld_lst_spec {A} (n_rep n_case : Z) (n_ld_int : list Z)
    (pop0 : draw A) (used : list (list nat)) panels :
  (0 ≤ n_rep)%Z → (0 ≤ n_case)%Z → Forall (λ n, 0 ≤ n)%Z n_ld_int →
  X_ld_lst n_rep n_ld_int pop0 used = Some panels →
  ∃ ids, iid_ld_lst n_rep n_case n_ld_int = Some ids
    ∧ Forall2 (λ panel id_panel,
                 Forall2 (λ p q, length p = length q) panel id_panel)
              panels ids
    ∧ concat (concat ids)
      = (λ i : Z, (pretty i, pretty i))
          <$> seqZ 1 (n_ld_total n_rep n_ld_int)
    ∧ NoDup (concat (concat ids)).
Proof.
  intros Hr Hc Hnn Hp.
  pose proof (foldr_add_nonneg _ Hnn) as Hsum.
  assert (0 ≤ n_ld_total n_rep n_ld_int)%Z as Htot
    by (unfold n_ld_total; nia).
  assert (0 ≤ tot_n_case n_rep n_case * 2)%Z as Htc
    by (unfold tot_n_case; nia).
  destruct (ld_panels_is_Some n_rep n_ld_int 0
              (iid n_rep n_case n_ld_int) Hr Hnn (Z.le_refl 0))
    as [ids Hids].
  { unfold iid. rewrite length_fmap, length_seqZ.
    unfold n_ld_total in *. lia. }
  exists ids. split; [exact Hids|].
  unfold X_ld_lst in Hp.
  destruct (ld_panels_spec _ _ _ _ _ (Z.le_refl 0) Hp) as (Hall1 & _ & _).
  destruct (ld_panels_spec _ _ _ _ _ (Z.le_refl 0) Hids)
    as (Hall2 & _ & Hcat).
  assert (concat (concat ids)
          = (λ i : Z, (pretty i, pretty i))
              <$> seqZ 1 (n_ld_total n_rep n_ld_int)) as Hids_eq.
  { rewrite Hcat, drop_0. unfold iid. rewrite <- fmap_take. f_equal.
    replace (n_rep * foldr Z.add 0 n_ld_int)%Z
      with (n_ld_total n_rep n_ld_int) by (unfold n_ld_total; lia).
    rewrite (Z.add_comm (tot_n_case n_rep n_case * 2)).
    by apply take_seqZ. }
  split_and!.
  - clear -Hall1 Hall2. revert ids Hall2.
    induction Hall1 as [|n_ld panel sizes panels [Hl1 Hp1] _ IH];
      intros ids Hall2; inversion Hall2 as [|? id_panel ? ids' [Hl2 Hp2] Hrest];
      subst; constructor; [|by apply IH].
    apply Forall2_same_length_lookup_2; [congruence|].
    intros i p q Hi Hq.
    pose proof (Forall_lookup_1 _ _ _ _ Hp1 Hi) as H1.
    pose proof (Forall_lookup_1 _ _ _ _ Hp2 Hq) as H2.
    cbn in H1, H2. congruence.
  - exact Hids_eq.
  - rewrite Hids_eq. apply NoDup_fmap_2_strong; [|apply NoDup_seqZ].
    intros i j _ _ [= Hij%(inj pretty) _]. done.
Qed.

Lemma iid_ld_lst_spec_witness :
  X_ld_lst 1 [1; 1]%Z sample_pop0_tagged
    (realize ["0.9"] ["1"] sample_pop0_tagged).2
  = Some [[[(5, [0; 1])]]; [[(6, [2; 1])]]]%Z
  ∧ iid_ld_lst 1 2 [1; 1]%Z = Some [[[("1", "1")]]; [[("2", "2")]]].
Proof.
  assert (X_ld_lst 1 [1; 1]%Z sample_pop0_tagged
            (realize ["0.9"] ["1"] sample_pop0_tagged).2
          = Some [[[(5, [0; 1])]]; [[(6, [2; 1])]]]%Z) as H
    by (vm_compute; reflexivity).
  split; [exact H|].
  destruct (iid_ld_lst_spec 1 2 [1; 1]%Z sample_pop0_tagged _ _
              ltac:(lia) ltac:(lia) ltac:(repeat constructor; lia) H)
    as (ids & Hids & _).
  vm_compute. reflexivity.
Defined.

(** ** The GWAS sample and its labels *)

(** X13. In every replicate the GWAS sample is the block of cases
    followed by the block of controls, and the label vector of the linear
    test has one entry per row: 1 on the rows of the cases and -1 on the
    rows of the controls. *)
Theorem gwa_sample_layout {A} (n_rep n_case : Z) (st : state A) k
    case_parts ctrl_parts gwa :
  partition_combo n_rep n_case st k = Some (case_parts, ctrl_parts, gwa) →
  ∃ y, y_stdz n_case = Some y
    ∧ ∀ j sample, gwa !! j = Some sample →
        ∃ cases ctrls,
          case_parts !! j = Some cases ∧ ctrl_parts !! j = Some ctrls
          ∧ sample = cases ++ ctrls
          ∧ length sample = length y
          ∧ ∀ i,
              (i < Z.to_nat n_case →
                 sample !! i = cases !! i ∧ y !! i = Some 1%R)
              ∧ (Z.to_nat n_case ≤ i < 2 * Z.to_nat n_case →
                 sample !! i = ctrls !! (i - Z.to_nat n_case)
                 ∧ y !! i = Some (-1)%R).
Proof.
  intros Hpart.
  destruct (X_case_dict st !! k) as [cs|] eqn:Hcases;
    [|by unfold partition_combo in Hpart; rewrite Hcases in Hpart].
  destruct (X_ctrl_dict st !! k) as [ts|] eqn:Hctrls;
    [|by unfold partition_combo in Hpart; rewrite Hcases, Hctrls in Hpart].
  destruct (partition_combo_Some _ _ st k _ _ _ _ _ Hcases Hctrls Hpart)
    as (_ & Hc & _ & _ & _ & _ & Hf1 & Hf2 & ->).
  unfold y_stdz. destruct (Z.ltb_spec n_case 0) as [?|_]; [lia|].
  eexists. split; [reflexivity|]. intros j sample Hj.
  apply lookup_zip_with_Some in Hj as (cases & ctrls & -> & Hcj & Htj).
  exists cases, ctrls.
  pose proof (Forall_lookup_1 _ _ _ _ Hf1 Hcj) as Hl1.
  pose proof (Forall_lookup_1 _ _ _ _ Hf2 Htj) as Hl2.
  cbn in Hl1, Hl2.
  split_and!; [done|done|done| |].
  - rewrite !length_app, !length_replicate. lia.
  - intros i. split.
    + intros Hi. rewrite !lookup_app_l by (rewrite ?length_replicate; lia).
      split; [done|]. by apply lookup_replicate_2.
    + intros Hi. rewrite !lookup_app_r by (rewrite ?length_replicate; lia).
      rewrite Hl1, length_replicate. split; [done|].
      apply lookup_replicate_2. lia.
Qed.

Lemma gwa_sample_layout_witness :
  partition_combo 1 2 (realize ["0.9"] ["1"] sample_pop0_tagged).1 sample_key
  = Some ([[(1, [2; 1]); (2, [1; 2])]], [[(3, [0; 1]); (4, [0; 0])]],
          [[(1, [2; 1]); (2, [1; 2]); (3, [0; 1]); (4, [0; 0])]])%Z
  ∧ ∃ y, y_stdz 2 = Some y.
Proof.
  assert (partition_combo 1 2 (realize ["0.9"] ["1"] sample_pop0_tagged).1
            sample_key
          = Some ([[(1, [2; 1]); (2, [1; 2])]], [[(3, [0; 1]); (4, [0; 0])]],
                  [[(1, [2; 1]); (2, [1; 2]); (3, [0; 1]); (4, [0; 0])]])%Z)
    as H by (vm_compute; reflexivity).
  split; [exact H|].
  destruct (gwa_sample_layout 1 2 _ sample_key _ _ _ H) as (y & Hy & _).
  exists y. exact Hy.
Defined.

(** ** The linear test *)

Section LinearFacts.
Local Open Scope R_scope.
Implicit Types (a b : list R).

Lemma dot_app a a' b b' :
  length a = length b → dot (a ++ a') (b ++ b') = dot a b + dot a' b'.
Proof.
  intros Hlen. unfold dot, Rsum. revert b Hlen.
  induction a as [|x a IH]; intros [|y b] Hlen; try done; cbn in *.
  - lra.
  - rewrite IH by lia. lra.
Qed.

Lemma dot_replicate a c :
  dot a (replicate (length a) c) = c * Rsum a.
Proof.
  unfold dot, Rsum. induction a as [|x a IH]; cbn; [lra|].
  rewrite IH. lra.
Qed.

Lemma column_app {A} j (X Y : list (list A)) :
  column j (X ++ Y) = column j X ++ column j Y.
Proof. unfold column. apply omap_app. Qed.

Lemma length_column {A} j (X : list (list A)) :
  Forall (λ row, (j < length row)%nat) X → length (column j X) = length X.
Proof.
  induction 1 as [|row X Hrow _ IH]; [done|].
  destruct (lookup_lt_is_Some_2 row j Hrow) as [x Hx].
  rewrite (column_cons _ _ _ _ Hx). cbn. by rewrite IH.
Qed.

(** X14. Over a replicate of [n_case] cases followed by [n_case]
    controls, the linear score of a SNP is the sum of the standardised
    dosages of the cases minus that of the controls, divided by the square
    root of [n_gwa]; exchanging cases and controls negates every score. *)
Theorem linear_z_spec (n_gwa n_case : Z) (m : nat)
    (cases ctrls : list (list R)) y :
  y_stdz n_case = Some y →
  length cases = Z.to_nat n_case → length ctrls = Z.to_nat n_case →
  Forall (λ row, length row = m) cases →
  Forall (λ row, length row = m) ctrls →
  ∃ z z',
    linear_z n_gwa m (cases ++ ctrls) y = Some z
    ∧ linear_z n_gwa m (ctrls ++ cases) y = Some z'
    ∧ length z = m
    ∧ (∀ j, (j < m)%nat →
         z !! j = Some ((Rsum (column j cases) - Rsum (column j ctrls))
                        / sqrt (IZR n_gwa)))
    ∧ z' = Ropp <$> z.
Proof.
  intros Hy Hl1 Hl2 Hw1 Hw2. unfold y_stdz in Hy.
  destruct (n_case <? 0)%Z; [done|]. injection Hy as <-.
  assert (∀ (C T : list (list R)) j,
            length C = Z.to_nat n_case → length T = Z.to_nat n_case →
            Forall (λ row, length row = m) C →
            Forall (λ row, length row = m) T → (j < m)%nat →
            dot (column j (C ++ T))
              (replicate (Z.to_nat n_case) 1
               ++ replicate (Z.to_nat n_case) (-1))
            = Rsum (column j C) - Rsum (column j T)) as Hdot.
  { intros C T j HC HT HwC HwT Hj.
    assert (length (column j C) = Z.to_nat n_case) as HlC.
    { rewrite length_column; [done|].
      eapply Forall_impl; [exact HwC|]. cbn. intros; lia. }
    assert (length (column j T) = Z.to_nat n_case) as HlT.
    { rewrite length_column; [done|].
      eapply Forall_impl; [exact HwT|]. cbn. intros; lia. }
    rewrite column_app, dot_app by (by rewrite length_replicate).
    rewrite <- HlC at 1. rewrite <- HlT at 1. rewrite !dot_replicate. lra. }
  unfold linear_z.
  rewrite !bool_decide_eq_true_2
    by (rewrite !length_app, !length_replicate; lia).
  eexists _, _. split_and!; [reflexivity | reflexivity | | |].
  - by rewrite length_fmap, length_seq.
  - intros j Hj. rewrite list_lookup_fmap, lookup_seq_lt by done. cbn.
    by rewrite Hdot.
  - rewrite <- list_fmap_compose. apply list_fmap_ext.
    intros i j Hij. apply lookup_seq in Hij as [-> Hj]. cbn.
    rewrite !Hdot by done. unfold Rdiv. lra.
Qed.
End LinearFacts.

Lemma linear_z_spec_witness :
  y_stdz 1 = Some [1; -1]%R
  ∧ ∃ z, linear_z 4 1 ([[1]] ++ [[-1]])%R [1; -1]%R = Some z.
Proof.
  assert (y_stdz 1 = Some [1; -1]%R) as H by reflexivity.
  split; [exact H|].
  destruct (linear_z_spec 4 1 1 [[1]]%R [[-1]]%R _ H eq_refl eq_refl
              ltac:(repeat constructor) ltac:(repeat constructor))
    as (z & _ & Hz & _).
  exists z. exact Hz.
Defined.

(** ** Direction of the chi-squared score *)

Lemma Qltb_cross (a b c d : Z) :
  (0 < a)%Z → (0 < b)%Z → (0 < c)%Z → (0 < d)%Z →
  Qltb (inject_Z b / inject_Z d) (inject_Z a / inject_Z c) = true
  ↔ (b * c < a * d)%Z.
Proof.
  intros Ha Hb Hc Hd.
  destruct a as [|pa|], b as [|pb|], c as [|pc|], d as [|pd|]; try lia.
  unfold Qltb, Qdiv, Qmult, Qinv, inject_Z. cbn.
  rewrite Z.ltb_lt, ?Pos.mul_1_r, ?Pos.mul_1_l. lia.
Qed.

Lemma x_of_Z_pos z : (0 < z)%Z → x_of_Z z = XNum (inject_Z z).
Proof. intros Hz. unfold x_of_Z. by destruct (Z.eqb_spec z 0); [lia|]. Qed.

Lemma inject_Z_pos z : (0 < z)%Z → (0 < inject_Z z)%Q.
Proof. intros Hz. by rewrite <- (Zlt_Qlt 0). Qed.

(** With second cells [T - a] and [T - c], as the code fills them, the
    odds ratio exceeds 1 exactly when [a] exceeds [c]. *)
Lemma odds_ratio_direction (T a c : Z) :
  (0 ≤ a < T)%Z → (0 ≤ c < T)%Z →
  xgt (odds_ratio (Table a (T - a) c (T - c))) (x_of_Z 1) = true
  ↔ (c < a)%Z.
Proof.
  intros Ha Hc. unfold odds_ratio. cbn [t00 t01 t10 t11].
  rewrite xgt_ratio
    by (apply xnonneg_div; apply xnonneg_of_Z; lia).
  rewrite (x_of_Z_pos (T - a)), (x_of_Z_pos (T - c)) by lia.
  pose proof (inject_Z_pos (T - a) ltac:(lia)) as Hb.
  pose proof (inject_Z_pos (T - c) ltac:(lia)) as Hd.
  assert (0 < inject_Z (T - a) / inject_Z (T - c))%Q as Hbd.
  { apply Qlt_shift_div_l; [done|]. by rewrite Qmult_0_l. }
  destruct (decide (c = 0%Z)) as [->|Hc0], (decide (a = 0%Z)) as [->|Ha0].
  - cbn. split; [done|lia].
  - rewrite (x_of_Z_pos a) by lia. cbn.
    rewrite Qneg_pos by (apply inject_Z_pos; lia). cbn. split; [lia|done].
  - rewrite (x_of_Z_pos c) by lia. cbn [x_of_Z Z.eqb xdiv].
    rewrite Qneg_pos by (apply inject_Z_pos; lia). unfold xgt. cbn.
    rewrite Qltb_pos_0 by done. split; [done|lia].
  - rewrite (x_of_Z_pos a), (x_of_Z_pos c) by lia. unfold xgt. cbn.
    rewrite Qltb_cross by lia. nia.
Qed.

(** X15. On the tables the code builds from dosages in 0..2 of groups
    smaller than [n_gwa], the chi-squared score is the positive square
    root of the statistic exactly when the cases carry more A1 alleles
    than the controls, and its negation otherwise. *)
Theorem chi2_z_direction (chi2_contingency : table → option R)
    (n_gwa : Z) (m : nat) (X_case_i X_ctrl_i : list (list Z)) t stat :
  Forall (Forall (λ z, 0 ≤ z ≤ 2)%Z) X_case_i →
  Forall (Forall (λ z, 0 ≤ z ≤ 2)%Z) X_ctrl_i →
  (Z.of_nat (length X_case_i) < n_gwa)%Z →
  (Z.of_nat (length X_ctrl_i) < n_gwa)%Z →
  t ∈ allele_tables n_gwa m X_case_i X_ctrl_i →
  chi2_contingency t = Some stat →
  chi2_z chi2_contingency t
  = Some (if bool_decide (t10 t < t00 t)%Z
          then sqrt stat else (- sqrt stat)%R).
Proof.
  intros Hcase Hctrl Hn1 Hn2 (j & Hj)%list_elem_of_lookup_1 Hstat.
  assert (j < m) as Hlt.
  { apply lookup_lt_Some in Hj. unfold allele_tables in Hj.
    rewrite !length_zip_with, !length_fmap in Hj. unfold sum_axis0 in Hj.
    rewrite !length_fmap, !length_seq in Hj. lia. }
  rewrite allele_tables_lookup in Hj by done. injection Hj as <-.
  pose proof (A1_count_bounds j _ Hcase) as Ha.
  pose proof (A1_count_bounds j _ Hctrl) as Hc.
  unfold chi2_z. rewrite Hstat. cbn [mbind option_bind t00 t10]. f_equal.
  pose proof (odds_ratio_direction (n_gwa * 2) (A1_count j X_case_i)
                (A1_count j X_ctrl_i) ltac:(lia) ltac:(lia)) as Hdir.
  case_bool_decide as Hlt'.
  - by rewrite (proj2 Hdir Hlt').
  - destruct (xgt _ _); [|done]. by pose proof (proj1 Hdir eq_refl).
Qed.

Lemma chi2_z_direction_witness :
  Table 2 6 1 7 ∈ allele_tables 4 1 [[1]; [1]]%Z [[0]; [1]]%Z
  ∧ chi2_z (λ _, Some 4%R) (Table 2 6 1 7) = Some (sqrt 4).
Proof.
  assert (Table 2 6 1 7 ∈ allele_tables 4 1 [[1]; [1]]%Z [[0]; [1]]%Z) as H
    by (apply list_elem_of_singleton; reflexivity).
  split; [exact H|].
  refine (chi2_z_direction (λ _, Some 4%R) 4 1 [[1]; [1]]%Z [[0]; [1]]%Z
            _ 4%R _ _ _ _ H eq_refl).
  - repeat constructor; lia.
  - repeat constructor; lia.
  - cbn. lia.
  - cbn. lia.
Defined.

(** ** The three layouts of a summary-statistic file *)

Lemma fmap_zip_with_l {A B C D} (f : A → B → C) (h : C → D) (g : A → D)
    (l : list A) (k : list B) :
  (∀ x y, h (f x y) = g x) → length l = length k →
  h <$> zip_with f l k = g <$> l.
Proof.
  intros Hh. revert k. induction l as [|x l IH]; intros [|y k] Hlen;
    try done. cbn. rewrite Hh. f_equal. apply IH. cbn in Hlen. lia.
Qed.

Lemma fmap_zip_with_r {A B C D} (f : A → B → C) (h : C → D) (g : B → D)
    (l : list A) (k : list B) :
  (∀ x y, h (f x y) = g y) → length l = length k →
  h <$> zip_with f l k = g <$> k.
Proof.
  intros Hh. revert k. induction l as [|x l IH]; intros [|y k] Hlen;
    try done. cbn. rewrite Hh. f_equal. apply IH. cbn in Hlen. lia.
Qed.

Lemma fmap_zip_with_snd {A B C} (f : A → B → C) (h : C → B)
    (l : list A) (k : list B) :
  (∀ x y, h (f x y) = y) → length l = length k →
  h <$> zip_with f l k = k.
Proof.
  intros Hh Hlen. rewrite (fmap_zip_with_r f h (λ y, y)) by done.
  apply list_fmap_id.
Qed.

Section SumstatLayout.
Variable V : Type.
Variable two_sided_p : V → V.
Variable n_gwa : Z.
Variable plink_bim_i : list bim_row.

(** X16. [write_sumstats] goes through exactly when the score array holds,
    for each of the [n_rep] replicates, one score per SNP of the gene.
    The three files of a replicate then list the SNPs of the gene in
    their order and carry the same scores; the generic file carries the
    p-values of these scores, and the LDER file names A1 as [a0] and A2
    as [a1]. *)
Theorem write_sumstats_spec (n_rep : Z) (z_ : list (list V)) :
  (is_Some (write_sumstats V two_sided_p n_gwa plink_bim_i n_rep z_) ↔
   ∀ j, j < Z.to_nat n_rep →
        ∃ z_j, z_ !! j = Some z_j ∧ length z_j = length plink_bim_i)
  ∧ ∀ files,
      write_sumstats V two_sided_p n_gwa plink_bim_i n_rep z_ = Some files →
      length files = Z.to_nat n_rep
      ∧ ∀ j generic lder ldak, files !! j = Some (generic, lder, ldak) →
          ∃ z_j, z_ !! j = Some z_j
            ∧ ss_Z V <$> generic = z_j
            ∧ lder_z V <$> lder = z_j
            ∧ ldak_Z V <$> ldak = z_j
            ∧ ss_P V <$> generic = two_sided_p <$> z_j
            ∧ ss_SNP V <$> generic = bim_SNP <$> plink_bim_i
            ∧ lder_snp V <$> lder = bim_SNP <$> plink_bim_i
            ∧ ldak_Predictor V <$> ldak = bim_SNP <$> plink_bim_i
            ∧ lder_a0 V <$> lder = bim_A1 <$> plink_bim_i
            ∧ lder_a1 V <$> lder = bim_A2 <$> plink_bim_i.
Proof.
  split; [apply write_sumstats_is_Some|]. unfold write_sumstats.
  intros files Hfiles. pose proof (length_mapM _ _ _ Hfiles) as Hlen.
    rewrite length_seq in Hlen. split; [done|].
    apply mapM_Some in Hfiles. intros j generic lder ldak Hj.
    destruct (Forall2_lookup_r _ _ _ _ _ Hfiles Hj) as (j' & Hj' & Hf).
    apply lookup_seq in Hj' as [-> _]. cbn in Hf.
    destruct (z_ !! j) as [z_j|]; [|done]. cbn in Hf.
    exists z_j. split; [done|]. unfold sumstat_files in Hf.
    case_bool_decide as Hl; [|done]. injection Hf as <- <- <-.
    split_and!;
      first [ by apply fmap_zip_with_snd
            | by apply fmap_zip_with_r
            | by apply fmap_zip_with_l ].
Qed.
End SumstatLayout.

Lemma write_sumstats_spec_witness :
  write_sumstats Z (λ z, z) 5 sample_bim 1 [[1; 2; 3]%Z]
  = Some [(zip_with (λ s z, SumstatRow Z (bim_CHR s) (bim_BP s) z
                              (bim_SNP s) (bim_A1 s) (bim_A2 s) z 5%Z)
             sample_bim [1; 2; 3]%Z,
           zip_with (λ s z, LderRow Z (bim_SNP s) (bim_CHR s) (bim_A1 s)
                              (bim_A2 s) z) sample_bim [1; 2; 3]%Z,
           zip_with (λ s z, LdakRow Z (bim_SNP s) (bim_A1 s) (bim_A2 s)
                              5%Z z) sample_bim [1; 2; 3]%Z)]
  ∧ length [(zip_with (λ s z, SumstatRow Z (bim_CHR s) (bim_BP s) z
                              (bim_SNP s) (bim_A1 s) (bim_A2 s) z 5%Z)
             sample_bim [1; 2; 3]%Z,
           zip_with (λ s z, LderRow Z (bim_SNP s) (bim_CHR s) (bim_A1 s)
                              (bim_A2 s) z) sample_bim [1; 2; 3]%Z,
           zip_with (λ s z, LdakRow Z (bim_SNP s) (bim_A1 s) (bim_A2 s)
                              5%Z z) sample_bim [1; 2; 3]%Z)] = Z.to_nat 1.
Proof.
  split; [reflexivity|].
  exact (proj1 (proj2 (write_sumstats_spec Z (λ z, z) 5 sample_bim 1
                         [[1; 2; 3]%Z]) _ eq_refl)).
Defined.

(** ** The loop of the chi-squared test *)

Lemma length_allele_tables n_gwa m (X_case_i X_ctrl_i : list (list Z)) :
  length (allele_tables n_gwa m X_case_i X_ctrl_i) = m.
Proof.
  unfold allele_tables, sum_axis0.
  rewrite !length_zip_with, !length_fmap, !length_seq. lia.
Qed.

(** X17. When the chi-squared test of a combination goes through, its
    scores are [n_rep] rows of one score per SNP, the shape
    [write_sumstats] accepts; it goes through only if the case and the
    control arrays hold every replicate and [chi2_contingency] raises on
    no table. *)
Theorem chi2_test_shape (chi2_contingency : table → option R)
    (two_sided_p : R → R) (n_gwa : Z) (m : nat) (n_rep : Z)
    (X_case X_ctrl : list (list (list Z))) (plink_bim_i : list bim_row) z :
  chi2_test chi2_contingency n_gwa m n_rep X_case X_ctrl = Some z →
  length plink_bim_i = m →
  length z = Z.to_nat n_rep
  ∧ Forall (λ z_i, length z_i = m) z
  ∧ is_Some (write_sumstats R two_sided_p n_gwa plink_bim_i n_rep z)
  ∧ ∀ i, i < Z.to_nat n_rep →
      ∃ X_case_i X_ctrl_i,
        X_case !! i = Some X_case_i ∧ X_ctrl !! i = Some X_ctrl_i
        ∧ Forall (λ t, is_Some (chi2_contingency t))
            (allele_tables n_gwa m X_case_i X_ctrl_i).
Proof.
  unfold chi2_test. intros Hz Hm.
  pose proof (length_mapM _ _ _ Hz) as Hlen. rewrite length_seq in Hlen.
  apply mapM_Some in Hz.
  assert (∀ i, i < Z.to_nat n_rep →
            ∃ X_case_i X_ctrl_i z_i,
              X_case !! i = Some X_case_i ∧ X_ctrl !! i = Some X_ctrl_i
              ∧ z !! i = Some z_i
              ∧ mapM (chi2_z chi2_contingency)
                  (allele_tables n_gwa m X_case_i X_ctrl_i) = Some z_i)
    as Hrows.
  { intros i Hi.
    destruct (Forall2_lookup_l _ _ _ i i Hz) as (z_i & Hzi & Hf).
    { by apply lookup_seq_lt. }
    cbn in Hf. destruct (X_case !! i) as [Xc|]; [|done].
    destruct (X_ctrl !! i) as [Xt|]; [|done]. cbn in Hf. eauto 10. }
  split_and!.
  - done.
  - apply Forall_forall. intros z_i (i & Hi)%list_elem_of_lookup_1.
    destruct (Hrows i) as (Xc & Xt & z_i' & _ & _ & Hzi & Hmap).
    { apply lookup_lt_Some in Hi. lia. }
    apply length_mapM in Hmap. rewrite length_allele_tables in Hmap.
    congruence.
  - apply write_sumstats_is_Some.
    intros i Hi. destruct (Hrows i Hi) as (Xc & Xt & z_i & _ & _ & Hzi & Hmap).
    exists z_i. split; [done|]. apply length_mapM in Hmap.
    rewrite length_allele_tables in Hmap. lia.
  - intros i Hi. destruct (Hrows i Hi) as (Xc & Xt & z_i & H1 & H2 & _ & Hmap).
    exists Xc, Xt. split_and!; [done..|].
    assert (is_Some (mapM (chi2_z chi2_contingency)
                       (allele_tables n_gwa m Xc Xt))) as Hsome by eauto.
    apply mapM_is_Some in Hsome.
    eapply Forall_impl; [exact Hsome|]. intros t [zt Hzt]. cbn in Hzt.
    unfold chi2_z in Hzt. destruct (chi2_contingency t); [by eexists|done].
Qed.

Lemma chi2_test_shape_witness :
  (∃ z, chi2_test (λ _, Some 4%R) 4 1 1 [[[1]; [1]]]%Z [[[0]; [1]]]%Z = Some z)
  ∧ is_Some (write_sumstats R (λ z, z) 4 [BimRow "1" "rs1" 0 100 "A" "C"] 1
               [[sqrt 4]]).
Proof.
  assert (chi2_test (λ _, Some 4%R) 4 1 1 [[[1]; [1]]]%Z [[[0]; [1]]]%Z
          = Some [[sqrt 4]]) as H by reflexivity.
  split; [by eexists|].
  exact (proj1 (proj2 (proj2 (chi2_test_shape (λ _, Some 4%R) (λ z, z) 4 1 1
           _ _ [BimRow "1" "rs1" 0 100 "A" "C"] _ H eq_refl)))).
Defined.

(** ** Reading the haplotypes *)

Lemma column_lookup {A} s (M : list (list A)) j :
  Forall (λ row, s < length row) M →
  column s M !! j = M !! j ≫= λ row, row !! s.
Proof.
  intros Hall. revert j. induction Hall as [|row M Hrow _ IH]; intros j;
    [done|].
  destruct (lookup_lt_is_Some_2 row s Hrow) as [x Hx].
  rewrite (column_cons _ _ _ _ Hx).
  destruct j as [|j]; cbn; [by rewrite Hx | apply IH].
Qed.

Lemma lookup_np_transpose {A} n (M : list (list A)) s :
  s < n → np_transpose n M !! s = Some (column s M).
Proof.
  intros Hs. unfold np_transpose. by rewrite list_lookup_fmap, lookup_seq_lt.
Qed.

Lemma length_np_transpose {A} n (M : list (list A)) :
  length (np_transpose n M) = n.
Proof. unfold np_transpose. by rewrite length_fmap, length_seq. Qed.

Lemma alleles_parsed pos (genotypes : list (list string)) alleles n :
  Forall (λ row, length row = n) genotypes →
  mapM (mapM (allele_at pos)) genotypes = Some alleles →
  length alleles = length genotypes
  ∧ Forall (λ row, length row = n) alleles
  ∧ ∀ j s row gt, genotypes !! j = Some row → row !! s = Some gt →
      ∃ a, allele_at pos gt = Some a
           ∧ (alleles !! j ≫= λ r, r !! s) = Some a.
Proof.
  intros Hw Hall. pose proof (length_mapM _ _ _ Hall) as Hlen.
  apply mapM_Some in Hall. split_and!; [done| |].
  - apply Forall_forall. intros r (j & Hj)%list_elem_of_lookup_1.
    destruct (Forall2_lookup_r _ _ _ _ _ Hall Hj) as (row & Hrow & Hmap).
    apply length_mapM in Hmap.
    pose proof (Forall_lookup_1 _ _ _ _ Hw Hrow) as Hn. cbn in Hn. lia.
  - intros j s row gt Hrow Hgt.
    destruct (Forall2_lookup_l _ _ _ _ _ Hall Hrow) as (r & Hr & Hmap).
    apply mapM_Some in Hmap.
    destruct (Forall2_lookup_l _ _ _ _ _ Hmap Hgt) as (a & Ha & Hpa).
    exists a. split; [done|]. by rewrite Hr.
Qed.

(** X18. The haplotypes are read exactly when every genotype string has
    a digit at its positions 0 and 2. For a panel of [S] samples the
    matrix then has [2 * S] rows of one entry per SNP: row [s] holds
    the first alleles of sample [s], row [S + s] its second alleles. *)
Theorem read_haplotypes_spec (n_samples : nat)
    (genotypes : list (list string)) :
  (is_Some (read_haplotypes n_samples genotypes) ↔
   Forall (Forall (λ gt, is_Some (allele_at 0 gt)
                         ∧ is_Some (allele_at 2 gt))) genotypes)
  ∧ ∀ ref_haplo0,
      Forall (λ row, length row = n_samples) genotypes →
      read_haplotypes n_samples genotypes = Some ref_haplo0 →
      length ref_haplo0 = 2 * n_samples
      ∧ Forall (λ h, length h = length genotypes) ref_haplo0
      ∧ ∀ j s row gt, genotypes !! j = Some row → row !! s = Some gt →
          ∃ a b, allele_at 0 gt = Some a ∧ allele_at 2 gt = Some b
            ∧ (ref_haplo0 !! s ≫= λ h, h !! j) = Some a
            ∧ (ref_haplo0 !! (n_samples + s) ≫= λ h, h !! j) = Some b.
Proof.
  unfold read_haplotypes. split.
  - split.
    + intros [H Hsome].
      destruct (mapM (mapM (allele_at 0)) genotypes) as [first|] eqn:H0;
        [|done].
      destruct (mapM (mapM (allele_at 2)) genotypes) as [second|] eqn:H2;
        [|done].
      assert (is_Some (mapM (mapM (allele_at 0)) genotypes)) as S0 by eauto.
      assert (is_Some (mapM (mapM (allele_at 2)) genotypes)) as S2 by eauto.
      apply mapM_is_Some in S0, S2. apply Forall_forall. intros row Hrow.
      pose proof (proj1 (Forall_forall _ _) S0 row Hrow) as R0.
      pose proof (proj1 (Forall_forall _ _) S2 row Hrow) as R2.
      cbn in R0, R2. apply mapM_is_Some in R0, R2.
      apply Forall_forall. intros gt Hgt. split.
      * by apply (proj1 (Forall_forall _ _) R0 gt Hgt).
      * by apply (proj1 (Forall_forall _ _) R2 gt Hgt).
    + intros Hall.
      assert (is_Some (mapM (mapM (allele_at 0)) genotypes)) as [first ->].
      { apply mapM_is_Some. eapply Forall_impl; [exact Hall|].
        intros row Hrow. cbn. apply mapM_is_Some.
        eapply Forall_impl; [exact Hrow|]. by intros gt [? _]. }
      assert (is_Some (mapM (mapM (allele_at 2)) genotypes)) as [second ->].
      { apply mapM_is_Some. eapply Forall_impl; [exact Hall|].
        intros row Hrow. cbn. apply mapM_is_Some.
        eapply Forall_impl; [exact Hrow|]. by intros gt [_ ?]. }
      cbn. by eexists.
  - intros H Hw.
    destruct (mapM (mapM (allele_at 0)) genotypes) as [first|] eqn:H0;
      [|done].
    destruct (mapM (mapM (allele_at 2)) genotypes) as [second|] eqn:H2;
      [|done].
    cbn. intros [= <-].
    destruct (alleles_parsed 0 _ _ _ Hw H0) as (L0 & W0 & P0).
    destruct (alleles_parsed 2 _ _ _ Hw H2) as (L2 & W2 & P2).
    assert (∀ (M : list (list Z)) s, Forall (λ row, length row = n_samples) M →
              s < n_samples → Forall (λ row, s < length row) M) as Hlt.
    { intros M s HM Hs. eapply Forall_impl; [exact HM|]. cbn. intros; lia. }
    split_and!.
    + rewrite length_app, !length_np_transpose. lia.
    + apply Forall_app. split; apply Forall_forall;
        intros h (s & Hs)%list_elem_of_lookup_1;
        pose proof (lookup_lt_Some _ _ _ Hs) as Hlen;
        rewrite length_np_transpose in Hlen;
        rewrite lookup_np_transpose in Hs by done; injection Hs as <-;
        rewrite length_column by (by apply Hlt); congruence.
    + intros j s row gt Hrow Hgt.
      assert (s < n_samples) as Hs.
      { apply lookup_lt_Some in Hgt.
        pose proof (Forall_lookup_1 _ _ _ _ Hw Hrow) as Hn. cbn in Hn. lia. }
      destruct (P0 j s row gt Hrow Hgt) as (a & Ha & Hfa).
      destruct (P2 j s row gt Hrow Hgt) as (b & Hb & Hfb).
      exists a, b. split_and!; [done|done| |].
      * rewrite lookup_app_l by (rewrite length_np_transpose; lia).
        rewrite lookup_np_transpose by done. cbn.
        by rewrite column_lookup by (by apply Hlt).
      * rewrite lookup_app_r by (rewrite length_np_transpose; lia).
        rewrite length_np_transpose.
        replace (n_samples + s - n_samples) with s by lia.
        rewrite lookup_np_transpose by done. cbn.
        by rewrite column_lookup by (by apply Hlt).
Qed.

(** Two SNPs, two samples, phased genotypes. *)
Example read_haplotypes_example :
  read_haplotypes 2 [["0|1"; "1|1"]; ["0|0"; "1|0"]]
  = Some [[0; 0]; [1; 1]; [1; 0]; [1; 0]]%Z
  ∧ read_haplotypes 2 [["0|1"; ".|."]; ["0|0"; "1|0"]] = None
  ∧ read_haplotypes 2 [["0|1"; "1"]; ["0|0"; "1|0"]] = None.
Proof. repeat split. Qed.

(** ** What the MAF filter keeps *)

Lemma omap_where_from_ge {A} (l : list A) s (y : list bool) :
  length l ≤ s → omap (λ i, l !! i) (where_from s y) = [].
Proof.
  revert s. induction y as [|b y IH]; intros s Hs; [done|]. cbn.
  destruct b; [cbn; rewrite lookup_ge_None_2 by lia|]; apply IH; lia.
Qed.

Lemma take_rows_where_sublist {A} (pre X : list A) (y : list bool) :
  omap (λ i, (pre ++ X) !! i) (where_from (length pre) y) `sublist_of` X.
Proof.
  revert pre y. induction X as [|x X IH]; intros pre y.
  - by rewrite omap_where_from_ge by (rewrite length_app; cbn; lia).
  - destruct y as [|b y]; [apply sublist_nil_l|]. cbn [where_from].
    specialize (IH (pre ++ [x]) y).
    rewrite <- app_assoc, length_app in IH. cbn in IH.
    replace (length pre + 1) with (S (length pre)) in IH by lia.
    destruct b.
    + cbn. rewrite lookup_app_r, Nat.sub_diag by lia. cbn.
      by apply sublist_skip.
    + by apply sublist_cons.
Qed.

Lemma select_sublist {A} (mask : list bool) (v : list A) :
  select mask v `sublist_of` v.
Proof. apply (take_rows_where_sublist [] v mask). Qed.

Section LoaderOrder.
Variable F : Type.
Variable flt : F → F → bool.
Variable fsub : F → F → F.
Variable fone : F.
Variable fmean : list Z → F.
Context {B : Type}.

(** X19. The filter never reorders and never repeats: the annotation
    rows it keeps are a subsequence of the VCF rows, the frequencies it
    keeps a subsequence of all frequencies, and every haplotype row is
    cut down to a subsequence of itself. *)
Theorem filter_by_maf_order maf_min (ref_haplo0 : list (list Z))
    (vcf : list B) :
  let p := filter_by_maf F flt fsub fone fmean maf_min ref_haplo0 vcf in
  plink_bim F p `sublist_of` vcf
  ∧ allele_frq F p `sublist_of` mean_axis0 F fmean (length vcf) ref_haplo0
  ∧ Forall2 (λ row' row, row' `sublist_of` row) (ref_haplo F p) ref_haplo0.
Proof.
  cbn. split_and!; [apply select_sublist..|].
  apply Forall2_fmap_l, Forall_Forall2_diag, Forall_forall.
  intros row _. apply select_sublist.
Qed.
End LoaderOrder.

(** ** Monomorphic SNPs *)

Lemma column_constant (M : list (list Z)) j c :
  Forall (λ row, row !! j = Some c) M →
  column j M = replicate (length M) c.
Proof.
  induction 1 as [|row M Hrow _ IH]; [done|].
  rewrite (column_cons _ _ _ _ Hrow). cbn. by rewrite IH.
Qed.

Lemma sum_replicate n (c : Z) :
  foldr Z.add 0%Z (replicate n c) = (Z.of_nat n * c)%Z.
Proof. induction n as [|n IH]; [done|]. cbn [replicate foldr]. lia. Qed.

(** X20. With rational frequencies and a threshold that is not negative,
    a SNP at which every haplotype of the panel carries allele 0, or
    every haplotype allele 1, is never retained. *)
Theorem filter_by_maf_monomorphic {B} (maf_min : Q)
    (ref_haplo0 : list (list Z)) (vcf : list B) (j : nat) :
  (0 <= maf_min)%Q →
  Forall (λ row, row !! j = Some 0%Z) ref_haplo0
  ∨ Forall (λ row, row !! j = Some 1%Z) ref_haplo0 →
  j ∉ np_where (extract_mask Q Qltb Qminus 1%Q maf_min
                  (mean_axis0 Q Qmean (length vcf) ref_haplo0)).
Proof.
  intros Hmaf Hmono Hj.
  apply (elem_of_kept Q Qltb Qminus 1%Q Qmean maf_min vcf) in Hj
    as [Hlt Hband].
  unfold in_band in Hband. apply andb_true_iff in Hband as [Hlo Hhi].
  apply Qltb_lt in Hlo, Hhi. unfold Qmean in Hlo, Hhi.
  destruct Hmono as [H0 | H1].
  - rewrite (column_constant _ _ _ H0), sum_replicate, Z.mul_0_r in Hlo.
    assert (inject_Z 0 / inject_Z (Z.of_nat
              (length (replicate (length ref_haplo0) 0%Z))) == 0)%Q as Hz
      by (unfold Qdiv; apply Qmult_0_l).
    rewrite Hz in Hlo. by apply (Qlt_irrefl 0), (Qle_lt_trans _ maf_min).
  - rewrite (column_constant _ _ _ H1), sum_replicate, Z.mul_1_r,
      length_replicate in Hhi.
    set (n := inject_Z (Z.of_nat (length ref_haplo0))) in *.
    assert (1 - maf_min <= 1)%Q as Hle.
    { rewrite <- (Qplus_0_r 1) at 2. unfold Qminus.
      apply Qplus_le_r. rewrite <- (Qopp_opp 0).
      apply Qopp_le_compat. by cbn. }
    destruct (decide (length ref_haplo0 = 0)) as [Hlen|Hlen].
    + apply nil_length_inv in Hlen. subst ref_haplo0. cbn in Hlo.
      by apply (Qlt_irrefl 0), (Qle_lt_trans _ maf_min).
    + assert (n / n == 1)%Q as Hone.
      { apply Qmult_inv_r. subst n. intros Hz.
        unfold Qeq in Hz. cbn in Hz. lia. }
      rewrite Hone in Hhi.
      by apply (Qlt_irrefl 1), (Qlt_le_trans _ (1 - maf_min)).
Qed.

Lemma filter_by_maf_monomorphic_witness :
  (0 <= 1 # 100)%Q
  ∧ 0 ∉ np_where (extract_mask Q Qltb Qminus 1%Q (1 # 100)%Q
                    (mean_axis0 Q Qmean (length sample_vcf) sample_ref_haplo)).
Proof.
  assert (0 <= 1 # 100)%Q as H by (unfold Qle; cbn; lia).
  split; [exact H|].
  apply (filter_by_maf_monomorphic (1 # 100)%Q sample_ref_haplo sample_vcf 0 H).
  left. repeat constructor.
Defined.

(** ** The realisation loop and the choice of the controls *)

Section RealizeFacts.
Context {A : Type}.
Variables (prevalence_lst pqtl_lst : list string).
Implicit Types (d : draw A) (k : combo).

Lemma collect_pop0_notin (pop0 : draw A) acc l k :
  k ∉ l →
  track (foldl (collect_pop0 pop0) acc l).1 k = track acc.1 k.
Proof.
  revert acc. induction l as [|k0 l IH]; intros acc Hk; [done|].
  apply not_elem_of_cons in Hk as [Hne Hk]. cbn [foldl].
  rewrite IH by done. unfold track. cbn.
  by rewrite !lookup_insert_ne.
Qed.

(** X21. After the realisation loop every combination holds the cases of
    the initial pool and as many of its non-cases, at most, as controls,
    each as one batch, and a pair of strings that is no combination holds
    nothing; the used positions are exactly those of the individuals
    that some combination took as a case or as a control, each listed
    once. *)
Theorem realize_spec (pop0 : draw A) :
  let st0 := (realize prevalence_lst pqtl_lst pop0).1 in
  let used := (realize prevalence_lst pqtl_lst pop0).2 in
  (∀ k, k ∈ combos prevalence_lst pqtl_lst →
     n_collected st0 !! k = Some (Z.of_nat (length (case_batch k pop0)))
     ∧ X_case_dict st0 !! k = Some [case_batch k pop0]
     ∧ X_ctrl_dict st0 !! k = Some [ctrl_batch k pop0]
     ∧ length (ctrl_batch k pop0) ≤ length (case_batch k pop0))
  ∧ (∀ k, k ∉ combos prevalence_lst pqtl_lst →
       n_collected st0 !! k = None ∧ X_case_dict st0 !! k = None
       ∧ X_ctrl_dict st0 !! k = None)
  ∧ (∀ i, i ∈ X_idx_used used ↔
          ∃ k, k ∈ combos prevalence_lst pqtl_lst
               ∧ (i ∈ i_case_of pop0 k ∨ i ∈ i_ctrl_of pop0 k))
  ∧ NoDup (X_idx_used used).
Proof.
  cbn zeta. split_and!.
  - intros k Hk. pose proof (track_realize _ _ pop0 k Hk) as Ht.
    unfold track, collected_from in Ht. injection Ht as Hn Hc Ht.
    rewrite Hn, Hc, Ht. split_and!; try done.
    + unfold cases_in. cbn. rewrite length_case_batch. f_equal. lia.
    + rewrite length_ctrl_batch. lia.
  - intros k Hk.
    pose proof (collect_pop0_notin pop0 (empty_state, []) _ k Hk) as Ht.
    unfold track in Ht. cbn in Ht. rewrite !lookup_empty in Ht.
    injection Ht as Hn Hc Ht. done.
  - intros i. unfold X_idx_used.
    rewrite elem_of_np_unique, used_realize, elem_of_concat. split.
    + intros (idx & Hi & (k & Hidx & Hk)%list_elem_of_bind).
      exists k. split; [done|].
      apply elem_of_cons in Hidx as [-> | ->%list_elem_of_singleton];
        [by left | by right].
    + intros (k & Hk & [Hi | Hi]).
      * exists (i_case_of pop0 k). split; [done|].
        apply list_elem_of_bind. exists k. split; [constructor | done].
      * exists (i_ctrl_of pop0 k). split; [done|].
        apply list_elem_of_bind. exists k.
        split; [do 2 constructor | done].
  - apply NoDup_np_unique.
Qed.

(** X22. The controls of a batch are its earliest non-cases: every
    chosen control is an individual whose liability did not exceed the
    threshold, and a non-case that comes before a chosen control in the
    batch is chosen too. *)
Theorem i_ctrl_of_earliest d k :
  (∀ i, i ∈ i_ctrl_of d k →
     i < length (rows d) ∧ is_case d k i = false ∧ i ∉ i_case_of d k)
  ∧ (∀ i j, i ∈ i_ctrl_of d k → j < i → is_case d k j = false →
       j ∈ i_ctrl_of d k).
Proof.
  assert (∀ i, i ∈ np_where (negb <$> labels d k) ↔
               i < length (rows d) ∧ is_case d k i = false) as Hneg.
  { intros i. rewrite elem_of_np_where, list_lookup_fmap. unfold labels.
    rewrite list_lookup_fmap. split.
    - destruct (seq 0 (length (rows d)) !! i) as [i'|] eqn:Hi; [|done].
      apply lookup_seq in Hi as [-> Hi]. cbn. intros [= H].
      split; [done|]. by apply negb_true_iff.
    - intros [Hi Hf]. rewrite lookup_seq_lt by done. cbn. by rewrite Hf. }
  split.
  - intros i Hi. unfold i_ctrl_of in Hi.
    apply elem_of_take in Hi as (a & Ha%list_elem_of_lookup_2 & _).
    apply Hneg in Ha as [Hlt Hf]. split_and!; [done..|].
    unfold i_case_of. rewrite elem_of_np_where. unfold labels.
    rewrite list_lookup_fmap, lookup_seq_lt by done. cbn. by rewrite Hf.
  - intros i j Hi Hji Hf. unfold i_ctrl_of in *.
    apply elem_of_take in Hi as (b & Hb & Hbn).
    assert (j ∈ np_where (negb <$> labels d k)) as Hj.
    { apply Hneg. split; [|done].
      apply list_elem_of_lookup_2, Hneg in Hb. lia. }
    apply list_elem_of_lookup_1 in Hj as (a & Ha).
    apply elem_of_take. exists a. split; [done|].
    destruct (decide (a < b)); [lia|]. exfalso.
    destruct (decide (a = b)) as [->|Hne].
    + rewrite Ha in Hb. injection Hb as ->. lia.
    + pose proof (where_from_ascending 0 _ b a i j Hb Ha ltac:(lia)). lia.
Qed.
End RealizeFacts.
